(** * BounceShot: the physics core of [src/game/physics.ts]

    A shallow embedding of the geometry resolver, the collision
    detector/responder, the integrator [stepBall] and the trajectory
    simulator [simulateTrajectory], followed by the properties of the
    specification that concern them.

    Numbers.  A TypeScript [number] is modelled as a real number: [+ - * /],
    [Math.sqrt], [Math.sin], [Math.cos], [Math.abs], [Math.max] and
    [Math.min] are the operations of [R].  The rounding of IEEE doubles,
    infinities and NaN are outside the model.  Counters that only ever hold
    integers (the trajectory's collision count and cap) are in [Z], the
    loop bound [steps] is a [nat].

    Objects.  The functions of the source build fresh [Vec2] objects, except
    [resolveWallCollisions], which assigns to the coordinates of the state it
    is given, and [resolveBumperCollision], which reassigns the fields of the
    state.  The first part of the file is the value-level model (state in,
    state out).  The second part, the object store, is the same [stepBall]
    over an explicit store of objects with references, where the question
    whether the caller's state object is modified can be asked. *)

From Stdlib Require Import Reals Lra Lia ZArith.
From stdpp Require Import base gmap strings list.

Open Scope R_scope.

(** ** Comparisons on numbers, as booleans *)

Definition Rltb (a b : R) : bool := if Rlt_dec a b then true else false.
Definition Rgtb (a b : R) : bool := Rltb b a.
Definition Reqb (a b : R) : bool := if Req_dec_T a b then true else false.

Infix "<?" := Rltb : R_scope.
Infix ">?" := Rgtb : R_scope.
Infix "=?" := Reqb : R_scope.

(** ** Data model *)

Record Vec2 : Type := mkVec2 { x : R; y : R }.

Inductive Axis : Type := AxisX | AxisY.

(** [motion] of a bumper; [phase] is optional in the source. *)
Record Motion : Type := mkMotion {
  axis : Axis;
  amplitude : R;
  speed : R;
  phase : option R;
}.

Inductive Orientation : Type := Up | Down | Left | Right.

(** [Bumper['type']]: ['rect'] or ['triangle']; a triangle carries its
    [orientation] (the [TriangleBumper] of the source). *)
Inductive BumperType : Type :=
  | rect
  | triangle (orientation : Orientation).

Record Bumper : Type := mkBumper {
  b_id : string;
  b_color : string;
  b_position : Vec2;
  b_width : R;
  b_height : R;
  b_rotation : option R;
  b_motion : option Motion;
  b_type : BumperType;
}.

(** Of a level the physics reads the list of bumpers only. *)
Record LevelConfig : Type := mkLevel {
  lv_id : string;
  bounceLimit : Z;
  ballStart : Vec2;
  bumpers : list Bumper;
}.

Record ResolvedBumper : Type := mkResolved {
  rb_id : string;
  rb_color : string;
  rb_center : Vec2;
  rb_width : R;
  rb_height : R;
  rb_rotation : R;
  rb_vertices : list Vec2;
  rb_type : BumperType;
}.

Inductive CollisionKind : Type := wall | bumper.

Record CollisionEvent : Type := mkEvent {
  ev_id : string;
  ev_kind : CollisionKind;
  ev_normal : Vec2;
  ev_point : Vec2;
}.

Record BallState : Type := mkBall {
  position : Vec2;
  velocity : Vec2;
}.

Record StepSettings : Type := mkSettings {
  ballRadius : R;
  worldWidth : R;
  worldHeight : R;
  damping : R;
  friction : R;
  maxSpeed : R;
}.

Record Edge : Type := mkEdge {
  e_from : Vec2;
  e_to : Vec2;
  e_normal : Vec2;
}.

(** ** Vector helpers *)

Definition toRadians (degrees : R) : R := (degrees * PI) / 180.

Definition add (a b : Vec2) : Vec2 := {| x := x a + x b; y := y a + y b |}.
Definition sub (a b : Vec2) : Vec2 := {| x := x a - x b; y := y a - y b |}.
Definition scale (a : Vec2) (s : R) : Vec2 := {| x := x a * s; y := y a * s |}.
Definition dot (a b : Vec2) : R := x a * x b + y a * y b.
Definition length (a : Vec2) : R := sqrt (x a * x a + y a * y a).

Definition normalize (a : Vec2) : Vec2 :=
  let len := length a in
  if len =? 0 then {| x := 0; y := 0 |}
  else {| x := x a / len; y := y a / len |}.

Definition clamp (value min max : R) : R := Rmax min (Rmin max value).

Definition rotatePoint (point : Vec2) (radians : R) : Vec2 :=
  let c := cos radians in
  let s := sin radians in
  {| x := x point * c - y point * s; y := x point * s + y point * c |}.

(** ** Geometry resolver *)

Definition applyMotion (pos : Vec2) (b : Bumper) (time : R) : Vec2 :=
  match b_motion b with
  | None => pos
  | Some m =>
      let ph := default 0 (phase m) in
      let offset := amplitude m * sin (time * speed m + ph) in
      match axis m with
      | AxisX => {| x := x pos + offset; y := y pos |}
      | AxisY => {| x := x pos; y := y pos + offset |}
      end
  end.

Definition rectVertices (b : Bumper) : list Vec2 :=
  let halfW := b_width b / 2 in
  let halfH := b_height b / 2 in
  [ {| x := - halfW; y := - halfH |};
    {| x := halfW; y := - halfH |};
    {| x := halfW; y := halfH |};
    {| x := - halfW; y := halfH |} ].

(** [triangleVertices] switches on the orientation of the bumper; the
    source's [default] arm is the arm of ['right']. *)
Definition triangleVertices (b : Bumper) (o : Orientation) : list Vec2 :=
  let halfW := b_width b / 2 in
  let halfH := b_height b / 2 in
  match o with
  | Up =>
      [ {| x := 0; y := - halfH |};
        {| x := halfW; y := halfH |};
        {| x := - halfW; y := halfH |} ]
  | Down =>
      [ {| x := 0; y := halfH |};
        {| x := - halfW; y := - halfH |};
        {| x := halfW; y := - halfH |} ]
  | Left =>
      [ {| x := - halfW; y := 0 |};
        {| x := halfW; y := - halfH |};
        {| x := halfW; y := halfH |} ]
  | Right =>
      [ {| x := halfW; y := 0 |};
        {| x := - halfW; y := - halfH |};
        {| x := - halfW; y := halfH |} ]
  end.

Definition zeroVec : Vec2 := {| x := 0; y := 0 |}.

(** The loop over [i] in [0 .. vertices.length - 1]; the index
    [(i + 1) % vertices.length] is always in range. *)
Definition buildEdges (vertices : list Vec2) : list Edge :=
  let n := List.length vertices in
  map (fun i : nat =>
         let from := nth i vertices zeroVec in
         let to := nth ((i + 1) mod n) vertices zeroVec in
         let edgeDir := sub to from in
         let normal := normalize {| x := y edgeDir; y := - x edgeDir |} in
         {| e_from := from; e_to := to; e_normal := normal |})
      (seq 0 n).

(** [baseVerts] of [resolveBumper]. *)
Definition baseVerts (b : Bumper) : list Vec2 :=
  match b_type b with
  | rect => rectVertices b
  | triangle o => triangleVertices b o
  end.

Definition resolveBumper (b : Bumper) (time : R) : ResolvedBumper :=
  let rotation := default 0 (b_rotation b) in
  let rotated :=
    if negb (rotation =? 0)
    then map (fun point => rotatePoint point (toRadians rotation)) (baseVerts b)
    else baseVerts b in
  let center := applyMotion (b_position b) b time in
  let vertices := map (fun point => add point center) rotated in
  {| rb_id := b_id b;
     rb_color := b_color b;
     rb_center := center;
     rb_width := b_width b;
     rb_height := b_height b;
     rb_rotation := rotation;
     rb_vertices := vertices;
     rb_type := b_type b |}.

Definition resolveBumpers (level : LevelConfig) (time : R) : list ResolvedBumper :=
  map (fun b => resolveBumper b time) (bumpers level).

(** ** Collision detector and responder *)

(** The denominator of the projection in [closestPointOnSegment]. *)
Definition segLenSq (edge : Edge) : R :=
  let seg := sub (e_to edge) (e_from edge) in
  Rmax (dot seg seg) 0.0001.

Definition closestPointOnSegment (point : Vec2) (edge : Edge) : Vec2 :=
  let seg := sub (e_to edge) (e_from edge) in
  let t := clamp (dot (sub point (e_from edge)) seg / segLenSq edge) 0 1 in
  add (e_from edge) (scale seg t).

Definition reflectVelocity (vel normal : Vec2) : Vec2 :=
  let dotProduct := dot vel normal in
  sub vel (scale normal (2 * dotProduct)).

Record CollisionAccumulator : Type := mkAcc {
  events : list CollisionEvent;
  ids : gset string;
}.

Definition emptyAccumulator : CollisionAccumulator :=
  {| events := []; ids := ∅ |}.

Definition appendCollision (accumulator : CollisionAccumulator)
    (event : CollisionEvent) : CollisionAccumulator :=
  if decide (ev_id event ∈ ids accumulator) then accumulator
  else {| events := events accumulator ++ [event];
          ids := ids accumulator ∪ {[ ev_id event ]} |}.

Definition setPositionX (state : BallState) (v : R) : BallState :=
  {| position := {| x := v; y := y (position state) |}; velocity := velocity state |}.
Definition setPositionY (state : BallState) (v : R) : BallState :=
  {| position := {| x := x (position state); y := v |}; velocity := velocity state |}.
Definition setVelocityX (state : BallState) (v : R) : BallState :=
  {| position := position state; velocity := {| x := v; y := y (velocity state) |} |}.
Definition setVelocityY (state : BallState) (v : R) : BallState :=
  {| position := position state; velocity := {| x := x (velocity state); y := v |} |}.

(** The left/right pair of [resolveWallCollisions].  The source's locals
    [position] and [velocity] are the objects of the state itself, so every
    read below sees the assignments made before it. *)
Definition resolveWallX (state : BallState) (settings : StepSettings)
    (accumulator : CollisionAccumulator) : BallState * CollisionAccumulator :=
  let r := ballRadius settings in
  if (x (position state) - r <? 0) && (x (velocity state) <? 0) then
    let state := setPositionX state r in
    let state := setVelocityX state (Rabs (x (velocity state)) * damping settings) in
    (state,
     appendCollision accumulator
       {| ev_id := "wall-left"; ev_kind := wall;
          ev_normal := {| x := 1; y := 0 |};
          ev_point := {| x := 0; y := y (position state) |} |})
  else if (x (position state) + r >? worldWidth settings) && (x (velocity state) >? 0) then
    let state := setPositionX state (worldWidth settings - r) in
    let state := setVelocityX state ((- Rabs (x (velocity state))) * damping settings) in
    (state,
     appendCollision accumulator
       {| ev_id := "wall-right"; ev_kind := wall;
          ev_normal := {| x := -1; y := 0 |};
          ev_point := {| x := worldWidth settings; y := y (position state) |} |})
  else (state, accumulator).

(** The top/bottom pair. *)
Definition resolveWallY (state : BallState) (settings : StepSettings)
    (accumulator : CollisionAccumulator) : BallState * CollisionAccumulator :=
  let r := ballRadius settings in
  if (y (position state) - r <? 0) && (y (velocity state) <? 0) then
    let state := setPositionY state r in
    let state := setVelocityY state (Rabs (y (velocity state)) * damping settings) in
    (state,
     appendCollision accumulator
       {| ev_id := "wall-top"; ev_kind := wall;
          ev_normal := {| x := 0; y := 1 |};
          ev_point := {| x := x (position state); y := 0 |} |})
  else if (y (position state) + r >? worldHeight settings) && (y (velocity state) >? 0) then
    let state := setPositionY state (worldHeight settings - r) in
    let state := setVelocityY state ((- Rabs (y (velocity state))) * damping settings) in
    (state,
     appendCollision accumulator
       {| ev_id := "wall-bottom"; ev_kind := wall;
          ev_normal := {| x := 0; y := -1 |};
          ev_point := {| x := x (position state); y := worldHeight settings |} |})
  else (state, accumulator).

Definition resolveWallCollisions (state : BallState) (settings : StepSettings)
    (accumulator : CollisionAccumulator) : BallState * CollisionAccumulator :=
  let '(state, accumulator) := resolveWallX state settings accumulator in
  resolveWallY state settings accumulator.

(** One turn of the loop over the edges: [None] when the loop goes on to the
    next edge, [Some] with the corrected state and the event when it breaks. *)
Definition edgeCheck (id : string) (state : BallState) (settings : StepSettings)
    (edge : Edge) : option (BallState * CollisionEvent) :=
  let nearest := closestPointOnSegment (position state) edge in
  let diff := sub (position state) nearest in
  let dist := length diff in
  if dist =? 0 then None
  else
    let normal := normalize diff in
    if (dist <? ballRadius settings) && (dot (velocity state) normal <? 0) then
      let penetration := ballRadius settings - dist in
      Some ({| position := add (position state) (scale normal penetration);
               velocity := scale (reflectVelocity (velocity state) normal)
                                 (damping settings) |},
            {| ev_id := id; ev_kind := bumper;
               ev_normal := normal; ev_point := nearest |})
    else None.

Fixpoint edgeLoop (id : string) (state : BallState) (settings : StepSettings)
    (edges : list Edge) : option (BallState * CollisionEvent) :=
  match edges with
  | [] => None
  | edge :: rest =>
      match edgeCheck id state settings edge with
      | Some hit => Some hit
      | None => edgeLoop id state settings rest
      end
  end.

(** One turn of the corner check. *)
Definition vertexCheck (id : string) (state : BallState) (settings : StepSettings)
    (vertex : Vec2) : option (BallState * CollisionEvent) :=
  let diff := sub (position state) vertex in
  let dist := length diff in
  if (dist <? ballRadius settings) && (dot (velocity state) diff <? 0) then
    let normal := normalize diff in
    let penetration := ballRadius settings - dist in
    Some ({| position := add (position state) (scale normal penetration);
             velocity := scale (reflectVelocity (velocity state) normal)
                               (damping settings) |},
          {| ev_id := id; ev_kind := bumper;
             ev_normal := normal; ev_point := vertex |})
  else None.

Fixpoint vertexLoop (id : string) (state : BallState) (settings : StepSettings)
    (vertices : list Vec2) : option (BallState * CollisionEvent) :=
  match vertices with
  | [] => None
  | vertex :: rest =>
      match vertexCheck id state settings vertex with
      | Some hit => Some hit
      | None => vertexLoop id state settings rest
      end
  end.

(** The contact found for one bumper, if any: the first matching edge, and
    when no edge matched ([collided] still false) the first matching
    vertex. *)
Definition bumperHit (b : ResolvedBumper) (state : BallState)
    (settings : StepSettings) : option (BallState * CollisionEvent) :=
  match edgeLoop (rb_id b) state settings (buildEdges (rb_vertices b)) with
  | Some hit => Some hit
  | None => vertexLoop (rb_id b) state settings (rb_vertices b)
  end.

Definition resolveBumperCollision (b : ResolvedBumper) (state : BallState)
    (accumulator : CollisionAccumulator) (settings : StepSettings)
    : BallState * CollisionAccumulator :=
  match bumperHit b state settings with
  | Some (state', event) => (state', appendCollision accumulator event)
  | None => (state, accumulator)
  end.

(** ** Integrator *)

(** [nextState] as [stepBall] first builds it: the predicted position and a
    copy of the velocity. *)
Definition advance (st : BallState) (dt : R) : BallState :=
  {| position := add (position st) (scale (velocity st) dt);
     velocity := velocity st |}.

(** [nextState.velocity = scale(nextState.velocity, 1 - friction * dt)]. *)
Definition applyFriction (nextState : BallState) (dt : R) (settings : StepSettings)
    : BallState :=
  {| position := position nextState;
     velocity := scale (velocity nextState) (1 - friction settings * dt) |}.

(** The speed cap. *)
Definition capSpeed (nextState : BallState) (settings : StepSettings) : BallState :=
  let speed := length (velocity nextState) in
  if speed >? maxSpeed settings then
    {| position := position nextState;
       velocity := scale (velocity nextState) (maxSpeed settings / speed) |}
  else nextState.

(** [nextState] of [stepBall] before any collision is resolved. *)
Definition predict (st : BallState) (dt : R) (settings : StepSettings) : BallState :=
  capSpeed (applyFriction (advance st dt) dt settings) settings.

Definition resolveBumperLoop (bs : list ResolvedBumper) (settings : StepSettings)
    (sa : BallState * CollisionAccumulator) : BallState * CollisionAccumulator :=
  fold_left (fun sa b => resolveBumperCollision b (fst sa) (snd sa) settings) bs sa.

Record StepResult : Type := mkResult {
  state : BallState;
  collisions : list CollisionEvent;
}.

Definition stepBall (st : BallState) (bs : list ResolvedBumper) (dt : R)
    (settings : StepSettings) : StepResult :=
  let nextState := predict st dt settings in
  let accumulator := emptyAccumulator in
  let sa := resolveWallCollisions nextState settings accumulator in
  let sa := resolveBumperLoop bs settings sa in
  {| state := fst sa; collisions := events (snd sa) |}.

(** ** Trajectory simulator *)

(** The [for] loop of [simulateTrajectory] with [n] iterations left. *)
Fixpoint simulateLoop (level : LevelConfig) (dt : R) (maxCollisions : Z)
    (settings : StepSettings) (n : nat) (st : BallState) (time : R)
    (count : Z) (points : list Vec2) : list Vec2 :=
  match n with
  | O => points
  | S n' =>
      let bs := resolveBumpers level time in
      let result := stepBall st bs dt settings in
      let st := state result in
      let points := points ++ [position st] in
      let time := time + dt in
      let len := Z.of_nat (List.length (collisions result)) in
      let count := if (len >? 0)%Z then (count + len)%Z else count in
      if (count >=? maxCollisions)%Z then points
      else simulateLoop level dt maxCollisions settings n' st time count points
  end.

Definition simulateTrajectory (start : BallState) (level : LevelConfig)
    (initialTime dt : R) (steps : nat) (maxCollisions : Z)
    (settings : StepSettings) : list Vec2 :=
  let st := {| position := position start; velocity := velocity start |} in
  simulateLoop level dt maxCollisions settings steps st initialTime 0%Z [].

(** [getPhysicsSettings] of the game screen: the settings every call of the
    application passes. *)
Definition getPhysicsSettings : StepSettings :=
  {| ballRadius := 14; worldWidth := 360; worldHeight := 640;
     damping := 0.88; friction := 0.18; maxSpeed := 900 |}.

(** ** Predicates of the statements and inputs of the scenarios *)

Definition inArena (settings : StepSettings) (p : Vec2) : Prop :=
  ballRadius settings <= x p <= worldWidth settings - ballRadius settings /\
  ballRadius settings <= y p <= worldHeight settings - ballRadius settings.

(** A ball at rest in the middle of an arena without bumpers. *)
Definition restBall : BallState :=
  {| position := {| x := 180; y := 320 |}; velocity := {| x := 0; y := 0 |} |}.

Definition emptyLevel : LevelConfig :=
  {| lv_id := "empty"; bounceLimit := 5;
     ballStart := {| x := 180; y := 320 |}; bumpers := [] |}.

(** Scenario 1 of the specification: a ball in the corner moving left. *)
Definition scenario1Ball : BallState :=
  {| position := {| x := 0; y := 0 |}; velocity := {| x := -100; y := 0 |} |}.

Definition scenario1Settings (cap : R) : StepSettings :=
  {| ballRadius := 14; worldWidth := 360; worldHeight := 640;
     damping := 0.88; friction := 0.18; maxSpeed := cap |}.

(** The driver's loop over sub-steps in an arena without bumpers: the state
    after each step, one [dt] per step. *)
Fixpoint runSteps (st : BallState) (dts : list R) (settings : StepSettings)
    : list BallState :=
  match dts with
  | [] => []
  | dt :: rest =>
      let st' := state (stepBall st [] dt settings) in
      st' :: runSteps st' rest settings
  end.

(** A ball touching the left wall and moving into it. *)
Definition c3Ball : BallState :=
  {| position := {| x := 14; y := 100 |}; velocity := {| x := -10; y := 0 |} |}.

(** The response of a contact: the event carries a unit normal [n] against
    which the ball was moving, the ball is pushed along [n], and the
    velocity is reflected about [n] and damped. *)
Definition contactResponse (settings : StepSettings) (st st' : BallState)
    (event : CollisionEvent) : Prop :=
  dot (ev_normal event) (ev_normal event) = 1
  /\ dot (velocity st) (ev_normal event) < 0
  /\ velocity st'
     = scale (reflectVelocity (velocity st) (ev_normal event)) (damping settings)
  /\ exists penetration, 0 < penetration
     /\ position st' = add (position st) (scale (ev_normal event) penetration).

Definition speedSq (st : BallState) : R := dot (velocity st) (velocity st).

(** The law of a bounce off a surface of unit normal [n]: the ball was moving
    against [n], and leaves with its normal speed multiplied by [d]. *)
Definition bounceLaw (d : R) (v v' n : Vec2) : Prop :=
  dot v n < 0 /\ dot v' n = - d * dot v n.

(** The accumulator invariant: no id twice in [events], and [ids] holds the
    id of every recorded event. *)
Definition accumulatorOk (acc : CollisionAccumulator) : Prop :=
  NoDup (ev_id <$> events acc)
  /\ forall i : string, i ∈ (ev_id <$> events acc) -> i ∈ ids acc.

(** The friction step as section 4.2 of the specification words it,
    [velocity *= max(0, 1 - friction*dt)]; the source has no [max]. *)
Definition specFrictionStep (v : Vec2) (fr dt : R) : Vec2 :=
  scale v (Rmax 0 (1 - fr * dt)).

(** A ball in the middle of the arena moving left. *)
Definition c6Ball : BallState :=
  {| position := {| x := 180; y := 320 |}; velocity := {| x := -10; y := 0 |} |}.

(** A ball centre lying on an edge and on a vertex. *)
Definition onEdgeBall : BallState :=
  {| position := {| x := 5; y := 0 |}; velocity := {| x := 0; y := -1 |} |}.

Definition flatEdge : Edge :=
  {| e_from := {| x := 0; y := 0 |}; e_to := {| x := 10; y := 0 |};
     e_normal := {| x := 0; y := -1 |} |}.

(** The triangle of level 1 ([l1-b3] in [levels.ts]). *)
Definition level1Triangle : Bumper :=
  {| b_id := "l1-b3"; b_color := "#E76F51";
     b_position := {| x := 360 - 110; y := 640 / 2 + 70 |};
     b_width := 90; b_height := 90;
     b_rotation := None; b_motion := None;
     b_type := triangle Left |}.

(** The state of scenario 1 after [predict], and the event of its bounce. *)
Definition scenario1Predicted : BallState :=
  {| position := {| x := - (100 / 60); y := 0 |};
     velocity := {| x := - (100 * (1 - 0.18 / 60)); y := 0 |} |}.

Definition wallLeftEvent : CollisionEvent :=
  {| ev_id := "wall-left"; ev_kind := wall;
     ev_normal := {| x := 1; y := 0 |}; ev_point := {| x := 0; y := 0 |} |}.

(** * The object store

    [stepBall] once more, over a store of objects.  A [Vec2] object is a cell
    holding its two coordinates; a [BallState] object is a cell holding the
    references of its [position] and [velocity] objects.  A reference is an
    index in the store and a new object goes to the end of it.  Bumpers,
    settings and events are only read by the step and stay values.  A
    computation returns [None] when it follows a reference to nothing or to
    an object of the wrong kind. *)

Inductive Obj : Type :=
  | VecObj (v : Vec2)
  | StateObj (positionRef velocityRef : nat).

Abbreviation Heap := (list Obj).

Definition M (A : Type) : Type := Heap -> option (A * Heap).

Definition ret {A : Type} (a : A) : M A := fun h => Some (a, h).

Definition bind {A B : Type} (m : M A) (f : A -> M B) : M B :=
  fun h => match m h with
           | Some (a, h') => f a h'
           | None => None
           end.

Notation "'let*' x := m 'in' k" := (bind m (fun x => k))
  (at level 10, x name, m at level 100, k at level 200).
Notation "'do' m 'in' k" := (bind m (fun _ => k))
  (at level 10, m at level 100, k at level 200).

(** [new]: a fresh object. *)
Definition alloc (o : Obj) : M nat :=
  fun h => Some (List.length h, h ++ [o]).

Definition readVec (l : nat) : M Vec2 :=
  fun h => match h !! l with
           | Some (VecObj v) => Some (v, h)
           | _ => None
           end.

(** [state.position] and [state.velocity]: the references held by a state. *)
Definition getPosition (s : nat) : M nat :=
  fun h => match h !! s with
           | Some (StateObj p _) => Some (p, h)
           | _ => None
           end.

Definition getVelocity (s : nat) : M nat :=
  fun h => match h !! s with
           | Some (StateObj _ v) => Some (v, h)
           | _ => None
           end.

Definition writeObj (l : nat) (o : Obj) : M unit :=
  fun h => if decide (l < List.length h)%nat then Some (tt, <[l := o]> h) else None.

(** [v.x = r] and [v.y = r] on the [Vec2] object at [l]. *)
Definition setX (l : nat) (r : R) : M unit :=
  let* v := readVec l in writeObj l (VecObj {| x := r; y := y v |}).

Definition setY (l : nat) (r : R) : M unit :=
  let* v := readVec l in writeObj l (VecObj {| x := x v; y := r |}).

(** [state.position = p] and [state.velocity = v]. *)
Definition setPosition (s p : nat) : M unit :=
  let* v := getVelocity s in writeObj s (StateObj p v).

Definition setVelocity (s v : nat) : M unit :=
  let* p := getPosition s in writeObj s (StateObj p v).

(** Reading [state.position] and [state.velocity] as values. *)
Definition readPosition (s : nat) : M Vec2 :=
  let* p := getPosition s in readVec p.

Definition readVelocity (s : nat) : M Vec2 :=
  let* v := getVelocity s in readVec v.

Definition readBall (s : nat) : M BallState :=
  let* pv := readPosition s in let* vv := readVelocity s in
  ret {| position := pv; velocity := vv |}.

(** [state.position.x = r] and its three siblings: the coordinate of the
    object that the state refers to is overwritten. *)
Definition assignPositionX (s : nat) (r : R) : M unit :=
  let* sp := getPosition s in setX sp r.

Definition assignPositionY (s : nat) (r : R) : M unit :=
  let* sp := getPosition s in setY sp r.

Definition assignVelocityX (s : nat) (r : R) : M unit :=
  let* sv := getVelocity s in setX sv r.

Definition assignVelocityY (s : nat) (r : R) : M unit :=
  let* sv := getVelocity s in setY sv r.

(** [state.position = a] and [state.velocity = a] for a vector [a] just
    built by [add] or [scale]: a new object, and the field redirected. *)
Definition assignPosition (s : nat) (a : Vec2) : M unit :=
  let* np := alloc (VecObj a) in setPosition s np.

Definition assignVelocity (s : nat) (a : Vec2) : M unit :=
  let* nv := alloc (VecObj a) in setVelocity s nv.

(** The left/right pair; [pos] and [vel] are the source's locals
    [position] and [velocity]. *)
Definition resolveWallX_store (s : nat) (settings : StepSettings)
    (accumulator : CollisionAccumulator) (pos vel : nat) : M CollisionAccumulator :=
  let r := ballRadius settings in
  let* p := readVec pos in let* v := readVec vel in
  if (x p - r <? 0) && (x v <? 0) then
    do assignPositionX s r in
    let* cur := readVelocity s in
    do assignVelocityX s (Rabs (x cur) * damping settings) in
    let* p' := readVec pos in
    ret (appendCollision accumulator
           {| ev_id := "wall-left"; ev_kind := wall;
              ev_normal := {| x := 1; y := 0 |};
              ev_point := {| x := 0; y := y p' |} |})
  else if (x p + r >? worldWidth settings) && (x v >? 0) then
    do assignPositionX s (worldWidth settings - r) in
    let* cur := readVelocity s in
    do assignVelocityX s ((- Rabs (x cur)) * damping settings) in
    let* p' := readVec pos in
    ret (appendCollision accumulator
           {| ev_id := "wall-right"; ev_kind := wall;
              ev_normal := {| x := -1; y := 0 |};
              ev_point := {| x := worldWidth settings; y := y p' |} |})
  else ret accumulator.

Definition resolveWallY_store (s : nat) (settings : StepSettings)
    (accumulator : CollisionAccumulator) (pos vel : nat) : M CollisionAccumulator :=
  let r := ballRadius settings in
  let* p := readVec pos in let* v := readVec vel in
  if (y p - r <? 0) && (y v <? 0) then
    do assignPositionY s r in
    let* cur := readVelocity s in
    do assignVelocityY s (Rabs (y cur) * damping settings) in
    let* p' := readVec pos in
    ret (appendCollision accumulator
           {| ev_id := "wall-top"; ev_kind := wall;
              ev_normal := {| x := 0; y := 1 |};
              ev_point := {| x := x p'; y := 0 |} |})
  else if (y p + r >? worldHeight settings) && (y v >? 0) then
    do assignPositionY s (worldHeight settings - r) in
    let* cur := readVelocity s in
    do assignVelocityY s ((- Rabs (y cur)) * damping settings) in
    let* p' := readVec pos in
    ret (appendCollision accumulator
           {| ev_id := "wall-bottom"; ev_kind := wall;
              ev_normal := {| x := 0; y := -1 |};
              ev_point := {| x := x p'; y := worldHeight settings |} |})
  else ret accumulator.

(** [const { position, velocity } = state] binds the two references once;
    the assignments go through [state.position] and [state.velocity]. *)
Definition resolveWallCollisions_store (s : nat) (settings : StepSettings)
    (accumulator : CollisionAccumulator) : M CollisionAccumulator :=
  let* pos := getPosition s in let* vel := getVelocity s in
  let* accumulator := resolveWallX_store s settings accumulator pos vel in
  resolveWallY_store s settings accumulator pos vel.

(** The two loops only read the state until a check matches; the matching
    check builds two new vectors, stores them in the state and breaks. *)
Definition resolveBumperCollision_store (b : ResolvedBumper) (s : nat)
    (accumulator : CollisionAccumulator) (settings : StepSettings)
    : M CollisionAccumulator :=
  let* st := readBall s in
  match bumperHit b st settings with
  | Some (st', event) =>
      do assignPosition s (position st') in
      do assignVelocity s (velocity st') in
      ret (appendCollision accumulator event)
  | None => ret accumulator
  end.

Fixpoint resolveBumperLoop_store (bs : list ResolvedBumper) (s : nat)
    (accumulator : CollisionAccumulator) (settings : StepSettings)
    : M CollisionAccumulator :=
  match bs with
  | [] => ret accumulator
  | b :: rest =>
      let* accumulator := resolveBumperCollision_store b s accumulator settings in
      resolveBumperLoop_store rest s accumulator settings
  end.

(** [stepBall]: returns the reference of [nextState] and the events. *)
Definition stepBall_store (s : nat) (bs : list ResolvedBumper) (dt : R)
    (settings : StepSettings) : M (nat * list CollisionEvent) :=
  let* pv := readPosition s in
  let* vv := readVelocity s in
  let* np := alloc (VecObj (add pv (scale vv dt))) in
  let* vv := readVelocity s in
  let* nv := alloc (VecObj {| x := x vv; y := y vv |}) in
  let* nextState := alloc (StateObj np nv) in
  let* cur := readVelocity nextState in
  do assignVelocity nextState (scale cur (1 - friction settings * dt)) in
  let* cur := readVelocity nextState in
  let speed := length cur in
  do (if speed >? maxSpeed settings then
        let* cur := readVelocity nextState in
        assignVelocity nextState (scale cur (maxSpeed settings / speed))
      else ret tt) in
  let* accumulator := resolveWallCollisions_store nextState settings emptyAccumulator in
  let* accumulator := resolveBumperLoop_store bs nextState accumulator settings in
  ret (nextState, events accumulator).

(** [frame n h h']: the objects below [n] are the same in [h'] as in [h]. *)
Definition frame (n : nat) (h h' : Heap) : Prop :=
  (List.length h <= List.length h')%nat
  /\ forall l : nat, (l < n)%nat -> h' !! l = h !! l.

(** [ownsAt n h s p v st]: the state object [s] refers to the vector objects
    [p] and [v], which hold the position and the velocity of [st]; the three
    objects are at [n] or above, and [p] and [v] are two objects. *)
Definition ownsAt (n : nat) (h : Heap) (s p v : nat) (st : BallState) : Prop :=
  h !! s = Some (StateObj p v)
  /\ h !! p = Some (VecObj (position st))
  /\ h !! v = Some (VecObj (velocity st))
  /\ (n <= s)%nat /\ (n <= p)%nat /\ (n <= v)%nat /\ p <> v.

(** A store with the state of scenario 1: two vectors and, at reference 2,
    the state that refers to them. *)
Definition scenario1Store : Heap :=
  [ VecObj {| x := 0; y := 0 |}; VecObj {| x := -100; y := 0 |}; StateObj 0 1 ].

(** The moving rectangle of level 4 ([l4-b2] in [levels.ts]). *)
Definition level4Rect : Bumper :=
  {| b_id := "l4-b2"; b_color := "#57CC99";
     b_position := {| x := 360 * 0.3; y := 640 * 0.62 |};
     b_width := 90; b_height := 20;
     b_rotation := Some 16;
     b_motion := Some {| axis := AxisX; amplitude := 30; speed := 1.6;
                         phase := Some (PI / 4) |};
     b_type := rect |}.

(** Neither test of the left/right pair of [resolveWallCollisions] holds. *)
Definition settledX (settings : StepSettings) (st : BallState) : Prop :=
  ~ (x (position st) - ballRadius settings < 0 /\ x (velocity st) < 0)
  /\ ~ (x (position st) + ballRadius settings > worldWidth settings
        /\ x (velocity st) > 0).

(** Neither test of the top/bottom pair holds. *)
Definition settledY (settings : StepSettings) (st : BallState) : Prop :=
  ~ (y (position st) - ballRadius settings < 0 /\ y (velocity st) < 0)
  /\ ~ (y (position st) + ballRadius settings > worldHeight settings
        /\ y (velocity st) > 0).

(** The ids of the four wall events. *)
Definition wallIds : list string :=
  [ "wall-left"; "wall-right"; "wall-top"; "wall-bottom" ].

(** Where an event of a step can come from: a wall, or one of the bumpers
    passed to the step. *)
Definition eventFrom (bs : list ResolvedBumper) (ev : CollisionEvent) : Prop :=
  (ev_kind ev = wall /\ In (ev_id ev) wallIds)
  \/ (ev_kind ev = bumper /\ In (ev_id ev) (map rb_id bs)).

(** Scenario 2 of the specification: the square of side 40 centred at
    (100, 100), and a ball above its top edge moving down. *)
Definition squareBumper : ResolvedBumper :=
  {| rb_id := "square"; rb_color := "#F4A261";
     rb_center := {| x := 100; y := 100 |};
     rb_width := 40; rb_height := 40; rb_rotation := 0;
     rb_vertices := [ {| x := 80; y := 80 |}; {| x := 120; y := 80 |};
                      {| x := 120; y := 120 |}; {| x := 80; y := 120 |} ];
     rb_type := rect |}.

Definition fallingBall : BallState :=
  {| position := {| x := 100; y := 70 |}; velocity := {| x := 0; y := 50 |} |}.

(** * The callers of the physics core

    The frame clock ([useAnimationLoop.ts]) and the parts of the game screen
    that feed the physics: the conversion between screen and world
    coordinates, the launch velocity of a drag, and the loop of sub-steps of
    a frame.  The screen's own [length], [normalize], [clamp], [scaleVec] and
    [addVec] are the same functions as those of [physics.ts]. *)

(** [cappedDt] of the frame clock: the time since the last frame in seconds,
    between 0 and 50 ms. *)
Definition cappedDt (dtMs : R) : R := Rmin (Rmax (dtMs / 1000) 0) 0.05.

Definition WORLD_WIDTH : R := 360.
Definition WORLD_HEIGHT : R := 640.

Record LayoutRectangle : Type := mkLayout {
  lr_x : R;
  lr_y : R;
  width : R;
  height : R;
}.

(** [convertToWorld]: [null] while the field has no layout. *)
Definition convertToWorld (fieldLayout : option LayoutRectangle)
    (locationX locationY : R) : option Vec2 :=
  match fieldLayout with
  | None => None
  | Some layout =>
      let relativeX := clamp locationX 0 (width layout) in
      let relativeY := clamp locationY 0 (height layout) in
      Some {| x := clamp ((relativeX / width layout) * WORLD_WIDTH) 0 WORLD_WIDTH;
              y := clamp ((relativeY / height layout) * WORLD_HEIGHT) 0 WORLD_HEIGHT |}
  end.

Definition convertToScreen (fieldLayout : option LayoutRectangle) (point : Vec2)
    : Vec2 :=
  match fieldLayout with
  | None => {| x := 0; y := 0 |}
  | Some layout =>
      {| x := (x point / WORLD_WIDTH) * width layout;
         y := (y point / WORLD_HEIGHT) * height layout |}
  end.

(** The velocity that a drag vector gives, in the preview and on release. *)
Definition dragVelocity (dragVec : Vec2) : Vec2 :=
  let dragLength := length dragVec in
  let maxDrag := 160 in
  let clamped := clamp dragLength 0 maxDrag in
  let strength := (clamped / maxDrag) * 520 in
  scale (normalize dragVec) (- strength).

(** [GameStatus] of [types.ts]. *)
Inductive GameStatus : Type := StatusAim | StatusPlaying | StatusWin | StatusFail.

(** What the release of a drag reads and writes: the refs of the screen and
    the previewed trajectory.  The React state that repeats a ref
    ([setStatus], [setBallVelocity], [setRemainingBounces]) and the haptic
    feedback are left out. *)
Record GameRefs : Type := mkRefs {
  statusRef : GameStatus;
  dragVectorRef : option Vec2;
  ballRef : BallState;
  movingRef : bool;
  idleTimerRef : R;
  bounceCountRef : Z;
  trajectory : list Vec2;
}.

(** [onPanResponderRelease]: nothing happens unless the game is in ['aim'];
    without a touch point or without a drag in progress, and for a drag
    shorter than 6, the drag is dropped and the preview cleared; otherwise the
    ball is launched. *)
Definition onPanResponderRelease (fieldLayout : option LayoutRectangle)
    (locationX locationY : R) (refs : GameRefs) : GameRefs :=
  match statusRef refs with
  | StatusAim =>
      let dropped :=
        {| statusRef := statusRef refs;
           dragVectorRef := None;
           ballRef := ballRef refs;
           movingRef := movingRef refs;
           idleTimerRef := idleTimerRef refs;
           bounceCountRef := bounceCountRef refs;
           trajectory := [] |} in
      match convertToWorld fieldLayout locationX locationY, dragVectorRef refs with
      | Some touch, Some _ =>
          let dragVec :=
            {| x := x touch - x (position (ballRef refs));
               y := y touch - y (position (ballRef refs)) |} in
          let dragLength := length dragVec in
          if dragLength <? 6 then dropped
          else
            let velocity := dragVelocity dragVec in
            {| statusRef := StatusPlaying;
               dragVectorRef := dragVectorRef refs;
               ballRef := {| position := position (ballRef refs);
                             velocity := velocity |};
               movingRef := true;
               idleTimerRef := 0;
               bounceCountRef := 0;
               trajectory := [] |}
      | _, _ => dropped
      end
  | _ => refs
  end.

(** The [while (remaining > 0.00001)] loop of a frame, with [fuel] bounding
    the number of tests of its condition; [None] when the fuel runs out. *)
Fixpoint subStepLoop (fuel : nat) (level : LevelConfig) (settings : StepSettings)
    (ball : BallState) (remaining subStepTime : R)
    (collisionsFrame : list CollisionEvent)
    : option (BallState * list CollisionEvent) :=
  match fuel with
  | O => None
  | S fuel' =>
      if remaining >? 0.00001 then
        let stepDt := Rmin remaining (1 / 240) in
        let subStepTime := subStepTime + stepDt in
        let geometry := resolveBumpers level subStepTime in
        let result := stepBall ball geometry stepDt settings in
        subStepLoop fuel' level settings (state result) (remaining - stepDt)
          subStepTime (collisionsFrame ++ collisions result)
      else Some (ball, collisionsFrame)
  end.

(** A field laid out 270 wide and 480 high. *)
Definition phoneLayout : LayoutRectangle :=
  {| lr_x := 0; lr_y := 0; width := 270; height := 480 |}.

(** A drag in progress on that field: the ball waits at (180, 400). *)
Definition aimingRefs : GameRefs :=
  {| statusRef := StatusAim;
     dragVectorRef := Some {| x := 0; y := -10 |};
     ballRef := {| position := {| x := 180; y := 400 |}; velocity := zeroVec |};
     movingRef := false;
     idleTimerRef := 0;
     bounceCountRef := 0;
     trajectory := [] |}.

(** The same screen once the ball is under way. *)
Definition playingRefs : GameRefs :=
  {| statusRef := StatusPlaying;
     dragVectorRef := Some {| x := 0; y := -10 |};
     ballRef := {| position := {| x := 180; y := 400 |};
                   velocity := {| x := 0; y := -300 |} |};
     movingRef := true;
     idleTimerRef := 0;
     bounceCountRef := 0;
     trajectory := [] |}.

(** The particles of the collision effects. *)
Record Particle : Type := mkParticle {
  pt_id : Z;
  pt_position : Vec2;
  pt_velocity : Vec2;
  life : R;
  pt_color : string;
}.

(** The state update of [spawnCollisionEffects]:
    [[...prev, ...newParticles].slice(-120)]. *)
Definition appendParticles (prev newParticles : list Particle) : list Particle :=
  let next := prev ++ newParticles in
  drop (List.length next - 120) next.

(** The particles after [spawnCollisionEffects], [newParticles] being the
    bursts it created for the events (none without events; their velocities
    and lives are random): the state is updated only
    [if (newParticles.length)]. *)
Definition spawnCollisionEffects (newParticles prev : list Particle)
    : list Particle :=
  match newParticles with
  | [] => prev
  | _ :: _ => appendParticles prev newParticles
  end.

(** The state update of [updateParticles]. *)
Definition ageParticles (dt : R) (prev : list Particle) : list Particle :=
  List.filter (fun particle => life particle >? 0)
    (map (fun particle =>
            {| pt_id := pt_id particle;
               pt_position := add (pt_position particle)
                                  (scale (pt_velocity particle) dt);
               pt_velocity := scale (pt_velocity particle) 0.9;
               life := life particle - dt;
               pt_color := pt_color particle |})
         prev).

(** [updateParticles]: [particles] is the rendered list the callback was made
    for; [if (!particles.length)] it returns without an update, otherwise the
    update is applied to the state [prev] that React holds by then. *)
Definition updateParticles (particles : list Particle) (dt : R)
    (prev : list Particle) : list Particle :=
  match particles with
  | [] => prev
  | _ :: _ => ageParticles dt prev
  end.

(** A spark with half a second to live. *)
Definition spark : Particle :=
  {| pt_id := 1; pt_position := {| x := 10; y := 20 |};
     pt_velocity := {| x := 100; y := 0 |}; life := 0.5; pt_color := "#FFFFFF" |}.

(** * Skins and the progress store

    [skins.ts] and the state transitions of the store ([GameStore]): each
    callback of the store hands React a function from the previous state to
    the next one, and that function is what is modelled.  [Math.floor] is the
    integer part of a real. *)

Definition Rleb (a b : R) : bool := negb (b <? a).
Infix "<=?" := Rleb : R_scope.

Definition floor (r : R) : R := IZR (Int_part r).

Inductive SkinId : Type := classic | sunset | neon | midnight | candy.

Global Instance SkinId_eq_dec : EqDecision SkinId.
Proof. solve_decision. Defined.

Record SkinDefinition : Type := mkSkin {
  sk_id : SkinId;
  sk_name : string;
  cost : R;
  ballColor : string;
  trailColor : string;
  glowColor : string;
  accentColor : string;
  description : string;
}.

Definition classicSkin : SkinDefinition :=
  {| sk_id := classic; sk_name := "Classic Glow"; cost := 0;
     ballColor := "#F8F9FA"; trailColor := "rgba(255,255,255,0.6)";
     glowColor := "rgba(255,255,255,0.35)"; accentColor := "#FFFFFF";
     description := "A timeless glow that feels right at home in any arena." |}.

Definition SKINS : list SkinDefinition :=
  [ classicSkin;
    {| sk_id := sunset; sk_name := "Sunset Ember"; cost := 350;
       ballColor := "#FF7A5C"; trailColor := "rgba(255,196,99,0.6)";
       glowColor := "rgba(255,122,92,0.35)"; accentColor := "#FFC463";
       description := "Warm oranges and golds inspired by dusk over neon cityscapes." |};
    {| sk_id := neon; sk_name := "Neon Pulse"; cost := 500;
       ballColor := "#5CF4FF"; trailColor := "rgba(92,244,255,0.6)";
       glowColor := "rgba(92,244,255,0.35)"; accentColor := "#12B5EA";
       description := "High-voltage cyan that leaves a pulsing light trail behind." |};
    {| sk_id := midnight; sk_name := "Midnight Nova"; cost := 700;
       ballColor := "#7B5CFF"; trailColor := "rgba(195,152,255,0.6)";
       glowColor := "rgba(123,92,255,0.4)"; accentColor := "#C398FF";
       description := "A cosmic mix of ultraviolet hues for late-night runs." |};
    {| sk_id := candy; sk_name := "Candy Burst"; cost := 450;
       ballColor := "#FF64C8"; trailColor := "rgba(255,137,235,0.55)";
       glowColor := "rgba(255,100,200,0.35)"; accentColor := "#FF89EB";
       description := "Playful pinks and violets that pop against any background." |} ].

Definition DEFAULT_SKIN_ID : SkinId := classic.

(** [SKINS.find(...) ?? SKINS[0]]. *)
Definition getSkinDefinition (skinId : SkinId) : SkinDefinition :=
  match List.find (fun entry => bool_decide (sk_id entry = skinId)) SKINS with
  | Some skin => skin
  | None => nth 0 SKINS classicSkin
  end.

Record GameState : Type := mkGameState {
  coins : R;
  highestUnlockedLevel : R;
  totalWins : R;
  ownedSkins : list SkinId;
  selectedSkin : SkinId;
  lastPlayedLevel : R;
}.

Definition defaultState : GameState :=
  {| coins := 0; highestUnlockedLevel := 0; totalWins := 0;
     ownedSkins := [DEFAULT_SKIN_ID]; selectedSkin := DEFAULT_SKIN_ID;
     lastPlayedLevel := 0 |}.

(** [Partial<GameState>]: what is read back from the storage, every field
    possibly absent. *)
Record PartialGameState : Type := mkPartial {
  raw_coins : option R;
  raw_highestUnlockedLevel : option R;
  raw_totalWins : option R;
  raw_ownedSkins : option (list SkinId);
  raw_selectedSkin : option SkinId;
  raw_lastPlayedLevel : option R;
}.

Definition includes (l : list SkinId) (s : SkinId) : bool := bool_decide (s ∈ l).

(** [Array.from(new Set(l))]: the first occurrence of each element, in
    order; [seen] is the set built so far. *)
Fixpoint dedupe (seen l : list SkinId) : list SkinId :=
  match l with
  | [] => []
  | s :: rest =>
      if includes seen s then dedupe seen rest
      else s :: dedupe (s :: seen) rest
  end.

(** [sanitizeState].  On a list of skin ids [filter(Boolean)] keeps every
    element, the ids being non-empty strings. *)
Definition sanitizeState (raw : PartialGameState) : GameState :=
  let ownedSkins :=
    match raw_ownedSkins raw with
    | Some l => l
    | None => [DEFAULT_SKIN_ID]
    end in
  let ownedSkins :=
    if negb (includes ownedSkins DEFAULT_SKIN_ID)
    then DEFAULT_SKIN_ID :: ownedSkins else ownedSkins in
  let selected :=
    match raw_selectedSkin raw with
    | Some s => if includes ownedSkins s then s else DEFAULT_SKIN_ID
    | None => DEFAULT_SKIN_ID
    end in
  {| coins := Rmax 0 (default (coins defaultState) (raw_coins raw));
     highestUnlockedLevel :=
       Rmax (highestUnlockedLevel defaultState)
            (default (highestUnlockedLevel defaultState)
                     (raw_highestUnlockedLevel raw));
     totalWins := Rmax 0 (default (totalWins defaultState) (raw_totalWins raw));
     lastPlayedLevel :=
       Rmax 0 (default (lastPlayedLevel defaultState) (raw_lastPlayedLevel raw));
     ownedSkins := dedupe [] ownedSkins;
     selectedSkin := selected |}.

(** What [JSON.stringify] of a state reads back as: every field present. *)
Definition stored (st : GameState) : PartialGameState :=
  {| raw_coins := Some (coins st);
     raw_highestUnlockedLevel := Some (highestUnlockedLevel st);
     raw_totalWins := Some (totalWins st);
     raw_ownedSkins := Some (ownedSkins st);
     raw_selectedSkin := Some (selectedSkin st);
     raw_lastPlayedLevel := Some (lastPlayedLevel st) |}.

Definition addCoins (amount : R) (prev : GameState) : GameState :=
  if amount <=? 0 then prev
  else {| coins := coins prev + floor amount;
          highestUnlockedLevel := highestUnlockedLevel prev;
          totalWins := totalWins prev;
          ownedSkins := ownedSkins prev;
          selectedSkin := selectedSkin prev;
          lastPlayedLevel := lastPlayedLevel prev |}.

Definition unlockLevel (levelIndex : R) (prev : GameState) : GameState :=
  if levelIndex <=? highestUnlockedLevel prev then prev
  else {| coins := coins prev;
          highestUnlockedLevel := levelIndex;
          totalWins := totalWins prev;
          ownedSkins := ownedSkins prev;
          selectedSkin := selectedSkin prev;
          lastPlayedLevel := lastPlayedLevel prev |}.

Definition recordWin (rewardCoins nextLevelIndex : R) (prev : GameState)
    : GameState :=
  let payout := Rmax 0 (floor rewardCoins) in
  let updatedHighest := Rmax (highestUnlockedLevel prev) nextLevelIndex in
  {| coins := coins prev + payout;
     highestUnlockedLevel := updatedHighest;
     totalWins := totalWins prev + 1;
     ownedSkins := ownedSkins prev;
     selectedSkin := selectedSkin prev;
     lastPlayedLevel := Rmax 0 nextLevelIndex |}.

(** [purchaseSkin]: the next state and the value given to [purchased]. *)
Definition purchaseSkin (skinId : SkinId) (price : R) (prev : GameState)
    : GameState * bool :=
  if includes (ownedSkins prev) skinId then (prev, true)
  else if price >? coins prev then (prev, false)
  else ({| coins := coins prev - price;
           highestUnlockedLevel := highestUnlockedLevel prev;
           totalWins := totalWins prev;
           ownedSkins := ownedSkins prev ++ [skinId];
           selectedSkin := selectedSkin prev;
           lastPlayedLevel := lastPlayedLevel prev |}, true).

Definition selectSkin (skinId : SkinId) (prev : GameState) : GameState :=
  if negb (includes (ownedSkins prev) skinId)
     || bool_decide (selectedSkin prev = skinId)
  then prev
  else {| coins := coins prev;
          highestUnlockedLevel := highestUnlockedLevel prev;
          totalWins := totalWins prev;
          ownedSkins := ownedSkins prev;
          selectedSkin := skinId;
          lastPlayedLevel := lastPlayedLevel prev |}.

Definition setLastPlayedLevel (levelIndex : R) (prev : GameState) : GameState :=
  {| coins := coins prev;
     highestUnlockedLevel := highestUnlockedLevel prev;
     totalWins := totalWins prev;
     ownedSkins := ownedSkins prev;
     selectedSkin := selectedSkin prev;
     lastPlayedLevel := Rmax 0 levelIndex |}.

(** [resetProgress]: [setState(defaultState)]; the screen it also switches
    to is not part of the game state. *)
Definition resetProgress (prev : GameState) : GameState := defaultState.

(** The state the store is meant to hold: no negative counter, the default
    skin owned, the selected skin owned, no skin owned twice. *)
Definition wellFormed (st : GameState) : Prop :=
  0 <= coins st /\ 0 <= highestUnlockedLevel st /\ 0 <= totalWins st
  /\ 0 <= lastPlayedLevel st
  /\ DEFAULT_SKIN_ID ∈ ownedSkins st
  /\ selectedSkin st ∈ ownedSkins st
  /\ NoDup (ownedSkins st).

(** A player with 400 coins. *)
Definition richState : GameState :=
  {| coins := 400; highestUnlockedLevel := 2; totalWins := 3;
     ownedSkins := [classic]; selectedSkin := classic; lastPlayedLevel := 2 |}.

(** A player who has bought a second skin. *)
Definition veteranState : GameState :=
  {| coins := 50; highestUnlockedLevel := 4; totalWins := 7;
     ownedSkins := [classic; sunset]; selectedSkin := sunset;
     lastPlayedLevel := 3 |}.

(** * Properties *)

(** ** Comparisons *)

Lemma Rltb_true (a b : R) : (a <? b) = true <-> a < b.
Proof. unfold Rltb. destruct (Rlt_dec a b); split; intros; try done. Qed.

Lemma Rltb_false (a b : R) : (a <? b) = false <-> b <= a.
Proof.
  unfold Rltb. destruct (Rlt_dec a b); split; intros; try done; lra.
Qed.

Lemma Rgtb_true (a b : R) : (a >? b) = true <-> b < a.
Proof. apply Rltb_true. Qed.

Lemma Rgtb_false (a b : R) : (a >? b) = false <-> a <= b.
Proof. apply Rltb_false. Qed.

Lemma Reqb_true (a b : R) : (a =? b) = true <-> a = b.
Proof. unfold Reqb. destruct (Req_dec_T a b); split; intros; done. Qed.

Lemma Reqb_false (a b : R) : (a =? b) = false <-> a <> b.
Proof. unfold Reqb. destruct (Req_dec_T a b); split; intros; done. Qed.

(** Case analysis on every comparison of the goal, keeping the facts. *)
Ltac cmp_cases :=
  repeat match goal with
    | |- context [ Rltb ?a ?b ] =>
        let H := fresh "Hcmp" in
        destruct (Rltb a b) eqn:H;
        [ apply Rltb_true in H | apply Rltb_false in H ]
    | |- context [ Rgtb ?a ?b ] =>
        let H := fresh "Hcmp" in
        destruct (Rgtb a b) eqn:H;
        [ apply Rgtb_true in H | apply Rgtb_false in H ]
    | |- context [ Reqb ?a ?b ] =>
        let H := fresh "Hcmp" in
        destruct (Reqb a b) eqn:H;
        [ apply Reqb_true in H | apply Reqb_false in H ]
    end.

(** Evaluation of the comparisons between closed arithmetic terms. *)
Ltac cmp_eval :=
  repeat match goal with
    | |- context [ Rltb ?a ?b ] =>
        first [ rewrite (proj2 (Rltb_true a b)) by lra
              | rewrite (proj2 (Rltb_false a b)) by lra ]
    | |- context [ Rgtb ?a ?b ] =>
        first [ rewrite (proj2 (Rgtb_true a b)) by lra
              | rewrite (proj2 (Rgtb_false a b)) by lra ]
    | |- context [ Reqb ?a ?b ] =>
        first [ rewrite (proj2 (Reqb_true a b)) by lra
              | rewrite (proj2 (Reqb_false a b)) by lra ]
    end.

(** ** Vectors *)

Lemma vec_eq (a b : Vec2) : x a = x b -> y a = y b -> a = b.
Proof. destruct a, b; simpl; intros -> ->; reflexivity. Qed.

Lemma length_nonneg (a : Vec2) : 0 <= length a.
Proof. apply sqrt_pos. Qed.

Lemma length_sqr (a : Vec2) : length a * length a = dot a a.
Proof. unfold length, dot. apply sqrt_sqrt. nra. Qed.

Lemma length_zero_iff (a : Vec2) : length a = 0 <-> a = zeroVec.
Proof.
  split.
  - intros H. pose proof (length_sqr a) as Hs. rewrite H in Hs.
    unfold dot in Hs. apply vec_eq; simpl; nra.
  - intros ->. unfold length, zeroVec; simpl.
    replace (0 * 0 + 0 * 0) with 0 by lra. apply sqrt_0.
Qed.

Lemma length_scale (a : Vec2) (s : R) : length (scale a s) = Rabs s * length a.
Proof.
  unfold length, scale; simpl.
  replace (x a * s * (x a * s) + y a * s * (y a * s))
    with (Rsqr s * (x a * x a + y a * y a)) by (unfold Rsqr; ring).
  rewrite sqrt_mult; [ | apply Rle_0_sqr | nra ].
  rewrite sqrt_Rsqr_abs. reflexivity.
Qed.

(** Comparing lengths through their squares. *)
Lemma length_le_of_sqr (a : Vec2) (m : R) :
  0 <= m -> dot a a <= m * m -> length a <= m.
Proof.
  intros Hm H. rewrite <- length_sqr in H.
  pose proof (length_nonneg a). nra.
Qed.

Lemma sqr_le_of_length (a : Vec2) (m : R) : length a <= m -> dot a a <= m * m.
Proof.
  intros H. rewrite <- length_sqr. pose proof (length_nonneg a). nra.
Qed.

Lemma normalize_unit (a : Vec2) :
  length a <> 0 -> dot (normalize a) (normalize a) = 1.
Proof.
  intros Hn. unfold normalize. cmp_cases; [ done | ].
  unfold dot; simpl. pose proof (length_sqr a) as Hs. unfold dot in Hs.
  replace (x a / length a * (x a / length a) + y a / length a * (y a / length a))
    with ((x a * x a + y a * y a) / (length a * length a)) by (field; done).
  rewrite Hs. field. nra.
Qed.

Lemma dot_normalize_r (v a : Vec2) :
  length a <> 0 -> dot v (normalize a) = dot v a * / length a.
Proof.
  intros Hn. unfold normalize. cmp_cases; [ done | ].
  unfold dot; simpl. field. done.
Qed.

Lemma reflect_dot_normal (v n : Vec2) :
  dot n n = 1 -> dot (reflectVelocity v n) n = - dot v n.
Proof.
  unfold reflectVelocity, dot, sub, scale; simpl. intros H.
  set (d := x v * x n + y v * y n).
  replace ((x v - x n * (2 * d)) * x n + (y v - y n * (2 * d)) * y n)
    with (d - 2 * d * (x n * x n + y n * y n)) by (unfold d; ring).
  rewrite H. ring.
Qed.

Lemma reflect_preserves_sqr (v n : Vec2) :
  dot n n = 1 -> dot (reflectVelocity v n) (reflectVelocity v n) = dot v v.
Proof.
  unfold reflectVelocity, dot, sub, scale; simpl. intros H.
  set (d := x v * x n + y v * y n).
  replace ((x v - x n * (2 * d)) * (x v - x n * (2 * d)) +
           (y v - y n * (2 * d)) * (y v - y n * (2 * d)))
    with (x v * x v + y v * y v - 4 * d * (x v * x n + y v * y n)
          + 4 * d * d * (x n * x n + y n * y n)) by ring.
  rewrite H. fold d. ring.
Qed.

(** ** Walls: a ball inside the arena is left alone *)

Lemma resolveWallCollisions_inside (st : BallState) (settings : StepSettings)
    (acc : CollisionAccumulator) :
  inArena settings (position st) ->
  resolveWallCollisions st settings acc = (st, acc).
Proof.
  intros [Hx Hy]. unfold resolveWallCollisions, resolveWallX, resolveWallY.
  cmp_cases; simpl; try lra; cmp_cases; simpl; try lra; reflexivity.
Qed.

Lemma predict_position (st : BallState) (dt : R) (settings : StepSettings) :
  position (predict st dt settings) = add (position st) (scale (velocity st) dt).
Proof. unfold predict, capSpeed, applyFriction, advance; simpl. cmp_cases; reflexivity. Qed.

Lemma stepBall_free_flight (st : BallState) (dt : R) (settings : StepSettings) :
  inArena settings (add (position st) (scale (velocity st) dt)) ->
  stepBall st [] dt settings = {| state := predict st dt settings; collisions := [] |}.
Proof.
  intros H. unfold stepBall.
  rewrite resolveWallCollisions_inside by (rewrite predict_position; exact H).
  reflexivity.
Qed.

(** ** Trajectory simulator: the collision cap *)

Lemma simulateLoop_cap_reached (level : LevelConfig) (dt : R) (maxCollisions : Z)
    (settings : StepSettings) (n : nat) (st : BallState) (time : R) (count : Z)
    (points : list Vec2) :
  (maxCollisions <= count)%Z ->
  simulateLoop level dt maxCollisions settings (S n) st time count points
  = points ++ [position (state (stepBall st (resolveBumpers level time) dt settings))].
Proof.
  intros H. cbn [simulateLoop]. cbv zeta.
  set (len := Z.of_nat (List.length (collisions
                (stepBall st (resolveBumpers level time) dt settings)))).
  assert (0 <= len)%Z by (unfold len; lia).
  destruct (len >? 0)%Z.
  - destruct (count + len >=? maxCollisions)%Z eqn:E; [ reflexivity | lia ].
  - destruct (count >=? maxCollisions)%Z eqn:E; [ reflexivity | lia ].
Qed.

Lemma restBall_free_flight :
  inArena getPhysicsSettings
    (add (position restBall) (scale (velocity restBall) (1 / 60))).
Proof. unfold inArena; simpl. lra. Qed.

(** C1, as stated, fails: with [maxCollisions = 0] and a budget of two steps,
    the first step of a ball at rest in an empty arena produces no
    collision, yet the loop stops after it: the list has one point, not
    two. *)
Lemma simulateTrajectory_cap0_not_full_budget :
  collisions (stepBall restBall (resolveBumpers emptyLevel 0) (1 / 60)
                getPhysicsSettings) = []
  /\ List.length (simulateTrajectory restBall emptyLevel 0 (1 / 60) 2 0
                    getPhysicsSettings) = 1%nat
  /\ List.length (simulateTrajectory restBall emptyLevel 0 (1 / 60) 2 0
                    getPhysicsSettings) <> 2%nat.
Proof.
  assert (Hlen : List.length (simulateTrajectory restBall emptyLevel 0 (1 / 60) 2 0
                    getPhysicsSettings) = 1%nat).
  { unfold simulateTrajectory.
    rewrite simulateLoop_cap_reached by lia. reflexivity. }
  split; [ | split ].
  - change (resolveBumpers emptyLevel 0) with (@nil ResolvedBumper).
    rewrite stepBall_free_flight by exact restBall_free_flight. reflexivity.
  - exact Hlen.
  - rewrite Hlen. lia.
Qed.

(** C1, amended: with [maxCollisions = 0] and at least one step, the cap test
    [collisions >= maxCollisions] holds at the end of the first iteration
    whatever that step produced, so the result is the single point reached
    by the first step. *)
Theorem simulateTrajectory_cap0_single_point (start : BallState)
    (level : LevelConfig) (initialTime dt : R) (n : nat) (settings : StepSettings) :
  simulateTrajectory start level initialTime dt (S n) 0 settings
  = [position (state (stepBall start (resolveBumpers level initialTime) dt settings))]
  /\ List.length (simulateTrajectory start level initialTime dt (S n) 0 settings) = 1%nat.
Proof.
  assert (E : simulateTrajectory start level initialTime dt (S n) 0 settings
    = [position (state (stepBall start (resolveBumpers level initialTime) dt settings))]).
  { unfold simulateTrajectory. rewrite simulateLoop_cap_reached by lia.
    destruct start; reflexivity. }
  split; [ exact E | rewrite E; reflexivity ].
Qed.

(** ** Scenario 1: a bounce off the left wall *)

Lemma length_horizontal (a : R) : length {| x := a; y := 0 |} = Rabs a.
Proof.
  unfold length; simpl. replace (a * a + 0 * 0) with (Rsqr a) by (unfold Rsqr; ring).
  apply sqrt_Rsqr_abs.
Qed.

Lemma scenario1_predict (cap : R) :
  100 * (1 - 0.18 / 60) <= cap ->
  predict scenario1Ball (1 / 60) (scenario1Settings cap)
  = {| position := {| x := - (100 / 60); y := 0 |};
       velocity := {| x := - (100 * (1 - 0.18 / 60)); y := 0 |} |}.
Proof.
  intros Hcap. unfold predict, capSpeed, applyFriction, advance, scenario1Ball, scenario1Settings.
  cbn [position velocity friction maxSpeed].
  replace (scale {| x := -100; y := 0 |} (1 - 0.18 * (1 / 60)))
    with {| x := - (100 * (1 - 0.18 / 60)); y := 0 |}
    by (apply vec_eq; simpl; lra).
  rewrite length_horizontal.
  rewrite Rabs_left by lra.
  cmp_cases; [ lra | ].
  f_equal. apply vec_eq; simpl; lra.
Qed.

(** C2: scenario 1.  A ball at (0,0) moving at (-100,0) in the 360 x 640
    arena, radius 14, damping 0.88, friction 0.18, no bumper, a speed cap
    that the ball does not reach (the game's is 900): after one [stepBall]
    with [dt = 1/60] the ball sits at [x = 14] and its horizontal velocity is
    [100 * (1 - 0.18/60) * 0.88], a positive number. *)
Theorem stepBall_scenario1 (cap : R) :
  100 * (1 - 0.18 / 60) <= cap ->
  let result := stepBall scenario1Ball [] (1 / 60) (scenario1Settings cap) in
  x (position (state result)) = 14
  /\ x (velocity (state result)) = 100 * (1 - 0.18 / 60) * 0.88
  /\ 0 < x (velocity (state result))
  /\ map ev_id (collisions result) = ["wall-left"].
Proof.
  intros Hcap result. subst result. unfold stepBall.
  rewrite scenario1_predict by exact Hcap.
  unfold resolveWallCollisions, resolveWallX.
  cbn [position velocity x y ballRadius worldWidth scenario1Settings damping].
  cmp_eval. cbn [andb].
  cbv [setPositionX setVelocityX]. cbn [position velocity x y].
  unfold resolveWallY.
  cbn [position velocity x y ballRadius worldHeight scenario1Settings damping].
  cmp_eval. cbn [andb].
  cbn [resolveBumperLoop fold_left fst snd state collisions position velocity x y].
  rewrite Rabs_left by lra.
  repeat split; try lra; reflexivity.
Qed.

Lemma stepBall_scenario1_witness :
  100 * (1 - 0.18 / 60) <= 900
  /\ x (position (state (stepBall scenario1Ball [] (1 / 60) getPhysicsSettings))) = 14.
Proof.
  split; [ lra | ].
  apply (stepBall_scenario1 900). lra.
Defined.

(** ** Wall containment *)

(** After friction and the speed cap the velocity is a positive multiple of
    the incoming one, provided [friction * dt < 1] and [maxSpeed > 0]. *)
Lemma predict_velocity_multiple (st : BallState) (dt : R) (settings : StepSettings) :
  friction settings * dt < 1 -> 0 < maxSpeed settings ->
  exists m, 0 < m /\ velocity (predict st dt settings) = scale (velocity st) m.
Proof.
  intros Hf Hm. unfold predict, capSpeed, applyFriction, advance. cbn [position velocity].
  set (v1 := scale (velocity st) (1 - friction settings * dt)).
  cmp_cases.
  - exists ((1 - friction settings * dt) * (maxSpeed settings / length v1)).
    split.
    + apply Rmult_lt_0_compat; [ lra | ].
      apply Rdiv_lt_0_compat; lra.
    + cbn [velocity]. unfold v1. apply vec_eq; simpl; ring.
  - exists (1 - friction settings * dt). split; [ lra | reflexivity ].
Qed.

Lemma resolveWallX_keeps_y (st : BallState) (settings : StepSettings)
    (acc : CollisionAccumulator) :
  y (position (fst (resolveWallX st settings acc))) = y (position st)
  /\ y (velocity (fst (resolveWallX st settings acc))) = y (velocity st).
Proof. unfold resolveWallX. cmp_cases; simpl; split; reflexivity. Qed.

Lemma resolveWallY_keeps_x (st : BallState) (settings : StepSettings)
    (acc : CollisionAccumulator) :
  x (position (fst (resolveWallY st settings acc))) = x (position st)
  /\ x (velocity (fst (resolveWallY st settings acc))) = x (velocity st).
Proof. unfold resolveWallY. cmp_cases; simpl; split; reflexivity. Qed.

Lemma resolveWallX_contains (st : BallState) (settings : StepSettings)
    (acc : CollisionAccumulator) (x0 vx0 dt m : R) :
  ballRadius settings <= x0 <= worldWidth settings - ballRadius settings ->
  0 < dt -> 0 < m ->
  x (position st) = x0 + vx0 * dt ->
  x (velocity st) = vx0 * m ->
  ballRadius settings <= x (position (fst (resolveWallX st settings acc)))
    <= worldWidth settings - ballRadius settings.
Proof.
  intros Hx Hdt Hm Hp Hv. unfold resolveWallX.
  assert (Hneg : vx0 * dt < 0 -> vx0 * m < 0) by nra.
  assert (Hpos : 0 < vx0 * dt -> 0 < vx0 * m) by nra.
  cmp_cases; cbn [andb fst position x setPositionX setVelocityX]; lra.
Qed.

Lemma resolveWallY_contains (st : BallState) (settings : StepSettings)
    (acc : CollisionAccumulator) (y0 vy0 dt m : R) :
  ballRadius settings <= y0 <= worldHeight settings - ballRadius settings ->
  0 < dt -> 0 < m ->
  y (position st) = y0 + vy0 * dt ->
  y (velocity st) = vy0 * m ->
  ballRadius settings <= y (position (fst (resolveWallY st settings acc)))
    <= worldHeight settings - ballRadius settings.
Proof.
  intros Hy Hdt Hm Hp Hv. unfold resolveWallY.
  assert (Hneg : vy0 * dt < 0 -> vy0 * m < 0) by nra.
  assert (Hpos : 0 < vy0 * dt -> 0 < vy0 * m) by nra.
  cmp_cases; cbn [andb fst position y setPositionY setVelocityY]; lra.
Qed.

Lemma stepBall_no_bumpers (st : BallState) (dt : R) (settings : StepSettings) :
  state (stepBall st [] dt settings)
  = fst (resolveWallCollisions (predict st dt settings) settings emptyAccumulator).
Proof. reflexivity. Qed.

Lemma stepBall_stays_inArena (st : BallState) (dt : R) (settings : StepSettings) :
  0 < dt -> friction settings * dt < 1 -> 0 < maxSpeed settings ->
  inArena settings (position st) ->
  inArena settings (position (state (stepBall st [] dt settings))).
Proof.
  intros Hdt Hf Hm [Hx Hy].
  destruct (predict_velocity_multiple st dt settings Hf Hm) as (m & Hm0 & Hv).
  pose proof (predict_position st dt settings) as Hp.
  rewrite stepBall_no_bumpers. unfold resolveWallCollisions.
  destruct (resolveWallX (predict st dt settings) settings emptyAccumulator)
    as [s1 a1] eqn:E1.
  pose proof (resolveWallX_keeps_y (predict st dt settings) settings emptyAccumulator)
    as [Hky Hkvy].
  pose proof (resolveWallX_contains (predict st dt settings) settings emptyAccumulator
                (x (position st)) (x (velocity st)) dt m Hx Hdt Hm0) as Hcx.
  rewrite E1 in Hky, Hkvy, Hcx. cbn [fst] in Hky, Hkvy, Hcx.
  split.
  - destruct (resolveWallY_keeps_x s1 settings a1) as [-> _].
    apply Hcx; [ rewrite Hp | rewrite Hv ]; reflexivity.
  - apply (resolveWallY_contains s1 settings a1 (y (position st)) (y (velocity st)) dt m);
      try assumption.
    + rewrite Hky, Hp. reflexivity.
    + rewrite Hkvy, Hv. reflexivity.
Qed.

Lemma c3_predict :
  predict c3Ball 6 getPhysicsSettings
  = {| position := {| x := -46; y := 100 |}; velocity := {| x := 0.8; y := 0 |} |}.
Proof.
  unfold predict, capSpeed, applyFriction, advance, c3Ball, getPhysicsSettings.
  cbn [position velocity friction maxSpeed].
  replace (scale {| x := -10; y := 0 |} (1 - 0.18 * 6))
    with {| x := 0.8; y := 0 |} by (apply vec_eq; simpl; lra).
  rewrite length_horizontal. rewrite Rabs_right by lra.
  cmp_eval. f_equal. apply vec_eq; simpl; lra.
Qed.

(** C3, as stated, fails: with the game's settings and [dt = 6] the friction
    factor [1 - 0.18 * 6] is negative, the velocity of a ball leaving through
    the left wall is turned to the right before the wall test, the test
    [velocity.x < 0] fails and the ball is left at [x = -46]. *)
Lemma stepBall_escapes_arena :
  inArena getPhysicsSettings (position c3Ball)
  /\ velocity c3Ball <> zeroVec
  /\ 0 < 6
  /\ position (state (stepBall c3Ball [] 6 getPhysicsSettings))
     = {| x := -46; y := 100 |}
  /\ ~ inArena getPhysicsSettings
         (position (state (stepBall c3Ball [] 6 getPhysicsSettings))).
Proof.
  assert (E : position (state (stepBall c3Ball [] 6 getPhysicsSettings))
              = {| x := -46; y := 100 |}).
  { rewrite stepBall_no_bumpers, c3_predict.
    unfold resolveWallCollisions, resolveWallX.
    cbn [position velocity x y ballRadius worldWidth getPhysicsSettings damping].
    cmp_eval. cbn [andb].
    unfold resolveWallY.
    cbn [position velocity x y ballRadius worldHeight getPhysicsSettings damping].
    cmp_eval. reflexivity. }
  repeat split.
  - simpl; lra.
  - simpl; lra.
  - simpl; lra.
  - simpl; lra.
  - intros H. inversion H. lra.
  - lra.
  - exact E.
  - rewrite E. intros [[H _] _]. simpl in H. lra.
Qed.

(** C3, amended: in an arena without bumpers, when every step has [dt > 0]
    and [friction * dt < 1] and the speed cap is positive, a ball whose
    centre starts in
    [[ballRadius, worldWidth - ballRadius] x [ballRadius, worldHeight - ballRadius]]
    has its centre there after each step of the sequence. *)
Theorem stepBall_wall_containment (st : BallState) (dts : list R)
    (settings : StepSettings) :
  0 < maxSpeed settings ->
  inArena settings (position st) ->
  Forall (fun dt => 0 < dt /\ friction settings * dt < 1) dts ->
  Forall (fun s => inArena settings (position s)) (runSteps st dts settings).
Proof.
  intros Hm Hin Hdts. revert st Hin.
  induction Hdts as [ | dt rest [Hdt Hf] _ IH ]; intros st Hin.
  - constructor.
  - cbn [runSteps].
    assert (Hnext : inArena settings (position (state (stepBall st [] dt settings))))
      by (apply stepBall_stays_inArena; assumption).
    constructor; [ exact Hnext | apply IH; exact Hnext ].
Qed.

Lemma stepBall_wall_containment_witness :
  Forall (fun s => inArena getPhysicsSettings (position s))
    (runSteps c3Ball [1 / 240; 1 / 240] getPhysicsSettings).
Proof.
  apply stepBall_wall_containment.
  - simpl; lra.
  - unfold inArena; simpl; lra.
  - repeat constructor; simpl; lra.
Defined.

(** ** What a contact with a bumper does *)

Lemma edgeLoop_Some (id : string) (st : BallState) (settings : StepSettings)
    (edges : list Edge) (hit : BallState * CollisionEvent) :
  edgeLoop id st settings edges = Some hit ->
  exists edge, In edge edges /\ edgeCheck id st settings edge = Some hit.
Proof.
  induction edges as [ | edge rest IH ]; cbn [edgeLoop]; intros H; [ done | ].
  destruct (edgeCheck id st settings edge) as [ h | ] eqn:E.
  - exists edge. split; [ left; reflexivity | congruence ].
  - destruct (IH H) as (e & Hin & He). exists e. split; [ right | ]; assumption.
Qed.

Lemma vertexLoop_Some (id : string) (st : BallState) (settings : StepSettings)
    (vertices : list Vec2) (hit : BallState * CollisionEvent) :
  vertexLoop id st settings vertices = Some hit ->
  exists vertex, In vertex vertices /\ vertexCheck id st settings vertex = Some hit.
Proof.
  induction vertices as [ | vertex rest IH ]; cbn [vertexLoop]; intros H; [ done | ].
  destruct (vertexCheck id st settings vertex) as [ h | ] eqn:E.
  - exists vertex. split; [ left; reflexivity | congruence ].
  - destruct (IH H) as (e & Hin & He). exists e. split; [ right | ]; assumption.
Qed.

Lemma edgeCheck_response (id : string) (st : BallState) (settings : StepSettings)
    (edge : Edge) (st' : BallState) (event : CollisionEvent) :
  edgeCheck id st settings edge = Some (st', event) ->
  ev_id event = id /\ ev_kind event = bumper /\ contactResponse settings st st' event.
Proof.
  unfold edgeCheck.
  set (diff := sub (position st) (closestPointOnSegment (position st) edge)).
  cmp_cases; cbn [andb]; intros H; try discriminate.
  injection H as <- <-. cbn [ev_id ev_kind]. repeat split.
  - cbn [ev_normal]. apply normalize_unit. assumption.
  - assumption.
  - exists (ballRadius settings - length diff). split; [ lra | reflexivity ].
Qed.

Lemma vertexCheck_response (id : string) (st : BallState) (settings : StepSettings)
    (vertex : Vec2) (st' : BallState) (event : CollisionEvent) :
  vertexCheck id st settings vertex = Some (st', event) ->
  ev_id event = id /\ ev_kind event = bumper /\ contactResponse settings st st' event.
Proof.
  unfold vertexCheck.
  set (diff := sub (position st) vertex).
  cmp_cases; cbn [andb]; intros H; try discriminate.
  injection H as <- <-. cbn [ev_id ev_kind].
  assert (Hlen : length diff <> 0).
  { intros Hz. apply length_zero_iff in Hz. rewrite Hz in Hcmp0.
    unfold dot, zeroVec in Hcmp0; simpl in Hcmp0. lra. }
  assert (Hpos : 0 < length diff) by (pose proof (length_nonneg diff); lra).
  repeat split.
  - cbn [ev_normal]. apply normalize_unit. assumption.
  - cbn [ev_normal]. rewrite dot_normalize_r by assumption.
    apply Rinv_0_lt_compat in Hpos. nra.
  - exists (ballRadius settings - length diff). split; [ lra | reflexivity ].
Qed.

Lemma bumperHit_response (b : ResolvedBumper) (st : BallState)
    (settings : StepSettings) (st' : BallState) (event : CollisionEvent) :
  bumperHit b st settings = Some (st', event) ->
  ev_id event = rb_id b /\ ev_kind event = bumper
  /\ contactResponse settings st st' event.
Proof.
  unfold bumperHit.
  destruct (edgeLoop (rb_id b) st settings (buildEdges (rb_vertices b)))
    as [ h | ] eqn:E; intros H.
  - injection H as ->. apply edgeLoop_Some in E as (edge & _ & He).
    eapply edgeCheck_response; eassumption.
  - apply vertexLoop_Some in H as (vertex & _ & Hv).
    eapply vertexCheck_response; eassumption.
Qed.

(** ** Speed cap *)

Lemma predict_capped (st : BallState) (dt : R) (settings : StepSettings) :
  0 < maxSpeed settings ->
  length (velocity (predict st dt settings)) <= maxSpeed settings.
Proof.
  intros Hm. unfold predict, capSpeed, applyFriction, advance. cbn [position velocity].
  set (v1 := scale (velocity st) (1 - friction settings * dt)).
  cmp_cases; cbn [velocity]; [ | lra ].
  rewrite length_scale.
  assert (Hs : 0 < length v1) by lra.
  rewrite Rabs_right.
  - right. field. lra.
  - apply Rle_ge. apply Rlt_le. apply Rdiv_lt_0_compat; assumption.
Qed.

Lemma damped_component (a d : R) : 0 < d <= 1 ->
  Rabs a * d * (Rabs a * d) <= a * a
  /\ - Rabs a * d * (- Rabs a * d) <= a * a.
Proof.
  intros Hd. pose proof (Rabs_pos a) as Ha.
  assert (Hsq : Rabs a * Rabs a = a * a).
  { unfold Rabs. destruct (Rcase_abs a); ring. }
  assert (Hdd : 0 <= d * d <= 1) by nra.
  assert (Haa : 0 <= a * a) by nra.
  replace (Rabs a * d * (Rabs a * d)) with (a * a * (d * d))
    by (rewrite <- Hsq; ring).
  replace (- Rabs a * d * (- Rabs a * d)) with (a * a * (d * d))
    by (rewrite <- Hsq; ring).
  split; nra.
Qed.

Lemma resolveWallX_speedSq (st : BallState) (settings : StepSettings)
    (acc : CollisionAccumulator) :
  0 < damping settings <= 1 ->
  speedSq (fst (resolveWallX st settings acc)) <= speedSq st.
Proof.
  intros Hd. unfold resolveWallX, speedSq, dot.
  pose proof (damped_component (x (velocity st)) (damping settings) Hd) as [H1 H2].
  cmp_cases; cbn [andb fst velocity x y setPositionX setVelocityX]; lra.
Qed.

Lemma resolveWallY_speedSq (st : BallState) (settings : StepSettings)
    (acc : CollisionAccumulator) :
  0 < damping settings <= 1 ->
  speedSq (fst (resolveWallY st settings acc)) <= speedSq st.
Proof.
  intros Hd. unfold resolveWallY, speedSq, dot.
  pose proof (damped_component (y (velocity st)) (damping settings) Hd) as [H1 H2].
  cmp_cases; cbn [andb fst velocity x y setPositionY setVelocityY]; lra.
Qed.

Lemma resolveWallCollisions_speedSq (st : BallState) (settings : StepSettings)
    (acc : CollisionAccumulator) :
  0 < damping settings <= 1 ->
  speedSq (fst (resolveWallCollisions st settings acc)) <= speedSq st.
Proof.
  intros Hd. unfold resolveWallCollisions.
  pose proof (resolveWallX_speedSq st settings acc Hd) as H1.
  destruct (resolveWallX st settings acc) as [s1 a1]. cbn [fst] in H1.
  pose proof (resolveWallY_speedSq s1 settings a1 Hd). lra.
Qed.

Lemma dot_scale (v : Vec2) (s : R) : dot (scale v s) (scale v s) = s * s * dot v v.
Proof. unfold dot, scale; simpl. ring. Qed.

Lemma dot_scale_l (v n : Vec2) (s : R) : dot (scale v s) n = s * dot v n.
Proof. unfold dot, scale; simpl. ring. Qed.

Lemma contactResponse_speedSq (settings : StepSettings) (st st' : BallState)
    (event : CollisionEvent) :
  contactResponse settings st st' event ->
  speedSq st' = damping settings * damping settings * speedSq st.
Proof.
  intros (Hunit & _ & Hv & _). unfold speedSq. rewrite Hv, dot_scale.
  rewrite reflect_preserves_sqr by exact Hunit. reflexivity.
Qed.

Lemma resolveBumperCollision_speedSq (b : ResolvedBumper) (st : BallState)
    (acc : CollisionAccumulator) (settings : StepSettings) :
  0 < damping settings <= 1 ->
  speedSq (fst (resolveBumperCollision b st acc settings)) <= speedSq st.
Proof.
  intros Hd. unfold resolveBumperCollision.
  destruct (bumperHit b st settings) as [ [st' event] | ] eqn:E; cbn [fst]; [ | lra ].
  apply bumperHit_response in E as (_ & _ & Hresp).
  rewrite (contactResponse_speedSq _ _ _ _ Hresp).
  assert (0 <= speedSq st) by (unfold speedSq, dot; nra).
  assert (0 <= damping settings * damping settings <= 1) by nra.
  nra.
Qed.

Lemma resolveBumperLoop_speedSq (bs : list ResolvedBumper) (settings : StepSettings)
    (sa : BallState * CollisionAccumulator) :
  0 < damping settings <= 1 ->
  speedSq (fst (resolveBumperLoop bs settings sa)) <= speedSq (fst sa).
Proof.
  intros Hd. revert sa. induction bs as [ | b rest IH ]; intros sa.
  - cbn. lra.
  - unfold resolveBumperLoop in *. cbn [fold_left].
    specialize (IH (resolveBumperCollision b (fst sa) (snd sa) settings)).
    pose proof (resolveBumperCollision_speedSq b (fst sa) (snd sa) settings Hd).
    lra.
Qed.

(** C4: whatever the incoming state, the bumpers and [dt], with
    [0 < damping <= 1] and [maxSpeed > 0] the speed of the state that
    [stepBall] returns is at most [maxSpeed]. *)
Theorem stepBall_speed_cap (st : BallState) (bs : list ResolvedBumper) (dt : R)
    (settings : StepSettings) :
  0 <= dt ->
  0 < damping settings <= 1 ->
  0 < maxSpeed settings ->
  length (velocity (state (stepBall st bs dt settings))) <= maxSpeed settings.
Proof.
  intros _ Hd Hm. apply length_le_of_sqr; [ lra | ].
  unfold stepBall. cbn [state].
  pose proof (resolveBumperLoop_speedSq bs settings
                (resolveWallCollisions (predict st dt settings) settings emptyAccumulator)
                Hd) as H1.
  pose proof (resolveWallCollisions_speedSq (predict st dt settings) settings
                emptyAccumulator Hd) as H2.
  pose proof (sqr_le_of_length _ _ (predict_capped st dt settings Hm)) as H3.
  unfold speedSq in *. lra.
Qed.

(** ** Bounces lose speed along the normal *)

Lemma bounceLaw_abs (d : R) (v v' n : Vec2) :
  0 < d <= 1 -> bounceLaw d v v' n ->
  Rabs (dot v' n) = d * Rabs (dot v n) /\ Rabs (dot v' n) <= Rabs (dot v n).
Proof.
  intros Hd [Hneg Heq]. rewrite Heq.
  rewrite (Rabs_left (dot v n)) by exact Hneg.
  rewrite Rabs_right by nra. split; nra.
Qed.

Lemma appendCollision_In (acc : CollisionAccumulator) (e ev : CollisionEvent) :
  In ev (events (appendCollision acc e)) -> In ev (events acc) \/ ev = e.
Proof.
  unfold appendCollision.
  destruct (decide (ev_id e ∈ ids acc)) as [ _ | _ ]; cbn [events]; intros Hin;
    [ left; exact Hin | ].
  apply in_app_iff in Hin as [ Hin | [ Hin | [] ] ]; [ left | right ]; done.
Qed.

Lemma resolveWallX_bounce (st : BallState) (settings : StepSettings)
    (acc : CollisionAccumulator) (ev : CollisionEvent) :
  In ev (events (snd (resolveWallX st settings acc))) ->
  In ev (events acc)
  \/ (y (ev_normal ev) = 0
      /\ x (velocity st) * x (ev_normal ev) < 0
      /\ x (velocity (fst (resolveWallX st settings acc))) * x (ev_normal ev)
         = - damping settings * (x (velocity st) * x (ev_normal ev))).
Proof.
  unfold resolveWallX.
  cmp_cases; cbn [andb fst snd]; intros H; try (left; exact H);
    apply appendCollision_In in H as [ H | -> ]; try (left; exact H); right;
    cbn [ev_normal x y velocity setPositionX setVelocityX];
    try (exfalso; lra);
    first [ rewrite Rabs_left by lra | rewrite Rabs_right by lra ];
    repeat split; lra.
Qed.

Lemma resolveWallY_bounce (st : BallState) (settings : StepSettings)
    (acc : CollisionAccumulator) (ev : CollisionEvent) :
  In ev (events (snd (resolveWallY st settings acc))) ->
  In ev (events acc)
  \/ (x (ev_normal ev) = 0
      /\ y (velocity st) * y (ev_normal ev) < 0
      /\ y (velocity (fst (resolveWallY st settings acc))) * y (ev_normal ev)
         = - damping settings * (y (velocity st) * y (ev_normal ev))).
Proof.
  unfold resolveWallY.
  cmp_cases; cbn [andb fst snd]; intros H; try (left; exact H);
    apply appendCollision_In in H as [ H | -> ]; try (left; exact H); right;
    cbn [ev_normal x y velocity setPositionY setVelocityY];
    try (exfalso; lra);
    first [ rewrite Rabs_left by lra | rewrite Rabs_right by lra ];
    repeat split; lra.
Qed.

Lemma resolveWallCollisions_bounce (st : BallState) (settings : StepSettings)
    (ev : CollisionEvent) :
  In ev (events (snd (resolveWallCollisions st settings emptyAccumulator))) ->
  bounceLaw (damping settings) (velocity st)
    (velocity (fst (resolveWallCollisions st settings emptyAccumulator)))
    (ev_normal ev).
Proof.
  unfold resolveWallCollisions.
  pose proof (resolveWallX_bounce st settings emptyAccumulator ev) as HX.
  pose proof (resolveWallX_keeps_y st settings emptyAccumulator) as [_ Hky].
  destruct (resolveWallX st settings emptyAccumulator) as [s1 a1].
  cbn [fst snd] in HX, Hky.
  pose proof (resolveWallY_keeps_x s1 settings a1) as [_ Hkx].
  intros H. apply resolveWallY_bounce in H as [ H | (Hn & Hneg & Heq) ].
  - destruct (HX H) as [ [] | (Hn & Hneg & Heq) ]. clear HX.
    unfold bounceLaw, dot. rewrite Hkx, Hn, !Rmult_0_r, !Rplus_0_r.
    split; assumption.
  - clear HX. unfold bounceLaw, dot. rewrite <- Hky, Hn, !Rmult_0_r, !Rplus_0_l.
    split; assumption.
Qed.

Lemma contactResponse_bounce (settings : StepSettings) (st st' : BallState)
    (event : CollisionEvent) :
  contactResponse settings st st' event ->
  bounceLaw (damping settings) (velocity st) (velocity st') (ev_normal event).
Proof.
  intros (Hunit & Hneg & Hv & _). split; [ exact Hneg | ].
  rewrite Hv, dot_scale_l, reflect_dot_normal by exact Hunit. ring.
Qed.

(** C5: with [0 < damping <= 1], every wall contact and every bumper contact
    resolved in a step leaves the ball with a speed along the contact normal
    equal to [damping] times the speed it had along that normal, hence no
    larger. *)
Theorem bounce_normal_speed_damped (settings : StepSettings) :
  0 < damping settings <= 1 ->
  (forall (st : BallState) (ev : CollisionEvent),
      In ev (events (snd (resolveWallCollisions st settings emptyAccumulator))) ->
      let st' := fst (resolveWallCollisions st settings emptyAccumulator) in
      Rabs (dot (velocity st') (ev_normal ev))
        = damping settings * Rabs (dot (velocity st) (ev_normal ev))
      /\ Rabs (dot (velocity st') (ev_normal ev))
         <= Rabs (dot (velocity st) (ev_normal ev)))
  /\ (forall (b : ResolvedBumper) (st st' : BallState) (ev : CollisionEvent),
      bumperHit b st settings = Some (st', ev) ->
      velocity st' = scale (reflectVelocity (velocity st) (ev_normal ev))
                           (damping settings)
      /\ Rabs (dot (velocity st') (ev_normal ev))
         = damping settings * Rabs (dot (velocity st) (ev_normal ev))
      /\ Rabs (dot (velocity st') (ev_normal ev))
         <= Rabs (dot (velocity st) (ev_normal ev))).
Proof.
  intros Hd. split.
  - intros st ev Hin st'. apply bounceLaw_abs; [ exact Hd | ].
    apply resolveWallCollisions_bounce. exact Hin.
  - intros b st st' ev Hhit.
    apply bumperHit_response in Hhit as (_ & _ & Hresp).
    split; [ apply Hresp | ].
    apply bounceLaw_abs; [ exact Hd | ].
    apply contactResponse_bounce. exact Hresp.
Qed.

(** ** De-duplication of the events of a step *)

Lemma emptyAccumulator_ok : accumulatorOk emptyAccumulator.
Proof. split; cbn; [ constructor | intros i Hi; inversion Hi ]. Qed.

Lemma appendCollision_ok (acc : CollisionAccumulator) (e : CollisionEvent) :
  accumulatorOk acc -> accumulatorOk (appendCollision acc e).
Proof.
  intros [Hnd Hids]. unfold appendCollision.
  destruct (decide (ev_id e ∈ ids acc)) as [ Hin | Hout ]; [ split; assumption | ].
  split; cbn [events ids]; rewrite fmap_app; cbn [fmap list_fmap].
  - apply NoDup_app. split; [ exact Hnd | split ].
    + intros i Hi Hi'. apply list_elem_of_singleton in Hi'. subst i.
      apply Hout, Hids, Hi.
    + apply NoDup_singleton.
  - intros i Hi. apply elem_of_app in Hi as [ Hi | Hi ].
    + apply elem_of_union_l, Hids, Hi.
    + apply list_elem_of_singleton in Hi. subst i.
      apply elem_of_union_r, elem_of_singleton. reflexivity.
Qed.

Lemma resolveWallX_ok (st : BallState) (settings : StepSettings)
    (acc : CollisionAccumulator) :
  accumulatorOk acc -> accumulatorOk (snd (resolveWallX st settings acc)).
Proof.
  intros H. unfold resolveWallX.
  destruct (_ && _); [ | destruct (_ && _) ]; cbn [snd];
    try apply appendCollision_ok; exact H.
Qed.

Lemma resolveWallY_ok (st : BallState) (settings : StepSettings)
    (acc : CollisionAccumulator) :
  accumulatorOk acc -> accumulatorOk (snd (resolveWallY st settings acc)).
Proof.
  intros H. unfold resolveWallY.
  destruct (_ && _); [ | destruct (_ && _) ]; cbn [snd];
    try apply appendCollision_ok; exact H.
Qed.

Lemma resolveWallCollisions_ok (st : BallState) (settings : StepSettings)
    (acc : CollisionAccumulator) :
  accumulatorOk acc -> accumulatorOk (snd (resolveWallCollisions st settings acc)).
Proof.
  intros H. unfold resolveWallCollisions.
  pose proof (resolveWallX_ok st settings acc H) as HX.
  destruct (resolveWallX st settings acc) as [s1 a1].
  apply resolveWallY_ok. exact HX.
Qed.

Lemma resolveBumperCollision_ok (b : ResolvedBumper) (st : BallState)
    (acc : CollisionAccumulator) (settings : StepSettings) :
  accumulatorOk acc -> accumulatorOk (snd (resolveBumperCollision b st acc settings)).
Proof.
  intros H. unfold resolveBumperCollision.
  destruct (bumperHit b st settings) as [ [st' event] | ]; cbn [snd];
    [ apply appendCollision_ok | ]; exact H.
Qed.

Lemma resolveBumperLoop_ok (bs : list ResolvedBumper) (settings : StepSettings)
    (sa : BallState * CollisionAccumulator) :
  accumulatorOk (snd sa) -> accumulatorOk (snd (resolveBumperLoop bs settings sa)).
Proof.
  revert sa. induction bs as [ | b rest IH ]; intros sa H; [ exact H | ].
  unfold resolveBumperLoop in *. cbn [fold_left].
  apply IH. apply resolveBumperCollision_ok. exact H.
Qed.

(** C8: the events that one [stepBall] call returns carry pairwise distinct
    ids, so a bumper id and each wall id occur at most once; recording an
    event never removes or replaces an event recorded before it. *)
Theorem stepBall_events_distinct_ids (st : BallState) (bs : list ResolvedBumper)
    (dt : R) (settings : StepSettings) :
  NoDup (map ev_id (collisions (stepBall st bs dt settings)))
  /\ (forall (acc : CollisionAccumulator) (e : CollisionEvent),
        exists rest, events (appendCollision acc e) = events acc ++ rest).
Proof.
  split.
  - unfold stepBall. cbn [collisions].
    apply resolveBumperLoop_ok, resolveWallCollisions_ok, emptyAccumulator_ok.
  - intros acc e. unfold appendCollision.
    destruct (decide (ev_id e ∈ ids acc)) as [ _ | _ ]; cbn [events].
    + exists []. rewrite app_nil_r. reflexivity.
    + exists [e]. reflexivity.
Qed.

(** ** Friction *)

Lemma predict_below_cap (st : BallState) (dt : R) (settings : StepSettings) :
  length (scale (velocity st) (1 - friction settings * dt)) <= maxSpeed settings ->
  predict st dt settings
  = {| position := add (position st) (scale (velocity st) dt);
       velocity := scale (velocity st) (1 - friction settings * dt) |}.
Proof.
  intros H. unfold predict, capSpeed, applyFriction, advance. cbn [position velocity].
  cmp_cases; [ lra | reflexivity ].
Qed.

(** C6: in [stepBall] the velocity is multiplied by [1 - friction*dt] as it
    is.  For every input velocity [v] and [friction * dt > 1] the velocity
    after the friction statement is [v * (1 - friction*dt)]: each nonzero
    component has the sign opposite to the one it had, and this is not the
    result of a multiplier floored at zero; for a ball in free flight below
    the speed cap it is the velocity that [stepBall] returns. *)
Theorem stepBall_friction_not_floored (st : BallState) (dt : R)
    (settings : StepSettings) :
  friction settings * dt > 1 ->
  let v := velocity st in
  let vf := velocity (applyFriction (advance st dt) dt settings) in
  vf = scale v (1 - friction settings * dt)
  /\ (x v <> 0 -> x vf * x v < 0)
  /\ (y v <> 0 -> y vf * y v < 0)
  /\ (v <> zeroVec -> vf <> specFrictionStep v (friction settings) dt)
  /\ (inArena settings (add (position st) (scale v dt)) ->
      length vf <= maxSpeed settings ->
      velocity (state (stepBall st [] dt settings)) = vf).
Proof.
  intros Hf v vf.
  assert (E : vf = scale v (1 - friction settings * dt)) by reflexivity.
  split; [ exact E | ]. rewrite E. repeat split.
  - intros Hx. cbn [scale x]. assert (0 < x v * x v) by nra. nra.
  - intros Hy. cbn [scale y]. assert (0 < y v * y v) by nra. nra.
  - intros Hv Heq. apply Hv. unfold specFrictionStep in Heq.
    rewrite Rmax_left in Heq by lra.
    injection Heq as Hx Hy. apply vec_eq; cbn [zeroVec x y]; nra.
  - intros Hin Hcap. rewrite stepBall_free_flight by exact Hin. cbn [state].
    rewrite predict_below_cap by exact Hcap. reflexivity.
Qed.

Lemma stepBall_friction_not_floored_witness :
  velocity (state (stepBall c6Ball [] 6 getPhysicsSettings))
  = scale (velocity c6Ball) (1 - 0.18 * 6)
  /\ x (scale (velocity c6Ball) (1 - 0.18 * 6)) * -10 < 0.
Proof.
  assert (Hf : friction getPhysicsSettings * 6 > 1) by (simpl; lra).
  assert (Hin : inArena getPhysicsSettings
                  (add (position c6Ball) (scale (velocity c6Ball) 6)))
    by (unfold inArena; simpl; lra).
  assert (Hcap : length (scale (velocity c6Ball) (1 - friction getPhysicsSettings * 6))
                 <= maxSpeed getPhysicsSettings).
  { rewrite length_scale. cbn [c6Ball velocity]. rewrite length_horizontal.
    simpl. rewrite (Rabs_left (-10)) by lra. rewrite Rabs_left by lra. lra. }
  destruct (stepBall_friction_not_floored c6Ball 6 getPhysicsSettings Hf)
    as (_ & H2 & _ & _ & H5).
  split; [ exact (H5 Hin Hcap) | apply H2; simpl; lra ].
Defined.

(** ** Geometry *)

Lemma rotatePoint_zero (p : Vec2) : rotatePoint p (toRadians 0) = p.
Proof.
  unfold rotatePoint, toRadians.
  replace (0 * PI / 180) with 0 by lra.
  rewrite cos_0, sin_0. apply vec_eq; simpl; ring.
Qed.

(** C7: the world vertices of a resolved bumper are its local vertices,
    rotated about the local origin by the static rotation, plus the centre:
    a local vertex [(px, py)] becomes
    [(px cos r - py sin r + cx, px sin r + py cos r + cy)], where
    [r = rotation * PI / 180] is the rotation (given in degrees, 0 when
    absent) in radians.  The centre [(cx, cy)] is the base position moved
    along the motion axis by [amplitude * sin (time * speed + phase)] (phase
    0 when absent), and the base position itself when the bumper has no
    motion; so the offset is added after the rotation.  The local vertices of
    an ['up'] triangle are the apex [(0, -h/2)] and the base corners
    [(w/2, h/2)], [(-w/2, h/2)]; turned by 90 degrees and not moving, its
    apex is at [(h/2, 0)] from the position and its base corners at
    [(-h/2, w/2)] and [(-h/2, -w/2)]. *)
Theorem resolveBumper_geometry (b : Bumper) (time : R) :
  let radians := default 0 (b_rotation b) * PI / 180 in
  let center :=
    match b_motion b with
    | None => b_position b
    | Some m =>
        let offset := amplitude m * sin (time * speed m + default 0 (phase m)) in
        match axis m with
        | AxisX => {| x := x (b_position b) + offset; y := y (b_position b) |}
        | AxisY => {| x := x (b_position b); y := y (b_position b) + offset |}
        end
    end in
  rb_center (resolveBumper b time) = center
  /\ rb_vertices (resolveBumper b time)
     = map (fun p =>
              {| x := (x p * cos radians - y p * sin radians) + x center;
                 y := (x p * sin radians + y p * cos radians) + y center |})
           (baseVerts b)
  /\ (forall id color pos w h rot mo,
        baseVerts (mkBumper id color pos w h rot mo (triangle Up))
        = [ {| x := 0; y := - (h / 2) |};
            {| x := w / 2; y := h / 2 |};
            {| x := - (w / 2); y := h / 2 |} ])
  /\ (forall id color pos w h,
        rb_vertices
          (resolveBumper (mkBumper id color pos w h (Some 90) None (triangle Up))
             time)
        = [ {| x := h / 2 + x pos; y := 0 + y pos |};
            {| x := - (h / 2) + x pos; y := w / 2 + y pos |};
            {| x := - (h / 2) + x pos; y := - (w / 2) + y pos |} ]).
Proof.
  intros radians center.
  assert (Hc : applyMotion (b_position b) b time = center).
  { unfold applyMotion, center. destruct (b_motion b) as [ m | ]; [ | reflexivity ].
    destruct (axis m); reflexivity. }
  split; [ exact Hc | split; [ | split ] ].
  - unfold resolveBumper. cbn [rb_vertices]. rewrite Hc.
    fold (toRadians (default 0 (b_rotation b))). fold radians.
    cmp_cases; cbn [negb].
    + apply map_ext. intros p.
      unfold radians, toRadians. rewrite Hcmp.
      replace (0 * PI / 180) with 0 by lra.
      rewrite cos_0, sin_0. apply vec_eq; unfold add; cbn [x y]; ring.
    + rewrite map_map. apply map_ext. intros p. reflexivity.
  - intros. reflexivity.
  - intros ident color pos w h.
    unfold resolveBumper, baseVerts, triangleVertices, applyMotion, toRadians,
      rotatePoint, add.
    cbn [b_rotation b_motion b_type b_width b_height b_position rb_vertices
         default negb x y map].
    unfold Datatypes.id. cmp_eval. cbn [negb map x y].
    replace (90 * PI / 180) with (PI / 2) by lra.
    rewrite cos_PI2, sin_PI2.
    repeat (f_equal; try (apply vec_eq; cbn [x y]; lra)).
Qed.

(** ** Degenerate geometry *)








Lemma stepBall_speed_cap_witness :
  length (velocity (state (stepBall scenario1Ball [resolveBumper level1Triangle 0]
                             (1 / 60) getPhysicsSettings))) <= 900.
Proof.
  apply (stepBall_speed_cap scenario1Ball [resolveBumper level1Triangle 0] (1 / 60)
           getPhysicsSettings); simpl; lra.
Defined.

Lemma scenario1_wall_event :
  In wallLeftEvent
    (events (snd (resolveWallCollisions scenario1Predicted getPhysicsSettings
                    emptyAccumulator))).
Proof.
  unfold resolveWallCollisions, resolveWallX, scenario1Predicted.
  cbn [position velocity x y ballRadius worldWidth getPhysicsSettings damping].
  cmp_eval. cbn [andb].
  cbv [setPositionX setVelocityX]. cbn [position velocity x y].
  unfold resolveWallY.
  cbn [position velocity x y ballRadius worldHeight getPhysicsSettings damping].
  cmp_eval. cbn [andb snd].
  left. reflexivity.
Qed.

Lemma bounce_normal_speed_damped_witness :
  Rabs (dot (velocity (fst (resolveWallCollisions scenario1Predicted
                              getPhysicsSettings emptyAccumulator)))
            (ev_normal wallLeftEvent))
  <= Rabs (dot (velocity scenario1Predicted) (ev_normal wallLeftEvent)).
Proof.
  assert (Hd : 0 < damping getPhysicsSettings <= 1) by (simpl; lra).
  apply (proj1 (bounce_normal_speed_damped getPhysicsSettings Hd)
           scenario1Predicted wallLeftEvent).
  exact scenario1_wall_event.
Defined.

(** ** Running computations on the store *)

Lemma bind_Some {A B : Type} (m : M A) (f : A -> M B) (h h1 : Heap) (a : A) :
  m h = Some (a, h1) -> bind m f h = f a h1.
Proof. intros H. unfold bind. rewrite H. reflexivity. Qed.

Lemma readVec_Some (l : nat) (h : Heap) (v : Vec2) :
  h !! l = Some (VecObj v) -> readVec l h = Some (v, h).
Proof. intros H. unfold readVec. rewrite H. reflexivity. Qed.

Lemma getPosition_Some (s p v : nat) (h : Heap) :
  h !! s = Some (StateObj p v) -> getPosition s h = Some (p, h).
Proof. intros H. unfold getPosition. rewrite H. reflexivity. Qed.

Lemma getVelocity_Some (s p v : nat) (h : Heap) :
  h !! s = Some (StateObj p v) -> getVelocity s h = Some (v, h).
Proof. intros H. unfold getVelocity. rewrite H. reflexivity. Qed.

Lemma writeObj_Some (l : nat) (o o' : Obj) (h : Heap) :
  h !! l = Some o' -> writeObj l o h = Some (tt, <[l := o]> h).
Proof.
  intros H. apply lookup_lt_Some in H. unfold writeObj.
  destruct (decide (l < List.length h)%nat); [ reflexivity | lia ].
Qed.

Lemma frame_refl (n : nat) (h : Heap) : frame n h h.
Proof. split; [ lia | reflexivity ]. Qed.

Lemma frame_trans (n : nat) (h1 h2 h3 : Heap) :
  frame n h1 h2 -> frame n h2 h3 -> frame n h1 h3.
Proof.
  intros [L1 F1] [L2 F2]. split; [ lia | ].
  intros l Hl. rewrite F2, F1 by exact Hl. reflexivity.
Qed.

Lemma frame_insert (n l : nat) (o : Obj) (h : Heap) :
  (n <= l)%nat -> frame n h (<[l := o]> h).
Proof.
  intros Hl. split; [ rewrite length_insert; lia | ].
  intros k Hk. apply list_lookup_insert_ne. lia.
Qed.

Lemma frame_alloc (n : nat) (o : Obj) (h : Heap) :
  (n <= List.length h)%nat -> frame n h (h ++ [o]).
Proof.
  intros Hn. split; [ rewrite length_app; lia | ].
  intros k Hk. apply lookup_app_l. lia.
Qed.

Lemma ownsAt_distinct (n : nat) (h : Heap) (s p v : nat) (st : BallState) :
  ownsAt n h s p v st -> s <> p /\ s <> v.
Proof. intros (Hs & Hp & Hv & _). split; intros ->; congruence. Qed.

Lemma readPosition_owned (n : nat) (h : Heap) (s p v : nat) (st : BallState) :
  ownsAt n h s p v st -> readPosition s h = Some (position st, h).
Proof.
  intros (Hs & Hp & Hv & _). unfold readPosition.
  rewrite (bind_Some _ _ _ _ _ (getPosition_Some _ _ _ _ Hs)).
  apply readVec_Some. exact Hp.
Qed.

Lemma readVelocity_owned (n : nat) (h : Heap) (s p v : nat) (st : BallState) :
  ownsAt n h s p v st -> readVelocity s h = Some (velocity st, h).
Proof.
  intros (Hs & Hp & Hv & _). unfold readVelocity.
  rewrite (bind_Some _ _ _ _ _ (getVelocity_Some _ _ _ _ Hs)).
  apply readVec_Some. exact Hv.
Qed.

Lemma readBall_owned (n : nat) (h : Heap) (s p v : nat) (st : BallState) :
  ownsAt n h s p v st -> readBall s h = Some (st, h).
Proof.
  intros H. unfold readBall.
  rewrite (bind_Some _ _ _ _ _ (readPosition_owned _ _ _ _ _ _ H)).
  rewrite (bind_Some _ _ _ _ _ (readVelocity_owned _ _ _ _ _ _ H)).
  destruct st; reflexivity.
Qed.

(** Overwriting a coordinate of the position object. *)
Lemma write_position_owned (n : nat) (h : Heap) (s p v : nat) (st : BallState)
    (a : Vec2) :
  ownsAt n h s p v st ->
  ownsAt n (<[p := VecObj a]> h) s p v {| position := a; velocity := velocity st |}
  /\ frame n h (<[p := VecObj a]> h).
Proof.
  intros H. destruct (ownsAt_distinct _ _ _ _ _ _ H) as [Hsp Hsv].
  destruct H as (Hs & Hp & Hv & Hns & Hnp & Hnv & Hpv).
  split; [ | apply frame_insert; exact Hnp ].
  repeat split; try assumption; cbn [position velocity].
  - rewrite list_lookup_insert_ne by congruence. exact Hs.
  - apply list_lookup_insert_eq. eapply lookup_lt_Some. exact Hp.
  - rewrite list_lookup_insert_ne by congruence. exact Hv.
Qed.

Lemma write_velocity_owned (n : nat) (h : Heap) (s p v : nat) (st : BallState)
    (a : Vec2) :
  ownsAt n h s p v st ->
  ownsAt n (<[v := VecObj a]> h) s p v {| position := position st; velocity := a |}
  /\ frame n h (<[v := VecObj a]> h).
Proof.
  intros H. destruct (ownsAt_distinct _ _ _ _ _ _ H) as [Hsp Hsv].
  destruct H as (Hs & Hp & Hv & Hns & Hnp & Hnv & Hpv).
  split; [ | apply frame_insert; exact Hnv ].
  repeat split; try assumption; cbn [position velocity].
  - rewrite list_lookup_insert_ne by congruence. exact Hs.
  - rewrite list_lookup_insert_ne by congruence. exact Hp.
  - apply list_lookup_insert_eq. eapply lookup_lt_Some. exact Hv.
Qed.

(** ** The commands on an owned state *)

Lemma assignPositionX_owned (n : nat) (h : Heap) (s p v : nat) (st : BallState)
    (r : R) :
  ownsAt n h s p v st ->
  exists h', assignPositionX s r h = Some (tt, h')
             /\ ownsAt n h' s p v (setPositionX st r) /\ frame n h h'.
Proof.
  intros H. pose proof H as (Hs & Hp & _).
  exists (<[p := VecObj {| x := r; y := y (position st) |}]> h).
  split; [ | apply write_position_owned; exact H ].
  unfold assignPositionX, setX.
  rewrite (bind_Some _ _ _ _ _ (getPosition_Some _ _ _ _ Hs)).
  rewrite (bind_Some _ _ _ _ _ (readVec_Some _ _ _ Hp)).
  eapply writeObj_Some. exact Hp.
Qed.

Lemma assignPositionY_owned (n : nat) (h : Heap) (s p v : nat) (st : BallState)
    (r : R) :
  ownsAt n h s p v st ->
  exists h', assignPositionY s r h = Some (tt, h')
             /\ ownsAt n h' s p v (setPositionY st r) /\ frame n h h'.
Proof.
  intros H. pose proof H as (Hs & Hp & _).
  exists (<[p := VecObj {| x := x (position st); y := r |}]> h).
  split; [ | apply write_position_owned; exact H ].
  unfold assignPositionY, setY.
  rewrite (bind_Some _ _ _ _ _ (getPosition_Some _ _ _ _ Hs)).
  rewrite (bind_Some _ _ _ _ _ (readVec_Some _ _ _ Hp)).
  eapply writeObj_Some. exact Hp.
Qed.

Lemma assignVelocityX_owned (n : nat) (h : Heap) (s p v : nat) (st : BallState)
    (r : R) :
  ownsAt n h s p v st ->
  exists h', assignVelocityX s r h = Some (tt, h')
             /\ ownsAt n h' s p v (setVelocityX st r) /\ frame n h h'.
Proof.
  intros H. pose proof H as (Hs & _ & Hv & _).
  exists (<[v := VecObj {| x := r; y := y (velocity st) |}]> h).
  split; [ | apply write_velocity_owned; exact H ].
  unfold assignVelocityX, setX.
  rewrite (bind_Some _ _ _ _ _ (getVelocity_Some _ _ _ _ Hs)).
  rewrite (bind_Some _ _ _ _ _ (readVec_Some _ _ _ Hv)).
  eapply writeObj_Some. exact Hv.
Qed.

Lemma assignVelocityY_owned (n : nat) (h : Heap) (s p v : nat) (st : BallState)
    (r : R) :
  ownsAt n h s p v st ->
  exists h', assignVelocityY s r h = Some (tt, h')
             /\ ownsAt n h' s p v (setVelocityY st r) /\ frame n h h'.
Proof.
  intros H. pose proof H as (Hs & _ & Hv & _).
  exists (<[v := VecObj {| x := x (velocity st); y := r |}]> h).
  split; [ | apply write_velocity_owned; exact H ].
  unfold assignVelocityY, setY.
  rewrite (bind_Some _ _ _ _ _ (getVelocity_Some _ _ _ _ Hs)).
  rewrite (bind_Some _ _ _ _ _ (readVec_Some _ _ _ Hv)).
  eapply writeObj_Some. exact Hv.
Qed.

(** Redirecting a field to a new object. *)
Lemma assignPosition_owned (n : nat) (h : Heap) (s p v : nat) (st : BallState)
    (a : Vec2) :
  ownsAt n h s p v st ->
  exists h' p', assignPosition s a h = Some (tt, h')
    /\ ownsAt n h' s p' v {| position := a; velocity := velocity st |}
    /\ frame n h h'.
Proof.
  intros H. destruct (ownsAt_distinct _ _ _ _ _ _ H) as [Hsp Hsv].
  destruct H as (Hs & Hp & Hv & Hns & Hnp & Hnv & Hpv).
  pose proof (lookup_lt_Some _ _ _ Hs) as Ls.
  pose proof (lookup_lt_Some _ _ _ Hv) as Lv.
  set (h1 := h ++ [VecObj a]).
  assert (Hs1 : h1 !! s = Some (StateObj p v))
    by (unfold h1; rewrite lookup_app_l by lia; exact Hs).
  exists (<[s := StateObj (List.length h) v]> h1), (List.length h).
  split; [ | split ].
  - unfold assignPosition, alloc, setPosition. unfold bind at 1. fold h1.
    rewrite (bind_Some _ _ _ _ _ (getVelocity_Some _ _ _ _ Hs1)).
    eapply writeObj_Some. exact Hs1.
  - repeat split; cbn [position velocity]; try lia.
    + apply list_lookup_insert_eq. eapply lookup_lt_Some. exact Hs1.
    + rewrite list_lookup_insert_ne by lia. unfold h1.
      apply list_lookup_middle. reflexivity.
    + rewrite list_lookup_insert_ne by congruence. unfold h1.
      rewrite lookup_app_l by lia. exact Hv.
  - eapply frame_trans; [ apply frame_alloc; lia | apply frame_insert; exact Hns ].
Qed.

Lemma assignVelocity_owned (n : nat) (h : Heap) (s p v : nat) (st : BallState)
    (a : Vec2) :
  ownsAt n h s p v st ->
  exists h' v', assignVelocity s a h = Some (tt, h')
    /\ ownsAt n h' s p v' {| position := position st; velocity := a |}
    /\ frame n h h'.
Proof.
  intros H. destruct (ownsAt_distinct _ _ _ _ _ _ H) as [Hsp Hsv].
  destruct H as (Hs & Hp & Hv & Hns & Hnp & Hnv & Hpv).
  pose proof (lookup_lt_Some _ _ _ Hs) as Ls.
  pose proof (lookup_lt_Some _ _ _ Hp) as Lp.
  set (h1 := h ++ [VecObj a]).
  assert (Hs1 : h1 !! s = Some (StateObj p v))
    by (unfold h1; rewrite lookup_app_l by lia; exact Hs).
  exists (<[s := StateObj p (List.length h)]> h1), (List.length h).
  split; [ | split ].
  - unfold assignVelocity, alloc, setVelocity. unfold bind at 1. fold h1.
    rewrite (bind_Some _ _ _ _ _ (getPosition_Some _ _ _ _ Hs1)).
    eapply writeObj_Some. exact Hs1.
  - repeat split; cbn [position velocity]; try lia.
    + apply list_lookup_insert_eq. eapply lookup_lt_Some. exact Hs1.
    + rewrite list_lookup_insert_ne by congruence. unfold h1.
      rewrite lookup_app_l by lia. exact Hp.
    + rewrite list_lookup_insert_ne by lia. unfold h1.
      apply list_lookup_middle. reflexivity.
  - eapply frame_trans; [ apply frame_alloc; lia | apply frame_insert; exact Hns ].
Qed.

(** One command of a sequence has run: [E] is its result. *)
Ltac run E := rewrite (bind_Some _ _ _ _ _ E); cbv beta.

(** ** The store version computes the value version *)

Lemma resolveWallX_store_owned (n : nat) (h : Heap) (s p v : nat) (st : BallState)
    (settings : StepSettings) (acc : CollisionAccumulator) :
  ownsAt n h s p v st ->
  exists h',
    resolveWallX_store s settings acc p v h
    = Some (snd (resolveWallX st settings acc), h')
    /\ ownsAt n h' s p v (fst (resolveWallX st settings acc))
    /\ frame n h h'.
Proof.
  intros H. pose proof H as (Hs & Hp & Hv & _).
  unfold resolveWallX_store, resolveWallX. cbv zeta.
  run (readVec_Some _ _ _ Hp). run (readVec_Some _ _ _ Hv).
  destruct (_ && _); [ | destruct (_ && _) ].
  - destruct (assignPositionX_owned n h s p v st (ballRadius settings) H)
      as (h1 & E1 & O1 & F1).
    run E1. run (readVelocity_owned _ _ _ _ _ _ O1).
    destruct (assignVelocityX_owned n h1 s p v _
                (Rabs (x (velocity (setPositionX st (ballRadius settings))))
                 * damping settings) O1) as (h2 & E2 & O2 & F2).
    run E2. pose proof O2 as (_ & Hp2 & _). run (readVec_Some _ _ _ Hp2).
    exists h2. split; [ reflexivity | split; [ exact O2 | ] ].
    eapply frame_trans; eassumption.
  - destruct (assignPositionX_owned n h s p v st
                (worldWidth settings - ballRadius settings) H)
      as (h1 & E1 & O1 & F1).
    run E1. run (readVelocity_owned _ _ _ _ _ _ O1).
    destruct (assignVelocityX_owned n h1 s p v _
                (- Rabs (x (velocity (setPositionX st
                     (worldWidth settings - ballRadius settings))))
                 * damping settings) O1) as (h2 & E2 & O2 & F2).
    run E2. pose proof O2 as (_ & Hp2 & _). run (readVec_Some _ _ _ Hp2).
    exists h2. split; [ reflexivity | split; [ exact O2 | ] ].
    eapply frame_trans; eassumption.
  - exists h. split; [ reflexivity | split; [ exact H | apply frame_refl ] ].
Qed.

Lemma resolveWallY_store_owned (n : nat) (h : Heap) (s p v : nat) (st : BallState)
    (settings : StepSettings) (acc : CollisionAccumulator) :
  ownsAt n h s p v st ->
  exists h',
    resolveWallY_store s settings acc p v h
    = Some (snd (resolveWallY st settings acc), h')
    /\ ownsAt n h' s p v (fst (resolveWallY st settings acc))
    /\ frame n h h'.
Proof.
  intros H. pose proof H as (Hs & Hp & Hv & _).
  unfold resolveWallY_store, resolveWallY. cbv zeta.
  run (readVec_Some _ _ _ Hp). run (readVec_Some _ _ _ Hv).
  destruct (_ && _); [ | destruct (_ && _) ].
  - destruct (assignPositionY_owned n h s p v st (ballRadius settings) H)
      as (h1 & E1 & O1 & F1).
    run E1. run (readVelocity_owned _ _ _ _ _ _ O1).
    destruct (assignVelocityY_owned n h1 s p v _
                (Rabs (y (velocity (setPositionY st (ballRadius settings))))
                 * damping settings) O1) as (h2 & E2 & O2 & F2).
    run E2. pose proof O2 as (_ & Hp2 & _). run (readVec_Some _ _ _ Hp2).
    exists h2. split; [ reflexivity | split; [ exact O2 | ] ].
    eapply frame_trans; eassumption.
  - destruct (assignPositionY_owned n h s p v st
                (worldHeight settings - ballRadius settings) H)
      as (h1 & E1 & O1 & F1).
    run E1. run (readVelocity_owned _ _ _ _ _ _ O1).
    destruct (assignVelocityY_owned n h1 s p v _
                (- Rabs (y (velocity (setPositionY st
                     (worldHeight settings - ballRadius settings))))
                 * damping settings) O1) as (h2 & E2 & O2 & F2).
    run E2. pose proof O2 as (_ & Hp2 & _). run (readVec_Some _ _ _ Hp2).
    exists h2. split; [ reflexivity | split; [ exact O2 | ] ].
    eapply frame_trans; eassumption.
  - exists h. split; [ reflexivity | split; [ exact H | apply frame_refl ] ].
Qed.

Lemma resolveWallCollisions_store_owned (n : nat) (h : Heap) (s p v : nat)
    (st : BallState) (settings : StepSettings) (acc : CollisionAccumulator) :
  ownsAt n h s p v st ->
  exists h',
    resolveWallCollisions_store s settings acc h
    = Some (snd (resolveWallCollisions st settings acc), h')
    /\ ownsAt n h' s p v (fst (resolveWallCollisions st settings acc))
    /\ frame n h h'.
Proof.
  intros H. pose proof H as (Hs & _).
  unfold resolveWallCollisions_store, resolveWallCollisions.
  run (getPosition_Some _ _ _ _ Hs). run (getVelocity_Some _ _ _ _ Hs).
  destruct (resolveWallX_store_owned n h s p v st settings acc H)
    as (h1 & E1 & O1 & F1).
  run E1. destruct (resolveWallX st settings acc) as [s1 a1]. cbn [fst snd] in *.
  destruct (resolveWallY_store_owned n h1 s p v s1 settings a1 O1)
    as (h2 & E2 & O2 & F2).
  exists h2. split; [ exact E2 | split; [ exact O2 | ] ].
  eapply frame_trans; eassumption.
Qed.

Lemma resolveBumperCollision_store_owned (n : nat) (h : Heap) (s p v : nat)
    (st : BallState) (b : ResolvedBumper) (settings : StepSettings)
    (acc : CollisionAccumulator) :
  ownsAt n h s p v st ->
  exists h' p' v',
    resolveBumperCollision_store b s acc settings h
    = Some (snd (resolveBumperCollision b st acc settings), h')
    /\ ownsAt n h' s p' v' (fst (resolveBumperCollision b st acc settings))
    /\ frame n h h'.
Proof.
  intros H. unfold resolveBumperCollision_store, resolveBumperCollision.
  run (readBall_owned _ _ _ _ _ _ H).
  destruct (bumperHit b st settings) as [ [st' event] | ].
  - destruct (assignPosition_owned n h s p v st (position st') H)
      as (h1 & p' & E1 & O1 & F1).
    run E1.
    destruct (assignVelocity_owned n h1 s p' v _ (velocity st') O1)
      as (h2 & v' & E2 & O2 & F2).
    run E2. exists h2, p', v'. cbn [fst snd position velocity] in *.
    split; [ reflexivity | split; [ destruct st'; exact O2 | ] ].
    eapply frame_trans; eassumption.
  - exists h, p, v. split; [ reflexivity | split; [ exact H | apply frame_refl ] ].
Qed.

Lemma resolveBumperLoop_store_owned (n : nat) (bs : list ResolvedBumper)
    (settings : StepSettings) (h : Heap) (s p v : nat) (st : BallState)
    (acc : CollisionAccumulator) :
  ownsAt n h s p v st ->
  exists h' p' v',
    resolveBumperLoop_store bs s acc settings h
    = Some (snd (resolveBumperLoop bs settings (st, acc)), h')
    /\ ownsAt n h' s p' v' (fst (resolveBumperLoop bs settings (st, acc)))
    /\ frame n h h'.
Proof.
  revert h p v st acc. induction bs as [ | b rest IH ]; intros h p v st acc H.
  - exists h, p, v. split; [ reflexivity | split; [ exact H | apply frame_refl ] ].
  - cbn [resolveBumperLoop_store]. unfold resolveBumperLoop. cbn [fold_left fst snd].
    destruct (resolveBumperCollision_store_owned n h s p v st b settings acc H)
      as (h1 & p1 & v1 & E1 & O1 & F1).
    run E1.
    destruct (resolveBumperCollision b st acc settings) as [s1 a1].
    cbn [fst snd] in *.
    destruct (IH h1 p1 v1 s1 a1 O1) as (h2 & p2 & v2 & E2 & O2 & F2).
    exists h2, p2, v2. split; [ exact E2 | split; [ exact O2 | ] ].
    eapply frame_trans; eassumption.
Qed.

Lemma readBall_lookups (h : Heap) (s p v : nat) (a b : Vec2) :
  h !! s = Some (StateObj p v) -> h !! p = Some (VecObj a) ->
  h !! v = Some (VecObj b) ->
  readBall s h = Some ({| position := a; velocity := b |}, h).
Proof.
  intros Hs Hp Hv. unfold readBall, readPosition, readVelocity.
  unfold bind. rewrite (getPosition_Some _ _ _ _ Hs), (readVec_Some _ _ _ Hp).
  rewrite (getVelocity_Some _ _ _ _ Hs), (readVec_Some _ _ _ Hv). reflexivity.
Qed.

Lemma readBall_inv (h h' : Heap) (s : nat) (st : BallState) :
  readBall s h = Some (st, h') ->
  exists p v, h !! s = Some (StateObj p v)
              /\ h !! p = Some (VecObj (position st))
              /\ h !! v = Some (VecObj (velocity st)).
Proof.
  unfold readBall, readPosition, readVelocity, bind, getPosition, getVelocity,
    readVec, ret.
  destruct (h !! s) as [ [ ? | p v ] | ] eqn:Hs; try discriminate.
  destruct (h !! p) as [ [ a | ? ? ] | ] eqn:Hp; try discriminate.
  rewrite Hs.
  destruct (h !! v) as [ [ b | ? ? ] | ] eqn:Hv; try discriminate.
  intros H. injection H as <- _. exists p, v. repeat split; assumption.
Qed.

(** The store after the three allocations that open [stepBall]. *)
Lemma nextState_owned (h : Heap) (a b : Vec2) :
  let h1 := h ++ [VecObj a] in
  let h2 := h1 ++ [VecObj b] in
  let h3 := h2 ++ [StateObj (List.length h) (List.length h1)] in
  ownsAt (List.length h) h3 (List.length h2) (List.length h) (List.length h1)
    {| position := a; velocity := b |}
  /\ frame (List.length h) h h3.
Proof.
  intros h1 h2 h3.
  assert (L1 : List.length h1 = S (List.length h))
    by (unfold h1; rewrite length_app; cbn; lia).
  assert (L2 : List.length h2 = S (S (List.length h)))
    by (unfold h2; rewrite length_app; cbn; lia).
  split.
  - repeat split; try lia; cbn [position velocity].
    + unfold h3. apply list_lookup_middle. reflexivity.
    + unfold h3, h2. rewrite !lookup_app_l by (rewrite ?length_app; cbn; lia).
      apply list_lookup_middle. reflexivity.
    + unfold h3. rewrite lookup_app_l by lia.
      apply list_lookup_middle. reflexivity.
  - split; [ unfold h3; rewrite length_app; lia | ].
    intros l Hl. unfold h3, h2, h1. rewrite !lookup_app_l; [ reflexivity | lia | | ];
      rewrite ?length_app; cbn; lia.
Qed.

(** C10: [stepBall] leaves the state it is given as it was.  On a store
    where [s] is a state object holding [st], the call returns a state object
    that did not exist before, holding the state computed by the value-level
    [stepBall], with the same events; every object of the store before the
    call, the input state and its two vectors among them, is unchanged after
    it. *)
Theorem stepBall_store_input_unchanged (h : Heap) (s : nat) (st : BallState)
    (bs : list ResolvedBumper) (dt : R) (settings : StepSettings) :
  readBall s h = Some (st, h) ->
  exists (h' : Heap) (nextState : nat),
    stepBall_store s bs dt settings h
    = Some ((nextState, collisions (stepBall st bs dt settings)), h')
    /\ (forall (l : nat) (o : Obj), h !! l = Some o -> h' !! l = Some o)
    /\ readBall s h' = Some (st, h')
    /\ readBall nextState h' = Some (state (stepBall st bs dt settings), h')
    /\ (List.length h <= nextState)%nat.
Proof.
  intros Hst. destruct (readBall_inv _ _ _ _ Hst) as (p & v & Hs & Hp & Hv).
  set (n := List.length h).
  assert (Hkeep : forall h', frame n h h' ->
            (forall (l : nat) (o : Obj), h !! l = Some o -> h' !! l = Some o)
            /\ readBall s h' = Some (st, h')).
  { intros h' [_ F].
    assert (K : forall l o, h !! l = Some o -> h' !! l = Some o).
    { intros l o Hl. rewrite F; [ exact Hl | ]. eapply lookup_lt_Some. exact Hl. }
    split; [ exact K | ].
    destruct st as [a b]. eapply readBall_lookups; apply K; eassumption. }
  assert (RP : readPosition s h = Some (position st, h)).
  { unfold readPosition. run (getPosition_Some _ _ _ _ Hs).
    apply readVec_Some. exact Hp. }
  assert (RV0 : readVelocity s h = Some (velocity st, h)).
  { unfold readVelocity. run (getVelocity_Some _ _ _ _ Hs).
    apply readVec_Some. exact Hv. }
  assert (RV : forall o, readVelocity s (h ++ [o]) = Some (velocity st, h ++ [o])).
  { intros o. unfold readVelocity.
    assert (Hs1 : (h ++ [o]) !! s = Some (StateObj p v))
      by (rewrite lookup_app_l by (eapply lookup_lt_Some; exact Hs); exact Hs).
    run (getVelocity_Some _ _ _ _ Hs1). apply readVec_Some.
    rewrite lookup_app_l by (eapply lookup_lt_Some; exact Hv). exact Hv. }
  (* the three allocations *)
  set (a0 := add (position st) (scale (velocity st) dt)).
  assert (Hb0 : {| x := x (velocity st); y := y (velocity st) |} = velocity st)
    by (destruct (velocity st); reflexivity).
  remember {| x := x (velocity st); y := y (velocity st) |} as b0 eqn:Eb0.
  destruct (nextState_owned h a0 b0) as [O3 F3]. cbv zeta in O3, F3.
  set (h1 := h ++ [VecObj a0]) in *.
  set (h2 := h1 ++ [VecObj b0]) in *.
  set (h3 := h2 ++ [StateObj (List.length h) (List.length h1)]) in *.
  set (ns := List.length h2) in *.
  (* friction *)
  set (v1 := scale b0 (1 - friction settings * dt)).
  destruct (assignVelocity_owned n h3 ns n (List.length h1) _ v1 O3)
    as (h4 & v4 & E4 & O4 & F4). cbn [position velocity] in O4.
  (* the speed cap *)
  assert (Hcap : exists h5 v5,
    (if length v1 >? maxSpeed settings
     then let* cur := readVelocity ns in
          assignVelocity ns (scale cur (maxSpeed settings / length v1))
     else ret tt) h4 = Some (tt, h5)
    /\ ownsAt n h5 ns n v5 (predict st dt settings) /\ frame n h4 h5).
  { unfold predict, capSpeed, applyFriction, advance. cbn [position velocity]. fold a0. rewrite <- Hb0. fold v1.
    destruct (length v1 >? maxSpeed settings).
    - run (readVelocity_owned _ _ _ _ _ _ O4). cbn [velocity].
      destruct (assignVelocity_owned n h4 ns n v4 _
                  (scale v1 (maxSpeed settings / length v1)) O4)
        as (h5 & v5 & E5 & O5 & F5).
      exists h5, v5. split; [ exact E5 | split; [ exact O5 | exact F5 ] ].
    - exists h4, v4. split; [ reflexivity | split; [ exact O4 | apply frame_refl ] ]. }
  destruct Hcap as (h5 & v5 & E5 & O5 & F5).
  (* walls, then bumpers *)
  destruct (resolveWallCollisions_store_owned n h5 ns n v5 _ settings
              emptyAccumulator O5) as (h6 & E6 & O6 & F6).
  pose proof (resolveBumperLoop_store_owned n bs settings h6 ns n v5
                (fst (resolveWallCollisions (predict st dt settings) settings
                        emptyAccumulator))
                (snd (resolveWallCollisions (predict st dt settings) settings
                        emptyAccumulator)) O6) as (h7 & p7 & v7 & E7 & O7 & F7).
  rewrite <- surjective_pairing in E7, O7.
  assert (Fall : frame n h h7).
  { repeat (eapply frame_trans; [ eassumption | ]). apply frame_refl. }
  destruct (Hkeep h7 Fall) as [K1 K2].
  exists h7, ns. split; [ | split; [ exact K1 | split; [ exact K2 | split ] ] ].
  - unfold stepBall_store.
    run RP. run RV0. unfold alloc at 1. unfold bind at 1. cbv beta.
    fold a0 h1. run (RV (VecObj a0)). rewrite <- Eb0.
    unfold alloc at 1. unfold bind at 1. cbv beta. fold h2.
    unfold alloc at 1. unfold bind at 1. cbv beta. fold ns. fold h3.
    run (readVelocity_owned _ _ _ _ _ _ O3). cbn [velocity]. fold v1.
    run E4. run (readVelocity_owned _ _ _ _ _ _ O4). cbn [velocity]. cbv zeta.
    run E5. run E6. run E7. reflexivity.
  - apply (readBall_owned _ _ _ _ _ _ O7).
  - destruct O7 as (_ & _ & _ & Hn & _). unfold n in Hn. exact Hn.
Qed.


Lemma stepBall_store_input_unchanged_witness :
  exists (h' : Heap) (nextState : nat),
    stepBall_store 2 [] (1 / 60) getPhysicsSettings (scenario1Store)
    = Some ((nextState,
             collisions (stepBall scenario1Ball [] (1 / 60) getPhysicsSettings)), h')
    /\ (forall (l : nat) (o : Obj),
          scenario1Store !! l = Some o -> h' !! l = Some o)
    /\ readBall 2 h' = Some (scenario1Ball, h')
    /\ readBall nextState h'
       = Some (state (stepBall scenario1Ball [] (1 / 60) getPhysicsSettings), h')
    /\ (3 <= nextState)%nat.
Proof.
  apply (stepBall_store_input_unchanged (scenario1Store) 2 scenario1Ball
           [] (1 / 60) getPhysicsSettings).
  reflexivity.
Defined.

(** * Further properties of the physics core *)

(** ** Vector helpers *)

Lemma length_one_of_sqr (a : Vec2) : dot a a = 1 -> length a = 1.
Proof.
  intros H. unfold length. fold (dot a a). rewrite H. apply sqrt_1.
Qed.

(** [normalize]: the input is the result scaled by the input's length; the
    result has length 0 (for the zero vector) or 1; normalising twice is
    normalising once. *)
Theorem normalize_direction_and_length (a : Vec2) :
  scale (normalize a) (length a) = a
  /\ (length (normalize a) = 0 \/ length (normalize a) = 1)
  /\ normalize (normalize a) = normalize a
  /\ normalize zeroVec = zeroVec.
Proof.
  assert (Hz : normalize zeroVec = zeroVec).
  { unfold normalize. rewrite (proj2 (length_zero_iff zeroVec) eq_refl).
    cmp_eval. reflexivity. }
  destruct (Req_dec_T (length a) 0) as [ H0 | Hn ].
  - pose proof (proj1 (length_zero_iff a) H0) as Ha. subst a.
    rewrite Hz. repeat split; try assumption.
    + apply vec_eq; simpl; ring.
    + left. apply length_zero_iff. reflexivity.
  - pose proof (normalize_unit a Hn) as Hu.
    pose proof (length_one_of_sqr _ Hu) as H1.
    repeat split; try assumption.
    + unfold normalize. cmp_cases; [ done | ]. apply vec_eq; simpl; field; done.
    + right. exact H1.
    + unfold normalize at 1. rewrite H1. cmp_eval.
      apply vec_eq; simpl; field.
Qed.

(** [clamp] with ordered bounds: the result is within the bounds, and is the
    value itself when the value is within them. *)
Theorem clamp_within_bounds (value lo hi : R) :
  lo <= hi ->
  lo <= clamp value lo hi <= hi
  /\ (lo <= value <= hi -> clamp value lo hi = value)
  /\ (value <= lo -> clamp value lo hi = lo)
  /\ (hi <= value -> clamp value lo hi = hi).
Proof.
  intros H. unfold clamp, Rmax, Rmin.
  repeat destruct (Rle_dec _ _); repeat split; intros; lra.
Qed.

Lemma clamp_within_bounds_witness :
  0 <= clamp 200 0 160 <= 160 /\ clamp 200 0 160 = 160.
Proof.
  assert (H : 0 <= 160) by lra.
  destruct (clamp_within_bounds 200 0 160 H) as (H1 & _ & _ & H4).
  split; [ exact H1 | apply H4; lra ].
Defined.

Lemma cos_sin_sqr (a : R) : cos a * cos a + sin a * sin a = 1.
Proof. pose proof (sin2_cos2 a) as H. unfold Rsqr in H. lra. Qed.

(** [rotatePoint] is a rotation: it keeps lengths and dot products, two
    rotations compose to the rotation by the sum of the angles, and rotating
    back by the opposite angle returns the point. *)
Theorem rotatePoint_isometry (p q : Vec2) (a b : R) :
  length (rotatePoint p a) = length p
  /\ dot (rotatePoint p a) (rotatePoint q a) = dot p q
  /\ rotatePoint (rotatePoint p a) b = rotatePoint p (a + b)
  /\ rotatePoint (rotatePoint p a) (- a) = p.
Proof.
  pose proof (cos_sin_sqr a) as Ha.
  assert (Hdot : forall u w, dot (rotatePoint u a) (rotatePoint w a) = dot u w).
  { intros u w. unfold dot, rotatePoint; cbn [x y].
    replace ((x u * cos a - y u * sin a) * (x w * cos a - y w * sin a)
             + (x u * sin a + y u * cos a) * (x w * sin a + y w * cos a))
      with ((x u * x w + y u * y w) * (cos a * cos a + sin a * sin a)) by ring.
    rewrite Ha. ring. }
  repeat split.
  - unfold length. fold (dot (rotatePoint p a) (rotatePoint p a)).
    fold (dot p p). rewrite Hdot. reflexivity.
  - apply Hdot.
  - unfold rotatePoint; cbn [x y]. rewrite cos_plus, sin_plus.
    apply vec_eq; cbn [x y]; ring.
  - unfold rotatePoint; cbn [x y]. rewrite cos_neg, sin_neg.
    apply vec_eq; cbn [x y].
    + replace ((x p * cos a - y p * sin a) * cos a
               - (x p * sin a + y p * cos a) * - sin a)
        with (x p * (cos a * cos a + sin a * sin a)) by ring.
      rewrite Ha. ring.
    + replace ((x p * cos a - y p * sin a) * - sin a
               + (x p * sin a + y p * cos a) * cos a)
        with (y p * (cos a * cos a + sin a * sin a)) by ring.
      rewrite Ha. ring.
Qed.

(** [reflectVelocity] about a unit normal is an involution, keeps the speed
    and the component along any tangent, and reverses the component along the
    normal. *)
Theorem reflectVelocity_involution (v n t : Vec2) :
  dot n n = 1 ->
  reflectVelocity (reflectVelocity v n) n = v
  /\ length (reflectVelocity v n) = length v
  /\ dot (reflectVelocity v n) n = - dot v n
  /\ (dot t n = 0 -> dot (reflectVelocity v n) t = dot v t).
Proof.
  intros Hn. pose proof (reflect_dot_normal v n Hn) as Hr.
  repeat split.
  - unfold reflectVelocity at 1. rewrite Hr. unfold reflectVelocity, sub, scale.
    apply vec_eq; cbn [x y]; ring.
  - unfold length. fold (dot (reflectVelocity v n) (reflectVelocity v n)).
    fold (dot v v). rewrite reflect_preserves_sqr by exact Hn. reflexivity.
  - exact Hr.
  - intros Ht. unfold reflectVelocity, dot, sub, scale in *; cbn [x y] in *.
    set (d := x v * x n + y v * y n).
    replace ((x v - x n * (2 * d)) * x t + (y v - y n * (2 * d)) * y t)
      with (x v * x t + y v * y t - 2 * d * (x t * x n + y t * y n)) by ring.
    rewrite Ht. ring.
Qed.

Lemma reflectVelocity_involution_witness :
  reflectVelocity (reflectVelocity {| x := 3; y := 4 |} {| x := 1; y := 0 |})
    {| x := 1; y := 0 |} = {| x := 3; y := 4 |}
  /\ dot (reflectVelocity {| x := 3; y := 4 |} {| x := 1; y := 0 |})
         {| x := 0; y := 1 |} = dot {| x := 3; y := 4 |} {| x := 0; y := 1 |}.
Proof.
  assert (Hn : dot {| x := 1; y := 0 |} {| x := 1; y := 0 |} = 1)
    by (unfold dot; simpl; lra).
  destruct (reflectVelocity_involution {| x := 3; y := 4 |} {| x := 1; y := 0 |}
              {| x := 0; y := 1 |} Hn) as (H1 & _ & _ & H4).
  split; [ exact H1 | apply H4; unfold dot; simpl; lra ].
Defined.

(** ** Projection onto a segment *)

Lemma clamp_unit_cases (u0 : R) :
  (u0 <= 0 /\ clamp u0 0 1 = 0)
  \/ (0 <= u0 <= 1 /\ clamp u0 0 1 = u0)
  \/ (1 <= u0 /\ clamp u0 0 1 = 1).
Proof.
  unfold clamp, Rmax, Rmin.
  repeat destruct (Rle_dec _ _); try lra;
    first [ left; split; lra | right; left; split; lra | right; right; split; lra ].
Qed.

Lemma length_le_length (a b : Vec2) : dot a a <= dot b b -> length a <= length b.
Proof.
  intros H. unfold length. fold (dot a a) (dot b b). apply sqrt_le_1_alt. exact H.
Qed.

(** On [[0,1]] the parabola [w |-> dd - 2 w u0 L + w^2 L] is least at the
    clamped vertex. *)
Lemma clamped_parameter_minimises (dd L u0 u : R) :
  0 < L -> 0 <= u <= 1 ->
  dd - 2 * clamp u0 0 1 * (u0 * L) + clamp u0 0 1 * clamp u0 0 1 * L
  <= dd - 2 * u * (u0 * L) + u * u * L.
Proof.
  intros HL Hu.
  destruct (clamp_unit_cases u0) as [ [H0 ->] | [ [H0 ->] | [H0 ->] ] ].
  - assert (K : 0 <= L * (u * (u - 2 * u0)))
      by (repeat apply Rmult_le_pos; lra).
    lra.
  - assert (K : 0 <= L * ((u - u0) * (u - u0)))
      by (apply Rmult_le_pos; [ lra | apply Rle_0_sqr ]).
    lra.
  - assert (K : 0 <= L * ((1 - u) * (2 * u0 - 1 - u)))
      by (repeat apply Rmult_le_pos; lra).
    lra.
Qed.

(** [closestPointOnSegment] returns a point of the segment, whatever the
    edge: [from + t (to - from)] with [t] in [[0,1]]; when the edge is not
    shorter than the floor of the denominator ([|seg|^2 >= 0.0001]) no point
    of the segment is nearer to the given point. *)
Theorem closestPointOnSegment_nearest (point : Vec2) (edge : Edge) :
  let seg := sub (e_to edge) (e_from edge) in
  (exists t, 0 <= t <= 1
             /\ closestPointOnSegment point edge = add (e_from edge) (scale seg t))
  /\ (0.0001 <= dot seg seg ->
      forall u, 0 <= u <= 1 ->
        length (sub point (closestPointOnSegment point edge))
        <= length (sub point (add (e_from edge) (scale seg u)))).
Proof.
  intros seg.
  set (d := sub point (e_from edge)).
  split.
  - exists (clamp (dot d seg / segLenSq edge) 0 1). split; [ | reflexivity ].
    destruct (clamp_unit_cases (dot d seg / segLenSq edge))
      as [ [_ ->] | [ [? ->] | [_ ->] ] ]; lra.
  - intros HL u Hu.
    set (L := dot seg seg) in *.
    assert (HsL : segLenSq edge = L)
      by (unfold segLenSq; fold seg; fold L; apply Rmax_left; exact HL).
    set (t := clamp (dot d seg / L) 0 1).
    assert (Hc : closestPointOnSegment point edge = add (e_from edge) (scale seg t))
      by (unfold closestPointOnSegment; fold seg; fold d; rewrite HsL; reflexivity).
    rewrite Hc. apply length_le_length.
    assert (Hexp : forall w, dot (sub point (add (e_from edge) (scale seg w)))
                                 (sub point (add (e_from edge) (scale seg w)))
                             = dot d d - 2 * w * dot d seg + w * w * L).
    { intros w. unfold L, d, dot, sub, add, scale; cbn [x y]. ring. }
    rewrite !Hexp.
    assert (Hu0 : dot d seg / L * L = dot d seg) by (field; lra).
    assert (HLpos : 0 < L) by lra.
    pose proof (clamped_parameter_minimises (dot d d) L (dot d seg / L) u HLpos Hu) as K.
    rewrite Hu0 in K. exact K.
Qed.

Lemma closestPointOnSegment_nearest_witness :
  length (sub (position onEdgeBall) (closestPointOnSegment (position onEdgeBall) flatEdge))
  <= length (sub (position onEdgeBall)
               (add (e_from flatEdge)
                  (scale (sub (e_to flatEdge) (e_from flatEdge)) (1 / 4)))).
Proof.
  apply (proj2 (closestPointOnSegment_nearest (position onEdgeBall) flatEdge)).
  - unfold dot; simpl; lra.
  - lra.
Defined.

(** ** Edges of a polygon *)






(** ** Resolved geometry *)

Lemma rotatePoint_sqr (p : Vec2) (a : R) :
  dot (rotatePoint p a) (rotatePoint p a) = dot p p.
Proof.
  pose proof (cos_sin_sqr a) as Ha.
  unfold dot, rotatePoint; cbn [x y].
  replace ((x p * cos a - y p * sin a) * (x p * cos a - y p * sin a)
           + (x p * sin a + y p * cos a) * (x p * sin a + y p * cos a))
    with ((x p * x p + y p * y p) * (cos a * cos a + sin a * sin a)) by ring.
  rewrite Ha. ring.
Qed.

Lemma resolveBumper_vertices_map (b : Bumper) (time : R) :
  rb_vertices (resolveBumper b time)
  = map (fun p => add (rotatePoint p (toRadians (default 0 (b_rotation b))))
                      (rb_center (resolveBumper b time)))
        (baseVerts b).
Proof.
  unfold resolveBumper. cbn [rb_vertices rb_center].
  cmp_cases; cbn [negb].
  - rewrite Hcmp. apply map_ext. intros p. rewrite rotatePoint_zero. reflexivity.
  - rewrite map_map. reflexivity.
Qed.

Lemma sub_add_cancel (q c : Vec2) : sub (add q c) c = q.
Proof. apply vec_eq; unfold sub, add; cbn [x y]; ring. Qed.

(** Whatever the rotation and the motion, every vertex of a resolved bumper
    is within half the diagonal of the bumper's box from its centre (squared
    distance at most [(w^2 + h^2) / 4]); the four corners of a rectangle are
    exactly that far; a rectangle has 4 vertices and a triangle 3. *)
Theorem resolveBumper_within_half_diagonal (b : Bumper) (time : R) :
  let rb := resolveBumper b time in
  let bound := (b_width b * b_width b + b_height b * b_height b) / 4 in
  Forall (fun p => dot (sub p (rb_center rb)) (sub p (rb_center rb)) <= bound)
         (rb_vertices rb)
  /\ match b_type b with
     | rect =>
         List.length (rb_vertices rb) = 4%nat
         /\ Forall (fun p => dot (sub p (rb_center rb)) (sub p (rb_center rb)) = bound)
                   (rb_vertices rb)
     | triangle _ => List.length (rb_vertices rb) = 3%nat
     end.
Proof.
  intros rb bound. unfold rb. rewrite resolveBumper_vertices_map.
  set (c := rb_center (resolveBumper b time)).
  set (a := toRadians (default 0 (b_rotation b))).
  assert (Hpt : forall q, dot (sub (add (rotatePoint q a) c) c)
                              (sub (add (rotatePoint q a) c) c) = dot q q)
    by (intros q; rewrite sub_add_cancel; apply rotatePoint_sqr).
  assert (Hw : 0 <= b_width b * b_width b) by nra.
  assert (Hh : 0 <= b_height b * b_height b) by nra.
  unfold baseVerts, bound.
  destruct (b_type b) as [ | o ].
  - unfold rectVertices. cbn [map List.length].
    split; [ | split; [ reflexivity | ] ];
      repeat (apply List.Forall_cons; [ rewrite Hpt; unfold dot; cbn [x y]; lra | ]);
      apply List.Forall_nil.
  - destruct o; unfold triangleVertices; cbn [map List.length];
      (split; [ | reflexivity ]);
      repeat (apply List.Forall_cons; [ rewrite Hpt; unfold dot; cbn [x y]; lra | ]);
      apply List.Forall_nil.
Qed.

(** The centre of a resolved bumper is the base position when there is no
    motion; with a motion it moves along the motion's axis only, and never
    farther than the amplitude from the base position. *)
Theorem resolveBumper_center_within_amplitude (b : Bumper) (time : R) :
  let c := rb_center (resolveBumper b time) in
  match b_motion b with
  | None => c = b_position b
  | Some m =>
      match axis m with
      | AxisX => y c = y (b_position b)
                 /\ Rabs (x c - x (b_position b)) <= Rabs (amplitude m)
      | AxisY => x c = x (b_position b)
                 /\ Rabs (y c - y (b_position b)) <= Rabs (amplitude m)
      end
  end.
Proof.
  intros c. unfold c, resolveBumper, applyMotion. cbn [rb_center].
  destruct (b_motion b) as [ m | ]; [ | reflexivity ].
  set (s := sin (time * speed m + default 0 (phase m))).
  assert (Hs : Rabs s <= 1) by (apply Rabs_le; apply SIN_bound).
  assert (Hb : Rabs (amplitude m * s) <= Rabs (amplitude m)).
  { rewrite Rabs_mult. pose proof (Rabs_pos (amplitude m)). nra. }
  destruct (axis m); cbn [x y]; (split; [ reflexivity | ]).
  - replace (x (b_position b) + amplitude m * s - x (b_position b))
      with (amplitude m * s) by ring. exact Hb.
  - replace (y (b_position b) + amplitude m * s - y (b_position b))
      with (amplitude m * s) by ring. exact Hb.
Qed.

(** A bumper without motion resolves to the same geometry at every time; a
    moving bumper with a nonzero speed has the same geometry one period
    [2 * PI / speed] later. *)
Theorem resolveBumper_time_dependence (b : Bumper) (t t' : R) :
  match b_motion b with
  | None => resolveBumper b t = resolveBumper b t'
  | Some m =>
      speed m <> 0 -> resolveBumper b (t + 2 * PI / speed m) = resolveBumper b t
  end.
Proof.
  unfold resolveBumper, applyMotion.
  destruct (b_motion b) as [ m | ]; [ | reflexivity ].
  intros Hs.
  replace ((t + 2 * PI / speed m) * speed m + default 0 (phase m))
    with ((t * speed m + default 0 (phase m)) + 2 * INR 1 * PI)
    by (simpl; field; exact Hs).
  rewrite sin_period. reflexivity.
Qed.

Lemma resolveBumper_time_dependence_witness :
  resolveBumper level4Rect (3 + 2 * PI / 1.6) = resolveBumper level4Rect 3.
Proof.
  apply (resolveBumper_time_dependence level4Rect 3 0). simpl. lra.
Defined.

(** ** A ball at rest *)

Lemma scale_zeroVec (k : R) : scale zeroVec k = zeroVec.
Proof. apply vec_eq; unfold scale, zeroVec; cbn [x y]; ring. Qed.

Lemma dot_zeroVec_r (n : Vec2) : dot n zeroVec = 0.
Proof. unfold dot, zeroVec; cbn [x y]. ring. Qed.

Lemma dot_zeroVec_l (n : Vec2) : dot zeroVec n = 0.
Proof. unfold dot, zeroVec; cbn [x y]. ring. Qed.

Lemma bumperHit_at_rest (b : ResolvedBumper) (p : Vec2) (settings : StepSettings) :
  bumperHit b {| position := p; velocity := zeroVec |} settings = None.
Proof.
  assert (He : forall id edges,
             edgeLoop id {| position := p; velocity := zeroVec |} settings edges = None).
  { intros id edges. induction edges as [ | e rest IH ]; [ reflexivity | ].
    cbn [edgeLoop]. unfold edgeCheck. cbn [position velocity].
    rewrite dot_zeroVec_l. rewrite (proj2 (Rltb_false 0 0)) by lra.
    rewrite andb_false_r. destruct (_ =? _); exact IH. }
  assert (Hv : forall id vs,
             vertexLoop id {| position := p; velocity := zeroVec |} settings vs = None).
  { intros id vs. induction vs as [ | v rest IH ]; [ reflexivity | ].
    cbn [vertexLoop]. unfold vertexCheck. cbn [position velocity].
    rewrite dot_zeroVec_l. rewrite (proj2 (Rltb_false 0 0)) by lra.
    rewrite andb_false_r. exact IH. }
  unfold bumperHit. rewrite He. apply Hv.
Qed.

(** A ball at rest stays where it is: whatever the bumpers and [dt], with
    a speed cap that is not negative, [stepBall] returns the same state and
    no event. *)
Theorem stepBall_at_rest (p : Vec2) (bs : list ResolvedBumper) (dt : R)
    (settings : StepSettings) :
  0 <= maxSpeed settings ->
  stepBall {| position := p; velocity := zeroVec |} bs dt settings
  = {| state := {| position := p; velocity := zeroVec |}; collisions := [] |}.
Proof.
  intros Hm.
  assert (Hp : predict {| position := p; velocity := zeroVec |} dt settings
               = {| position := p; velocity := zeroVec |}).
  { unfold predict, capSpeed, applyFriction, advance. cbn [position velocity].
    rewrite !scale_zeroVec.
    replace (add p zeroVec) with p
      by (apply vec_eq; unfold add, zeroVec; cbn [x y]; ring).
    rewrite (proj2 (length_zero_iff zeroVec) eq_refl).
    rewrite (proj2 (Rgtb_false 0 (maxSpeed settings)) Hm). reflexivity. }
  assert (Hw : resolveWallCollisions {| position := p; velocity := zeroVec |}
                 settings emptyAccumulator
               = ({| position := p; velocity := zeroVec |}, emptyAccumulator)).
  { assert (H0 : (0 <? 0) = false) by (apply Rltb_false; lra).
    unfold resolveWallCollisions, resolveWallX.
    cbn [position velocity zeroVec x y]. unfold Rgtb.
    rewrite H0, !andb_false_r. cbv iota.
    unfold resolveWallY. cbn [position velocity zeroVec x y]. unfold Rgtb.
    rewrite H0, !andb_false_r. reflexivity. }
  unfold stepBall. rewrite Hp, Hw.
  assert (Hl : forall acc,
             resolveBumperLoop bs settings ({| position := p; velocity := zeroVec |}, acc)
             = ({| position := p; velocity := zeroVec |}, acc)).
  { intros acc. unfold resolveBumperLoop.
    induction bs as [ | b rest IH ]; [ reflexivity | ].
    cbn [fold_left fst snd]. unfold resolveBumperCollision at 2.
    rewrite bumperHit_at_rest. exact IH. }
  rewrite Hl. reflexivity.
Qed.

Lemma stepBall_at_rest_witness :
  stepBall {| position := {| x := 100; y := 100 |}; velocity := zeroVec |}
    [squareBumper] (1 / 240) getPhysicsSettings
  = {| state := {| position := {| x := 100; y := 100 |}; velocity := zeroVec |};
       collisions := [] |}.
Proof.
  apply (stepBall_at_rest {| x := 100; y := 100 |} [squareBumper] (1 / 240)
           getPhysicsSettings).
  simpl. lra.
Defined.

(** ** Settled walls *)

Lemma resolveWallX_settled_id (st : BallState) (settings : StepSettings)
    (acc : CollisionAccumulator) :
  settledX settings st -> resolveWallX st settings acc = (st, acc).
Proof.
  intros [H1 H2]. unfold resolveWallX.
  cmp_cases; cbn [andb]; try reflexivity; exfalso; tauto.
Qed.

Lemma resolveWallY_settled_id (st : BallState) (settings : StepSettings)
    (acc : CollisionAccumulator) :
  settledY settings st -> resolveWallY st settings acc = (st, acc).
Proof.
  intros [H1 H2]. unfold resolveWallY.
  cmp_cases; cbn [andb]; try reflexivity; exfalso; tauto.
Qed.

Lemma resolveWallX_settles (st : BallState) (settings : StepSettings)
    (acc : CollisionAccumulator) :
  0 <= damping settings ->
  2 * ballRadius settings <= worldWidth settings ->
  settledX settings (fst (resolveWallX st settings acc)).
Proof.
  intros Hd Hw. unfold resolveWallX, settledX.
  pose proof (Rabs_pos (x (velocity st))) as Ha.
  assert (Hm : 0 <= Rabs (x (velocity st)) * damping settings)
    by (apply Rmult_le_pos; assumption).
  cmp_cases; cbn [andb fst position velocity x y setPositionX setVelocityX];
    split; intros [A B]; lra.
Qed.

Lemma resolveWallY_settles (st : BallState) (settings : StepSettings)
    (acc : CollisionAccumulator) :
  0 <= damping settings ->
  2 * ballRadius settings <= worldHeight settings ->
  settledY settings (fst (resolveWallY st settings acc)).
Proof.
  intros Hd Hw. unfold resolveWallY, settledY.
  pose proof (Rabs_pos (y (velocity st))) as Ha.
  assert (Hm : 0 <= Rabs (y (velocity st)) * damping settings)
    by (apply Rmult_le_pos; assumption).
  cmp_cases; cbn [andb fst position velocity x y setPositionY setVelocityY];
    split; intros [A B]; lra.
Qed.

(** Resolving the walls twice is resolving them once: in a world at least one
    ball wide and high and with a damping that is not negative, a second
    [resolveWallCollisions] on the resolved state changes nothing and records
    nothing. *)
Theorem resolveWallCollisions_idempotent (st : BallState) (settings : StepSettings)
    (acc acc' : CollisionAccumulator) :
  0 <= damping settings ->
  2 * ballRadius settings <= worldWidth settings ->
  2 * ballRadius settings <= worldHeight settings ->
  resolveWallCollisions (fst (resolveWallCollisions st settings acc)) settings acc'
  = (fst (resolveWallCollisions st settings acc), acc').
Proof.
  intros Hd Hw Hh. unfold resolveWallCollisions at 2 3.
  pose proof (resolveWallX_settles st settings acc Hd Hw) as HX.
  destruct (resolveWallX st settings acc) as [s1 a1]. cbn [fst] in HX.
  pose proof (resolveWallY_settles s1 settings a1 Hd Hh) as HY.
  pose proof (resolveWallY_keeps_x s1 settings a1) as [Kp Kv].
  destruct (resolveWallY s1 settings a1) as [s2 a2]. cbn [fst] in *.
  assert (HX2 : settledX settings s2)
    by (unfold settledX in *; rewrite Kp, Kv; exact HX).
  unfold resolveWallCollisions.
  rewrite (resolveWallX_settled_id s2 settings acc' HX2).
  apply resolveWallY_settled_id. exact HY.
Qed.

Lemma resolveWallCollisions_idempotent_witness :
  resolveWallCollisions
    (fst (resolveWallCollisions scenario1Predicted getPhysicsSettings emptyAccumulator))
    getPhysicsSettings emptyAccumulator
  = (fst (resolveWallCollisions scenario1Predicted getPhysicsSettings emptyAccumulator),
     emptyAccumulator).
Proof.
  apply resolveWallCollisions_idempotent; simpl; lra.
Defined.

(** ** Where the events of a step come from *)

Lemma appendCollision_length (acc : CollisionAccumulator) (e : CollisionEvent) :
  (List.length (events (appendCollision acc e)) <= S (List.length (events acc)))%nat.
Proof.
  unfold appendCollision. destruct (decide _); cbn [events]; [ lia | ].
  rewrite length_app. cbn. lia.
Qed.

Lemma appendCollision_Forall (P : CollisionEvent -> Prop)
    (acc : CollisionAccumulator) (e : CollisionEvent) :
  P e -> Forall P (events acc) -> Forall P (events (appendCollision acc e)).
Proof.
  intros He Hacc. unfold appendCollision. destruct (decide _); cbn [events];
    [ exact Hacc | ].
  apply Forall_app. split; [ exact Hacc | ].
  apply List.Forall_cons; [ exact He | apply List.Forall_nil ].
Qed.

Lemma resolveWallCollisions_events (bs : list ResolvedBumper) (st : BallState)
    (settings : StepSettings) :
  Forall (eventFrom bs)
    (events (snd (resolveWallCollisions st settings emptyAccumulator)))
  /\ (List.length (events (snd (resolveWallCollisions st settings emptyAccumulator)))
      <= 2)%nat.
Proof.
  assert (HX : Forall (eventFrom bs) (events (snd (resolveWallX st settings emptyAccumulator)))
               /\ (List.length (events (snd (resolveWallX st settings emptyAccumulator)))
                   <= 1)%nat).
  { unfold resolveWallX.
    destruct (_ && _); [ | destruct (_ && _) ]; cbn [snd]; split;
      try (apply appendCollision_Forall;
           [ left; split; [ reflexivity | cbn; tauto ] | apply List.Forall_nil ]);
      try apply (appendCollision_length emptyAccumulator);
      try apply List.Forall_nil; cbn; lia. }
  unfold resolveWallCollisions.
  destruct (resolveWallX st settings emptyAccumulator) as [s1 a1].
  cbn [snd] in HX. destruct HX as [HF HL].
  unfold resolveWallY.
  destruct (_ && _); [ | destruct (_ && _) ]; cbn [snd]; split;
    try (apply appendCollision_Forall;
         [ left; split; [ reflexivity | cbn; tauto ] | exact HF ]);
    try exact HF;
    try (etransitivity; [ apply appendCollision_length | lia ]); lia.
Qed.

Lemma resolveBumperLoop_events (all bs : list ResolvedBumper)
    (settings : StepSettings) (sa : BallState * CollisionAccumulator) :
  (forall b, In b bs -> In b all) ->
  Forall (eventFrom all) (events (snd sa)) ->
  Forall (eventFrom all) (events (snd (resolveBumperLoop bs settings sa)))
  /\ (List.length (events (snd (resolveBumperLoop bs settings sa)))
      <= List.length (events (snd sa)) + List.length bs)%nat.
Proof.
  revert sa. induction bs as [ | b rest IH ]; intros sa Hsub HF.
  - cbn. split; [ exact HF | lia ].
  - unfold resolveBumperLoop in *. cbn [fold_left].
    set (sa1 := resolveBumperCollision b (fst sa) (snd sa) settings).
    assert (H1 : Forall (eventFrom all) (events (snd sa1))
                 /\ (List.length (events (snd sa1))
                     <= S (List.length (events (snd sa))))%nat).
    { unfold sa1, resolveBumperCollision.
      destruct (bumperHit b (fst sa) settings) as [ [st' ev] | ] eqn:E; cbn [snd].
      - apply bumperHit_response in E as (Hid & Hk & _). split.
        + apply appendCollision_Forall; [ | exact HF ].
          right. split; [ exact Hk | ]. rewrite Hid. apply in_map, Hsub. left.
          reflexivity.
        + apply appendCollision_length.
      - split; [ exact HF | lia ]. }
    destruct H1 as [HF1 HL1].
    destruct (IH sa1) as [HF2 HL2]; [ intros b' Hb'; apply Hsub; right; exact Hb' | exact HF1 | ].
    split; [ exact HF2 | cbn [List.length]; lia ].
Qed.

(** A step returns at most two wall events and one event per bumper; every
    event is a wall event with one of the four wall ids, or a bumper event
    carrying the id of one of the bumpers given to the step. *)
Theorem stepBall_events_origin (st : BallState) (bs : list ResolvedBumper)
    (dt : R) (settings : StepSettings) :
  Forall (eventFrom bs) (collisions (stepBall st bs dt settings))
  /\ (List.length (collisions (stepBall st bs dt settings))
      <= 2 + List.length bs)%nat
  /\ (List.length (collisions (stepBall st [] dt settings)) <= 2)%nat.
Proof.
  assert (H : forall l, Forall (eventFrom l) (collisions (stepBall st l dt settings))
                        /\ (List.length (collisions (stepBall st l dt settings))
                            <= 2 + List.length l)%nat).
  { intros l. unfold stepBall. cbn [collisions].
    destruct (resolveWallCollisions_events l (predict st dt settings) settings)
      as [HF HL].
    destruct (resolveBumperLoop_events l l settings
                (resolveWallCollisions (predict st dt settings) settings
                   emptyAccumulator) (fun b Hb => Hb) HF) as [HF2 HL2].
    split; [ exact HF2 | lia ]. }
  split; [ apply H | split; [ apply H | ] ].
  destruct (H []) as [_ HL]. cbn [List.length] in HL. lia.
Qed.

(** ** Where a contact leaves the ball *)

Lemma scale_normalize_radius (diff : Vec2) (r : R) :
  length diff <> 0 ->
  add diff (scale (normalize diff) (r - length diff)) = scale (normalize diff) r.
Proof.
  intros Hn. unfold normalize. cmp_cases; [ done | ].
  apply vec_eq; unfold add, scale; cbn [x y]; field; assumption.
Qed.

Lemma pushed_position (p q diff n : Vec2) (pen r : R) :
  diff = sub p q -> add diff (scale n pen) = scale n r ->
  add p (scale n pen) = add q (scale n r).
Proof.
  intros -> H. apply (f_equal x) in H as Hx. apply (f_equal y) in H as Hy.
  unfold add, scale, sub in *; cbn [x y] in *.
  apply vec_eq; cbn [x y]; lra.
Qed.

Lemma edgeCheck_contact (id : string) (st : BallState) (settings : StepSettings)
    (edge : Edge) (st' : BallState) (ev : CollisionEvent) :
  edgeCheck id st settings edge = Some (st', ev) ->
  ev_point ev = closestPointOnSegment (position st) edge
  /\ 0 < ballRadius settings
  /\ position st' = add (ev_point ev) (scale (ev_normal ev) (ballRadius settings)).
Proof.
  unfold edgeCheck.
  set (nearest := closestPointOnSegment (position st) edge).
  set (diff := sub (position st) nearest).
  cmp_cases; cbn [andb]; intros H; try discriminate.
  injection H as <- <-. cbn [ev_point ev_normal position].
  pose proof (length_nonneg diff).
  split; [ reflexivity | split; [ lra | ] ].
  apply (pushed_position _ _ diff); [ reflexivity | ].
  apply scale_normalize_radius. assumption.
Qed.

Lemma vertexCheck_contact (id : string) (st : BallState) (settings : StepSettings)
    (vertex : Vec2) (st' : BallState) (ev : CollisionEvent) :
  vertexCheck id st settings vertex = Some (st', ev) ->
  ev_point ev = vertex
  /\ 0 < ballRadius settings
  /\ position st' = add (ev_point ev) (scale (ev_normal ev) (ballRadius settings)).
Proof.
  unfold vertexCheck.
  set (diff := sub (position st) vertex).
  cmp_cases; cbn [andb]; intros H; try discriminate.
  injection H as <- <-. cbn [ev_point ev_normal position].
  assert (Hlen : length diff <> 0).
  { intros Hz. apply length_zero_iff in Hz. rewrite Hz, dot_zeroVec_r in Hcmp0. lra. }
  pose proof (length_nonneg diff).
  split; [ reflexivity | split; [ lra | ] ].
  apply (pushed_position _ _ diff); [ reflexivity | ].
  apply scale_normalize_radius. assumption.
Qed.

(** A contact with a bumper leaves the ball centre on the reported normal,
    exactly one radius away from the reported contact point, which is the
    closest point of an edge of the bumper or one of its vertices; with a
    positive damping the ball then moves away from the surface. *)
Theorem bumperHit_contact_geometry (b : ResolvedBumper) (st : BallState)
    (settings : StepSettings) (st' : BallState) (ev : CollisionEvent) :
  bumperHit b st settings = Some (st', ev) ->
  position st' = add (ev_point ev) (scale (ev_normal ev) (ballRadius settings))
  /\ length (sub (position st') (ev_point ev)) = ballRadius settings
  /\ ((exists edge, In edge (buildEdges (rb_vertices b))
                    /\ ev_point ev = closestPointOnSegment (position st) edge)
      \/ In (ev_point ev) (rb_vertices b))
  /\ (0 < damping settings -> 0 < dot (velocity st') (ev_normal ev)).
Proof.
  intros Hhit. pose proof (bumperHit_response _ _ _ _ _ Hhit) as (_ & _ & Hresp).
  assert (Hgeo : 0 < ballRadius settings
            /\ position st' = add (ev_point ev) (scale (ev_normal ev) (ballRadius settings))
            /\ ((exists edge, In edge (buildEdges (rb_vertices b))
                    /\ ev_point ev = closestPointOnSegment (position st) edge)
                \/ In (ev_point ev) (rb_vertices b))).
  { unfold bumperHit in Hhit.
    destruct (edgeLoop (rb_id b) st settings (buildEdges (rb_vertices b)))
      as [ h | ] eqn:E.
    - injection Hhit as ->. apply edgeLoop_Some in E as (edge & Hin & He).
      apply edgeCheck_contact in He as (Hp & Hr & Hpos).
      split; [ exact Hr | split; [ exact Hpos | left; exists edge; split; assumption ] ].
    - apply vertexLoop_Some in Hhit as (vertex & Hin & Hv).
      apply vertexCheck_contact in Hv as (Hp & Hr & Hpos).
      split; [ exact Hr | split; [ exact Hpos | right; rewrite Hp; exact Hin ] ]. }
  destruct Hgeo as (Hr & Hpos & Hpt).
  split; [ exact Hpos | split; [ | split; [ exact Hpt | ] ] ].
  - rewrite Hpos.
    replace (sub (add (ev_point ev) (scale (ev_normal ev) (ballRadius settings)))
               (ev_point ev))
      with (scale (ev_normal ev) (ballRadius settings))
      by (apply vec_eq; unfold sub, add, scale; cbn [x y]; ring).
    rewrite length_scale.
    destruct Hresp as (Hunit & _). rewrite (length_one_of_sqr _ Hunit).
    rewrite Rabs_right by lra. ring.
  - intros Hd. destruct (contactResponse_bounce _ _ _ _ Hresp) as [Hneg Heq].
    rewrite Heq. nra.
Qed.

Lemma edgeCheck_hits (id : string) (st : BallState) (settings : StepSettings)
    (edge : Edge) (diff : Vec2) :
  sub (position st) (closestPointOnSegment (position st) edge) = diff ->
  length diff <> 0 -> length diff < ballRadius settings ->
  dot (velocity st) (normalize diff) < 0 ->
  exists hit, edgeCheck id st settings edge = Some hit.
Proof.
  intros Hd Hn Hr Hv. unfold edgeCheck. rewrite Hd.
  rewrite (proj2 (Reqb_false _ _) Hn), (proj2 (Rltb_true _ _) Hr),
    (proj2 (Rltb_true _ _) Hv).
  cbn [andb]. eexists. reflexivity.
Qed.

Lemma length_vertical (a : R) : length {| x := 0; y := a |} = Rabs a.
Proof.
  unfold length; simpl. replace (0 * 0 + a * a) with (Rsqr a) by (unfold Rsqr; ring).
  apply sqrt_Rsqr_abs.
Qed.

Lemma squareBumper_hit :
  exists st' ev, bumperHit squareBumper fallingBall getPhysicsSettings = Some (st', ev).
Proof.
  unfold bumperHit, buildEdges. cbn [rb_vertices squareBumper List.length seq map].
  cbn [edgeLoop]. simpl (nth _ _ _).
  set (top := {| e_from := {| x := 80; y := 80 |}; e_to := {| x := 120; y := 80 |};
                 e_normal := _ |}).
  assert (Hd : sub (position fallingBall)
                 (closestPointOnSegment (position fallingBall) top)
               = {| x := 0; y := -10 |}).
  { unfold closestPointOnSegment, segLenSq, clamp, fallingBall, top.
    cbn [position e_from e_to]. unfold sub, dot, add, scale. cbn [x y].
    replace ((120 - 80) * (120 - 80) + (80 - 80) * (80 - 80)) with 1600 by lra.
    replace ((100 - 80) * (120 - 80) + (70 - 80) * (80 - 80)) with 800 by lra.
    rewrite (Rmax_left 1600) by lra.
    rewrite Rmin_right by lra. rewrite Rmax_right by lra.
    apply vec_eq; cbn [x y]; lra. }
  assert (Hl : length {| x := 0; y := -10 |} = 10)
    by (rewrite length_vertical, Rabs_left; lra).
  destruct (edgeCheck_hits "square" fallingBall getPhysicsSettings top _ Hd)
    as [ [st' ev] Hhit ].
  - rewrite Hl. lra.
  - rewrite Hl. simpl. lra.
  - rewrite dot_normalize_r by (rewrite Hl; lra). rewrite Hl.
    unfold dot, fallingBall; simpl. lra.
  - exists st', ev. cbn [rb_id squareBumper]. rewrite Hhit. reflexivity.
Qed.

Lemma bumperHit_contact_geometry_witness :
  exists st' ev,
    bumperHit squareBumper fallingBall getPhysicsSettings = Some (st', ev)
    /\ length (sub (position st') (ev_point ev)) = 14
    /\ 0 < dot (velocity st') (ev_normal ev).
Proof.
  destruct squareBumper_hit as (st' & ev & Hhit).
  exists st', ev. split; [ exact Hhit | ].
  destruct (bumperHit_contact_geometry squareBumper fallingBall getPhysicsSettings
              st' ev Hhit) as (_ & Hr & _ & Hv).
  split; [ exact Hr | apply Hv; simpl; lra ].
Defined.

(** ** The preview and its two budgets *)

Lemma simulateLoop_extends (level : LevelConfig) (dt : R) (cap : Z)
    (settings : StepSettings) (n : nat) (st : BallState) (time : R) (count : Z)
    (points : list Vec2) :
  points `prefix_of` simulateLoop level dt cap settings n st time count points
  /\ (List.length (simulateLoop level dt cap settings n st time count points)
      <= List.length points + n)%nat.
Proof.
  revert st time count points. induction n as [ | n IH ]; intros st time count points.
  - cbn. split; [ reflexivity | lia ].
  - cbn [simulateLoop]. cbv zeta.
    set (pts := points ++ [_]).
    assert (Hp : points `prefix_of` pts) by (apply prefix_app_r; reflexivity).
    assert (Hl : List.length pts = S (List.length points))
      by (unfold pts; rewrite length_app; cbn; lia).
    destruct (_ >=? _)%Z.
    + split; [ exact Hp | lia ].
    + match goal with
      | |- context [ simulateLoop _ _ _ _ n ?s ?t ?c pts ] =>
          destruct (IH s t c pts) as [H1 H2]
      end.
      split; [ etransitivity; eassumption | lia ].
Qed.

Lemma simulateLoop_prefix_mono (level : LevelConfig) (dt : R) (cap cap' : Z)
    (settings : StepSettings) (n n' : nat) (st : BallState) (time : R) (count : Z)
    (points : list Vec2) :
  (n <= n')%nat -> (cap <= cap')%Z ->
  simulateLoop level dt cap settings n st time count points
  `prefix_of` simulateLoop level dt cap' settings n' st time count points.
Proof.
  intros Hn Hc. revert n' Hn st time count points.
  induction n as [ | n IH ]; intros n' Hn st time count points.
  - cbn [simulateLoop]. apply simulateLoop_extends.
  - destruct n' as [ | n' ]; [ lia | ].
    cbn [simulateLoop]. cbv zeta.
    set (pts := points ++ [_]).
    set (k := if (_ >? 0)%Z then _ else count).
    destruct (k >=? cap)%Z eqn:E1; destruct (k >=? cap')%Z eqn:E2.
    + reflexivity.
    + apply simulateLoop_extends.
    + lia.
    + apply IH. lia.
Qed.

(** The preview never has more points than its step budget, has at least one
    point when the budget is not zero, and shrinking either budget (steps or
    collision cap) only cuts the end of the path: the shorter preview is a
    prefix of the longer one. *)
Theorem simulateTrajectory_prefix_mono (start : BallState) (level : LevelConfig)
    (initialTime dt : R) (steps steps' : nat) (cap cap' : Z)
    (settings : StepSettings) :
  (steps <= steps')%nat -> (cap <= cap')%Z ->
  simulateTrajectory start level initialTime dt steps cap settings
  `prefix_of` simulateTrajectory start level initialTime dt steps' cap' settings
  /\ (Nat.min 1 steps
      <= List.length (simulateTrajectory start level initialTime dt steps cap settings)
      <= steps)%nat.
Proof.
  intros Hn Hc. unfold simulateTrajectory. split.
  - apply simulateLoop_prefix_mono; assumption.
  - split.
    + destruct steps as [ | n ]; [ cbn; lia | ].
      cbn [simulateLoop]. cbv zeta.
      set (pts := [] ++ [_]).
      assert (Hl : List.length pts = 1%nat) by reflexivity.
      destruct (_ >=? _)%Z; [ rewrite Hl; lia | ].
      match goal with
      | |- context [ simulateLoop _ _ _ _ n ?s ?t ?c pts ] =>
          destruct (simulateLoop_extends level dt cap settings n s t c pts)
            as [H1 _]
      end.
      apply prefix_length in H1. rewrite Hl in H1. lia.
    + match goal with
      | |- context [ simulateLoop _ _ _ _ steps ?s ?t ?c [] ] =>
          destruct (simulateLoop_extends level dt cap settings steps s t c [])
            as [_ H2]
      end.
      cbn [List.length] in H2. lia.
Qed.

Lemma simulateTrajectory_prefix_mono_witness :
  simulateTrajectory restBall emptyLevel 0 (1 / 60) 30 3 getPhysicsSettings
  `prefix_of` simulateTrajectory restBall emptyLevel 0 (1 / 60) 90 3 getPhysicsSettings.
Proof.
  apply (simulateTrajectory_prefix_mono restBall emptyLevel 0 (1 / 60) 30 90 3 3
           getPhysicsSettings); lia.
Defined.

Lemma stepBall_events_count (st : BallState) (bs : list ResolvedBumper) (dt : R)
    (settings : StepSettings) :
  (List.length (collisions (stepBall st bs dt settings)) <= 2 + List.length bs)%nat.
Proof.
  unfold stepBall. cbn [collisions].
  destruct (resolveWallCollisions_events bs (predict st dt settings) settings)
    as [HF HL].
  destruct (resolveBumperLoop_events bs bs settings
              (resolveWallCollisions (predict st dt settings) settings
                 emptyAccumulator) (fun b Hb => Hb) HF) as [_ HL2].
  lia.
Qed.

Lemma simulateLoop_full (level : LevelConfig) (dt : R) (cap : Z)
    (settings : StepSettings) (n : nat) (st : BallState) (time : R) (count : Z)
    (points : list Vec2) :
  (count + Z.of_nat n * (2 + Z.of_nat (List.length (bumpers level))) < cap)%Z ->
  List.length (simulateLoop level dt cap settings n st time count points)
  = (List.length points + n)%nat.
Proof.
  revert st time count points. induction n as [ | n IH ]; intros st time count points H.
  - cbn. lia.
  - cbn [simulateLoop]. cbv zeta.
    pose proof (stepBall_events_count st (resolveBumpers level time) dt settings) as Hc.
    unfold resolveBumpers in Hc at 2. rewrite length_map in Hc.
    set (len := Z.of_nat (List.length (collisions
                  (stepBall st (resolveBumpers level time) dt settings)))) in *.
    set (k := if (len >? 0)%Z then (count + len)%Z else count).
    assert (Hk : (k <= count + (2 + Z.of_nat (List.length (bumpers level))))%Z)
      by (unfold k; destruct (len >? 0)%Z; lia).
    destruct (k >=? cap)%Z eqn:E; [ lia | ].
    rewrite IH by lia. rewrite length_app. cbn. lia.
Qed.

(** When the collision cap is larger than the number of events the budget of
    steps can produce at all (two walls and each bumper once per step), the
    preview runs the full budget: it has exactly [steps] points. *)
Theorem simulateTrajectory_full_budget (start : BallState) (level : LevelConfig)
    (initialTime dt : R) (steps : nat) (cap : Z) (settings : StepSettings) :
  (Z.of_nat steps * (2 + Z.of_nat (List.length (bumpers level))) < cap)%Z ->
  List.length (simulateTrajectory start level initialTime dt steps cap settings)
  = steps.
Proof.
  intros H. unfold simulateTrajectory. rewrite simulateLoop_full by lia.
  reflexivity.
Qed.

Lemma simulateTrajectory_full_budget_witness :
  List.length (simulateTrajectory scenario1Ball emptyLevel 0 (1 / 60) 1 3
                 getPhysicsSettings) = 1%nat.
Proof.
  apply (simulateTrajectory_full_budget scenario1Ball emptyLevel 0 (1 / 60) 1 3
           getPhysicsSettings).
  cbn. lia.
Defined.

(** * Properties of the callers *)

(** ** Screen and world coordinates *)

Lemma clamp_id (v lo hi : R) : lo <= v <= hi -> clamp v lo hi = v.
Proof.
  intros H. unfold clamp. rewrite Rmin_right by lra. apply Rmax_right. lra.
Qed.

Lemma clamp_range (v lo hi : R) : lo <= hi -> lo <= clamp v lo hi <= hi.
Proof.
  intros H. unfold clamp, Rmax, Rmin. repeat destruct (Rle_dec _ _); lra.
Qed.

Lemma ratio_unit (a b : R) : 0 < b -> 0 <= a <= b -> 0 <= a / b <= 1.
Proof.
  intros Hb Ha. pose proof (Rinv_0_lt_compat b Hb) as Hi.
  assert (Hbi : b * / b = 1) by (apply Rinv_r; lra).
  unfold Rdiv. split; [ apply Rmult_le_pos; lra | ].
  rewrite <- Hbi. apply Rmult_le_compat_r; lra.
Qed.

(** On a field with a positive width and height, a touch is always converted
    to a point of the world rectangle, and a touch inside the field converts
    back to itself. *)
Theorem convertToWorld_round_trip (layout : LayoutRectangle) (locationX locationY : R) :
  0 < width layout -> 0 < height layout ->
  exists p, convertToWorld (Some layout) locationX locationY = Some p
    /\ 0 <= x p <= WORLD_WIDTH /\ 0 <= y p <= WORLD_HEIGHT
    /\ (0 <= locationX <= width layout -> 0 <= locationY <= height layout ->
        convertToScreen (Some layout) p = {| x := locationX; y := locationY |}).
Proof.
  intros Hw Hh. eexists. split; [ reflexivity | ]. cbn [x y].
  assert (HW : 0 <= WORLD_WIDTH) by (unfold WORLD_WIDTH; lra).
  assert (HH : 0 <= WORLD_HEIGHT) by (unfold WORLD_HEIGHT; lra).
  split; [ apply clamp_range; exact HW | split; [ apply clamp_range; exact HH | ] ].
  intros Hx Hy. unfold convertToScreen. cbn [x y].
  rewrite (clamp_id locationX), (clamp_id locationY) by assumption.
  pose proof (ratio_unit locationX (width layout) Hw Hx) as Hqx.
  pose proof (ratio_unit locationY (height layout) Hh Hy) as Hqy.
  rewrite !clamp_id by (unfold WORLD_WIDTH, WORLD_HEIGHT in *; split; nra).
  apply vec_eq; cbn [x y]; unfold WORLD_WIDTH, WORLD_HEIGHT; field; lra.
Qed.

Lemma convertToWorld_round_trip_witness :
  exists p, convertToWorld (Some phoneLayout) 135 120 = Some p
    /\ convertToScreen (Some phoneLayout) p = {| x := 135; y := 120 |}.
Proof.
  assert (Hw : 0 < width phoneLayout) by (simpl; lra).
  assert (Hh : 0 < height phoneLayout) by (simpl; lra).
  destruct (convertToWorld_round_trip phoneLayout 135 120 Hw Hh)
    as (p & Hp & _ & _ & Hback).
  exists p. split; [ exact Hp | apply Hback; simpl; lra ].
Defined.

(** ** The launch *)

Lemma dragVelocity_speed (dragVec : Vec2) :
  length dragVec <> 0 ->
  length (dragVelocity dragVec) = Rmin (length dragVec) 160 / 160 * 520
  /\ dragVelocity dragVec
     = scale dragVec (- (Rmin (length dragVec) 160 / 160 * 520 / length dragVec)).
Proof.
  intros Hn. pose proof (length_nonneg dragVec) as Hl.
  assert (Hc : clamp (length dragVec) 0 160 = Rmin (length dragVec) 160).
  { unfold clamp. rewrite (Rmin_comm 160). apply Rmax_right.
    apply Rmin_glb; lra. }
  assert (Hm : 0 <= Rmin (length dragVec) 160) by (apply Rmin_glb; lra).
  unfold dragVelocity. cbv zeta. rewrite Hc. split.
  - rewrite length_scale, (length_one_of_sqr _ (normalize_unit _ Hn)).
    rewrite Rabs_left1 by lra. lra.
  - unfold normalize. cmp_cases; [ done | ].
    apply vec_eq; unfold scale; cbn [x y]; field; assumption.
Qed.

Lemma convertToWorld_phone :
  convertToWorld (Some phoneLayout) 135 120 = Some {| x := 180; y := 160 |}.
Proof.
  unfold convertToWorld, phoneLayout, WORLD_WIDTH, WORLD_HEIGHT. cbn [width height].
  rewrite (clamp_id 135), (clamp_id 120) by lra.
  rewrite !clamp_id by lra.
  f_equal. apply vec_eq; cbn [x y]; lra.
Qed.

(** The release of a drag.  It never moves the ball and does nothing unless
    the game is in ['aim'].  In ['aim'], without a touch point, without a drag
    in progress, or for a drag shorter than 6, nothing is launched: the drag
    is dropped and the preview cleared.  Otherwise the game goes to
    ['playing'] with the bounce count and the idle timer at zero, and the ball
    leaves against the drag at a speed proportional to the drag length capped
    at 160: between 19.5 and 520, below the speed cap of the game. *)
Theorem onPanResponderRelease_launch (fieldLayout : option LayoutRectangle)
    (locationX locationY : R) (refs : GameRefs) :
  let refs' := onPanResponderRelease fieldLayout locationX locationY refs in
  let dragTo (touch : Vec2) : Vec2 :=
    {| x := x touch - x (position (ballRef refs));
       y := y touch - y (position (ballRef refs)) |} in
  position (ballRef refs') = position (ballRef refs)
  /\ (statusRef refs <> StatusAim -> refs' = refs)
  /\ (statusRef refs = StatusAim ->
      convertToWorld fieldLayout locationX locationY = None
      \/ dragVectorRef refs = None
      \/ (exists touch,
            convertToWorld fieldLayout locationX locationY = Some touch
            /\ length (dragTo touch) < 6) ->
      statusRef refs' = StatusAim
      /\ ballRef refs' = ballRef refs
      /\ movingRef refs' = movingRef refs
      /\ dragVectorRef refs' = None
      /\ trajectory refs' = [])
  /\ (forall touch,
        statusRef refs = StatusAim ->
        convertToWorld fieldLayout locationX locationY = Some touch ->
        dragVectorRef refs <> None ->
        6 <= length (dragTo touch) ->
        let v := velocity (ballRef refs') in
        statusRef refs' = StatusPlaying
        /\ movingRef refs' = true
        /\ bounceCountRef refs' = 0%Z
        /\ idleTimerRef refs' = 0
        /\ trajectory refs' = []
        /\ length v = Rmin (length (dragTo touch)) 160 / 160 * 520
        /\ 19.5 <= length v <= 520
        /\ length v <= maxSpeed getPhysicsSettings
        /\ exists k, 0 < k /\ v = scale (dragTo touch) (- k)).
Proof.
  intros refs' dragTo. unfold refs', onPanResponderRelease.
  destruct (statusRef refs) eqn:Hs;
    try (split; [ reflexivity
                | split; [ intros _; reflexivity
                         | split; [ intros H; discriminate
                                  | intros touch H; discriminate ] ] ]).
  destruct (convertToWorld fieldLayout locationX locationY) as [ touch | ] eqn:Hw;
    destruct (dragVectorRef refs) as [ d | ] eqn:Hd;
    try (split; [ reflexivity
                | split; [ intros H; exfalso; apply H; reflexivity
                         | split; [ intros _ _; repeat split
                                  | intros t _ Ht Hn; first [ discriminate
                                                            | exfalso; apply Hn; reflexivity ] ] ] ]).
  cbv zeta. change {| x := x touch - x (position (ballRef refs));
                      y := y touch - y (position (ballRef refs)) |}
              with (dragTo touch).
  destruct (length (dragTo touch) <? 6) eqn:E.
  - apply Rltb_true in E.
    split; [ reflexivity | ].
    split; [ intros H; exfalso; apply H; reflexivity | ].
    split; [ intros _ _; repeat split | ].
    intros t _ Ht _ H6. injection Ht as <-. lra.
  - apply Rltb_false in E.
    split; [ reflexivity | ].
    split; [ intros H; exfalso; apply H; reflexivity | ].
    split.
    + intros _ [ H | [ H | (t & Ht & Hl) ] ]; try discriminate.
      injection Ht as <-. lra.
    + intros t _ Ht _ _. injection Ht as <-. cbn [statusRef movingRef
        bounceCountRef idleTimerRef trajectory ballRef velocity].
      assert (Hn : length (dragTo touch) <> 0) by lra.
      destruct (dragVelocity_speed (dragTo touch) Hn) as [Hsp Hv].
      assert (Hm : 6 <= Rmin (length (dragTo touch)) 160 <= 160).
      { split; [ apply Rmin_glb; lra | apply Rmin_r ]. }
      repeat (split; [ reflexivity | ]).
      split; [ exact Hsp | ].
      rewrite Hsp. cbn [maxSpeed getPhysicsSettings].
      split; [ lra | split; [ lra | ] ].
      exists (Rmin (length (dragTo touch)) 160 / 160 * 520 / length (dragTo touch)).
      split; [ | exact Hv ].
      apply Rdiv_lt_0_compat; lra.
Qed.

Lemma onPanResponderRelease_launch_witness :
  (statusRef (onPanResponderRelease (Some phoneLayout) 135 120 aimingRefs)
   = StatusPlaying
   /\ 19.5 <= length (velocity (ballRef (onPanResponderRelease (Some phoneLayout)
                                           135 120 aimingRefs))) <= 520)
  /\ dragVectorRef (onPanResponderRelease None 135 120 aimingRefs) = None
  /\ onPanResponderRelease (Some phoneLayout) 135 120 playingRefs = playingRefs.
Proof.
  assert (H6 : 6 <= length {| x := 180 - x (position (ballRef aimingRefs));
                              y := 160 - y (position (ballRef aimingRefs)) |}).
  { cbn [aimingRefs ballRef position x y].
    replace (180 - 180) with 0 by lra. rewrite length_vertical.
    rewrite Rabs_left by lra. lra. }
  assert (Hd : dragVectorRef aimingRefs <> None) by discriminate.
  destruct (proj2 (proj2 (proj2 (onPanResponderRelease_launch (Some phoneLayout)
                                   135 120 aimingRefs)))
              {| x := 180; y := 160 |} eq_refl convertToWorld_phone Hd H6)
    as (Hst & _ & _ & _ & _ & _ & Hsp & _).
  destruct (onPanResponderRelease_launch None 135 120 aimingRefs)
    as (_ & _ & Hdrop & _).
  destruct (onPanResponderRelease_launch (Some phoneLayout) 135 120 playingRefs)
    as (_ & Hidle & _).
  split; [ split; [ exact Hst | exact Hsp ] | split ].
  - apply Hdrop; [ reflexivity | left; reflexivity ].
  - apply Hidle. discriminate.
Defined.

(** ** The sub-steps of a frame *)

Lemma cappedDt_range (dtMs : R) : 0 <= cappedDt dtMs <= 0.05.
Proof.
  unfold cappedDt. split.
  - apply Rmin_glb; [ apply Rmax_r | lra ].
  - apply Rmin_r.
Qed.

Lemma stepBall_speed_le (st : BallState) (bs : list ResolvedBumper) (dt : R)
    (settings : StepSettings) :
  0 < damping settings <= 1 -> 0 < maxSpeed settings ->
  length (velocity (state (stepBall st bs dt settings))) <= maxSpeed settings.
Proof.
  intros Hd Hm. apply length_le_of_sqr; [ lra | ].
  unfold stepBall. cbn [state].
  pose proof (resolveBumperLoop_speedSq bs settings
                (resolveWallCollisions (predict st dt settings) settings emptyAccumulator)
                Hd) as H1.
  pose proof (resolveWallCollisions_speedSq (predict st dt settings) settings
                emptyAccumulator Hd) as H2.
  pose proof (sqr_le_of_length _ _ (predict_capped st dt settings Hm)) as H3.
  unfold speedSq in *. lra.
Qed.

(** The loop with [n] sub-steps' worth of time left finishes within [n + 1]
    tests of its condition, keeping any invariant [P] of the ball that every
    step of at most 1/240 s keeps, and recording at most [2 + bumpers] events
    per sub-step. *)
Lemma subStepLoop_finishes (P : BallState -> Prop) (level : LevelConfig)
    (settings : StepSettings) :
  (forall st bs dt, 0 < dt <= 1 / 240 -> P st ->
                    P (state (stepBall st bs dt settings))) ->
  forall (n : nat) (ball : BallState) (remaining subStepTime : R)
         (acc : list CollisionEvent),
    remaining <= INR n / 240 -> P ball ->
    exists ball' evs,
      subStepLoop (S n) level settings ball remaining subStepTime acc
      = Some (ball', evs)
      /\ P ball'
      /\ (List.length evs
          <= List.length acc + n * (2 + List.length (bumpers level)))%nat.
Proof.
  intros HP n. induction n as [ | n IH ]; intros ball remaining t acc Hr Hb.
  - cbn [subStepLoop]. cbn [INR] in Hr.
    rewrite (proj2 (Rgtb_false remaining 0.00001)) by lra.
    exists ball, acc. split; [ reflexivity | split; [ exact Hb | lia ] ].
  - cbn [subStepLoop]. cbv zeta.
    destruct (remaining >? 0.00001) eqn:E.
    + apply Rgtb_true in E.
      set (stepDt := Rmin remaining (1 / 240)).
      assert (Hdt : 0 < stepDt <= 1 / 240).
      { unfold stepDt. split; [ apply Rmin_glb_lt; lra | apply Rmin_r ]. }
      assert (Hrem : remaining - stepDt <= INR n / 240).
      { rewrite S_INR in Hr. unfold stepDt, Rmin.
        destruct (Rle_dec remaining (1 / 240)).
        - pose proof (pos_INR n). lra.
        - lra. }
      set (result := stepBall ball (resolveBumpers level (t + stepDt)) stepDt settings).
      destruct (IH (state result) (remaining - stepDt) (t + stepDt)
                  (acc ++ collisions result) Hrem (HP _ _ _ Hdt Hb))
        as (ball' & evs & Hrun & HP' & Hlen).
      exists ball', evs. split; [ exact Hrun | split; [ exact HP' | ] ].
      rewrite length_app in Hlen.
      pose proof (stepBall_events_count ball (resolveBumpers level (t + stepDt))
                    stepDt settings) as Hc.
      fold result in Hc.
      assert (Hb' : List.length (resolveBumpers level (t + stepDt))
                    = List.length (bumpers level))
        by (unfold resolveBumpers; apply length_map).
      rewrite Hb' in Hc. lia.
    + exists ball, acc. split; [ reflexivity | split; [ exact Hb | lia ] ].
Qed.

(** Whatever time the frame clock measured, the loop of sub-steps of a frame
    ends after at most 12 steps (13 tests of its condition), with at most
    [12 * (2 + bumpers)] events recorded. *)
Theorem frame_substeps_terminate (dtMs : R) (level : LevelConfig)
    (settings : StepSettings) (ball : BallState) (frameStartTime : R) :
  0 <= cappedDt dtMs <= 0.05
  /\ exists ball' evs,
       subStepLoop 13 level settings ball (cappedDt dtMs) frameStartTime []
       = Some (ball', evs)
       /\ (List.length evs <= 12 * (2 + List.length (bumpers level)))%nat.
Proof.
  pose proof (cappedDt_range dtMs) as Hc. split; [ exact Hc | ].
  destruct (subStepLoop_finishes (fun _ => True) level settings
              (fun _ _ _ _ _ => I) 12 ball (cappedDt dtMs) frameStartTime [])
    as (ball' & evs & Hrun & _ & Hlen).
  - simpl. lra.
  - exact I.
  - exists ball', evs. split; [ exact Hrun | cbn [List.length] in Hlen; lia ].
Qed.

(** With [0 < damping <= 1] and a positive speed cap, a ball that enters a
    frame no faster than the cap leaves it no faster than the cap. *)
Theorem frame_substeps_speed_cap (dtMs : R) (level : LevelConfig)
    (settings : StepSettings) (ball : BallState) (frameStartTime : R) :
  0 < damping settings <= 1 -> 0 < maxSpeed settings ->
  length (velocity ball) <= maxSpeed settings ->
  exists ball' evs,
    subStepLoop 13 level settings ball (cappedDt dtMs) frameStartTime []
    = Some (ball', evs)
    /\ length (velocity ball') <= maxSpeed settings.
Proof.
  intros Hd Hm Hb. pose proof (cappedDt_range dtMs) as Hc.
  destruct (subStepLoop_finishes
              (fun st => length (velocity st) <= maxSpeed settings) level settings
              (fun st bs dt _ _ => stepBall_speed_le st bs dt settings Hd Hm)
              12 ball (cappedDt dtMs) frameStartTime [])
    as (ball' & evs & Hrun & HP & _).
  - simpl. lra.
  - exact Hb.
  - exists ball', evs. split; [ exact Hrun | exact HP ].
Qed.

Lemma frame_substeps_speed_cap_witness :
  exists ball' evs,
    subStepLoop 13 emptyLevel getPhysicsSettings scenario1Ball (cappedDt 16) 0 []
    = Some (ball', evs)
    /\ length (velocity ball') <= 900.
Proof.
  apply (frame_substeps_speed_cap 16 emptyLevel getPhysicsSettings scenario1Ball 0).
  - simpl; lra.
  - simpl; lra.
  - cbn [velocity scenario1Ball maxSpeed getPhysicsSettings].
    rewrite length_horizontal, Rabs_left; lra.
Defined.

(** * Properties of the skins and of the progress store *)

(** Looking a skin up by its id returns the entry of [SKINS] with that id:
    the fall-back on the first entry is never taken, and the default skin
    costs nothing. *)
Theorem getSkinDefinition_id (skinId : SkinId) :
  sk_id (getSkinDefinition skinId) = skinId
  /\ In (getSkinDefinition skinId) SKINS
  /\ cost (getSkinDefinition DEFAULT_SKIN_ID) = 0
  /\ NoDup (map sk_id SKINS).
Proof.
  repeat split.
  - destruct skinId; reflexivity.
  - destruct skinId; cbn; tauto.
  - apply NoDup_ListNoDup. repeat constructor; cbn; intuition discriminate.
Qed.

Lemma includes_true (l : list SkinId) (s : SkinId) : includes l s = true <-> s ∈ l.
Proof. unfold includes. apply bool_decide_eq_true. Qed.

Lemma includes_false (l : list SkinId) (s : SkinId) : includes l s = false <-> s ∉ l.
Proof. unfold includes. apply bool_decide_eq_false. Qed.

Lemma dedupe_spec (seen l : list SkinId) :
  NoDup (dedupe seen l)
  /\ (forall s, s ∈ dedupe seen l <-> s ∈ l /\ s ∉ seen).
Proof.
  revert seen. induction l as [ | a rest IH ]; intros seen; cbn [dedupe].
  - split; [ constructor | ]. intros s. split; [ intros H; inversion H | ].
    intros [H _]. inversion H.
  - destruct (includes seen a) eqn:E.
    + apply includes_true in E. destruct (IH seen) as [Hnd Hmem].
      split; [ exact Hnd | ]. intros s. rewrite Hmem, elem_of_cons.
      split; [ tauto | ]. intros [[-> | H] Hs]; [ contradiction | tauto ].
    + apply includes_false in E. destruct (IH (a :: seen)) as [Hnd Hmem].
      split.
      * constructor; [ | exact Hnd ]. rewrite Hmem, elem_of_cons. tauto.
      * intros s. rewrite !elem_of_cons, Hmem, elem_of_cons.
        destruct (decide (s = a)) as [ -> | Hne ]; tauto.
Qed.

Lemma dedupe_NoDup_id (seen l : list SkinId) :
  NoDup l -> (forall s, s ∈ l -> s ∉ seen) -> dedupe seen l = l.
Proof.
  revert seen. induction l as [ | a rest IH ]; intros seen Hnd Hdis; [ reflexivity | ].
  cbn [dedupe]. apply NoDup_cons in Hnd as [Ha Hnd].
  rewrite (proj2 (includes_false seen a)) by (apply Hdis; left).
  f_equal. apply IH; [ exact Hnd | ].
  intros s Hs. rewrite elem_of_cons. intros [ -> | Hin ]; [ contradiction | ].
  apply (Hdis s); [ right; exact Hs | exact Hin ].
Qed.

(** Whatever is read back from the storage, [sanitizeState] returns a
    well-formed state; a well-formed state that was stored is read back
    unchanged. *)
Theorem sanitizeState_wellFormed (raw : PartialGameState) (st : GameState) :
  wellFormed (sanitizeState raw)
  /\ (wellFormed st -> sanitizeState (stored st) = st).
Proof.
  split.
  - unfold sanitizeState, wellFormed. cbn [coins highestUnlockedLevel totalWins
      lastPlayedLevel ownedSkins selectedSkin defaultState].
    set (o0 := match raw_ownedSkins raw with Some l => l | None => [DEFAULT_SKIN_ID] end).
    set (o1 := if negb (includes o0 DEFAULT_SKIN_ID) then DEFAULT_SKIN_ID :: o0 else o0).
    assert (Hdef : DEFAULT_SKIN_ID ∈ o1).
    { unfold o1. destruct (includes o0 DEFAULT_SKIN_ID) eqn:E; cbn [negb].
      - apply includes_true. exact E.
      - left. }
    destruct (dedupe_spec [] o1) as [Hnd Hmem].
    assert (Hin : forall s, s ∈ o1 -> s ∈ dedupe [] o1).
    { intros s Hs. apply Hmem. split; [ exact Hs | apply not_elem_of_nil ]. }
    repeat split; try apply Rmax_l.
    + apply Hin, Hdef.
    + apply Hin. destruct (raw_selectedSkin raw) as [ s | ]; [ | exact Hdef ].
      destruct (includes o1 s) eqn:E; [ apply includes_true; exact E | exact Hdef ].
    + exact Hnd.
  - intros (Hc & Hh & Ht & Hl & Hd & Hs & Hnd).
    unfold sanitizeState, stored. cbn [raw_coins raw_highestUnlockedLevel
      raw_totalWins raw_ownedSkins raw_selectedSkin raw_lastPlayedLevel default
      coins highestUnlockedLevel totalWins lastPlayedLevel defaultState].
    rewrite (proj2 (includes_true _ _) Hd). cbn [negb].
    rewrite (proj2 (includes_true _ _) Hs).
    rewrite !Rmax_right by assumption.
    rewrite dedupe_NoDup_id; [ destruct st; reflexivity | exact Hnd | ].
    intros s _. apply not_elem_of_nil.
Qed.

Lemma defaultState_wellFormed : wellFormed defaultState.
Proof.
  unfold wellFormed, defaultState; cbn. repeat split; try lra; try left.
  apply NoDup_singleton.
Qed.

Lemma sanitizeState_wellFormed_witness :
  sanitizeState (stored defaultState) = defaultState.
Proof.
  apply (sanitizeState_wellFormed (stored defaultState) defaultState).
  exact defaultState_wellFormed.
Defined.

Lemma floor_nonneg (r : R) : 0 < r -> 0 <= floor r.
Proof.
  intros Hr. unfold floor. destruct (base_Int_part r) as [H1 H2].
  apply IZR_le. assert (H : (-1 < Int_part r)%Z); [ | lia ].
  apply lt_IZR. lra.
Qed.

Lemma Rleb_false (a b : R) : (a <=? b) = false <-> b < a.
Proof.
  unfold Rleb. rewrite negb_false_iff. apply Rltb_true.
Qed.

Lemma addCoins_wf (amount : R) (st : GameState) :
  wellFormed st -> wellFormed (addCoins amount st).
Proof.
  intros (Hc & Hh & Ht & Hl & Hd & Hs & Hnd). unfold addCoins.
  destruct (amount <=? 0) eqn:E; [ repeat split; assumption | ].
  apply Rleb_false in E. pose proof (floor_nonneg amount E).
  repeat split; cbn; try assumption. lra.
Qed.

Lemma unlockLevel_wf (levelIndex : R) (st : GameState) :
  wellFormed st -> wellFormed (unlockLevel levelIndex st).
Proof.
  intros (Hc & Hh & Ht & Hl & Hd & Hs & Hnd). unfold unlockLevel.
  destruct (levelIndex <=? highestUnlockedLevel st) eqn:E;
    [ repeat split; assumption | ].
  apply Rleb_false in E. repeat split; cbn; try assumption. lra.
Qed.

Lemma recordWin_wf (rewardCoins nextLevelIndex : R) (st : GameState) :
  wellFormed st -> wellFormed (recordWin rewardCoins nextLevelIndex st).
Proof.
  intros (Hc & Hh & Ht & Hl & Hd & Hs & Hnd). unfold recordWin.
  pose proof (Rmax_l 0 (floor rewardCoins)).
  pose proof (Rmax_l (highestUnlockedLevel st) nextLevelIndex).
  repeat split; cbn; try assumption; try lra. apply Rmax_l.
Qed.

Lemma purchaseSkin_wf (skinId : SkinId) (price : R) (st : GameState) :
  wellFormed st -> wellFormed (fst (purchaseSkin skinId price st)).
Proof.
  intros (Hc & Hh & Ht & Hl & Hd & Hs & Hnd). unfold purchaseSkin.
  destruct (includes (ownedSkins st) skinId) eqn:E; [ repeat split; assumption | ].
  destruct (price >? coins st) eqn:E2; [ repeat split; assumption | ].
  apply includes_false in E. apply Rgtb_false in E2.
  repeat split; cbn; try assumption.
  - lra.
  - apply elem_of_app. left. exact Hd.
  - apply elem_of_app. left. exact Hs.
  - apply NoDup_app. split; [ exact Hnd | split; [ | apply NoDup_singleton ] ].
    intros s Hin Hs'. apply list_elem_of_singleton in Hs'. subst s. contradiction.
Qed.

Lemma selectSkin_wf (skinId : SkinId) (st : GameState) :
  wellFormed st -> wellFormed (selectSkin skinId st).
Proof.
  intros (Hc & Hh & Ht & Hl & Hd & Hs & Hnd). unfold selectSkin.
  destruct (includes (ownedSkins st) skinId) eqn:E; cbn [negb orb];
    [ | repeat split; assumption ].
  destruct (bool_decide (selectedSkin st = skinId)); [ repeat split; assumption | ].
  apply includes_true in E. repeat split; cbn; assumption.
Qed.

Lemma setLastPlayedLevel_wf (levelIndex : R) (st : GameState) :
  wellFormed st -> wellFormed (setLastPlayedLevel levelIndex st).
Proof.
  intros (Hc & Hh & Ht & Hl & Hd & Hs & Hnd). unfold setLastPlayedLevel.
  repeat split; cbn; try assumption. apply Rmax_l.
Qed.

(** Every transition of the store keeps the state well-formed: counters stay
    non-negative (a purchase never overdraws the coins), the default skin and
    the selected skin stay owned, and no skin is owned twice. *)
Theorem store_transitions_keep_wellFormed (st : GameState) (amount levelIndex
    rewardCoins nextLevelIndex price : R) (skinId : SkinId) :
  wellFormed st ->
  wellFormed (addCoins amount st)
  /\ wellFormed (unlockLevel levelIndex st)
  /\ wellFormed (recordWin rewardCoins nextLevelIndex st)
  /\ wellFormed (fst (purchaseSkin skinId price st))
  /\ wellFormed (selectSkin skinId st)
  /\ wellFormed (setLastPlayedLevel levelIndex st).
Proof.
  intros Hwf.
  split; [ apply addCoins_wf; exact Hwf | ].
  split; [ apply unlockLevel_wf; exact Hwf | ].
  split; [ apply recordWin_wf; exact Hwf | ].
  split; [ apply purchaseSkin_wf; exact Hwf | ].
  split; [ apply selectSkin_wf; exact Hwf | ].
  apply setLastPlayedLevel_wf; exact Hwf.
Qed.

Lemma richState_wellFormed : wellFormed richState.
Proof.
  unfold wellFormed, richState; cbn. repeat split; try lra; try left.
  apply NoDup_singleton.
Qed.

Lemma store_transitions_keep_wellFormed_witness :
  wellFormed (fst (purchaseSkin sunset 350 richState)).
Proof.
  apply (store_transitions_keep_wellFormed richState 10 3 150 3 350 sunset).
  exact richState_wellFormed.
Defined.

(** A purchase: a skin already owned costs nothing; a skin that costs more
    than the coins held changes nothing; otherwise the price is paid once and
    the skin is owned.  The flag tells whether the skin is owned afterwards,
    and asking again for the same purchase changes nothing more. *)
Theorem purchaseSkin_outcome (skinId : SkinId) (price : R) (st : GameState) :
  let result := purchaseSkin skinId price st in
  (snd result = true <-> skinId ∈ ownedSkins (fst result))
  /\ (skinId ∈ ownedSkins st -> result = (st, true))
  /\ (skinId ∉ ownedSkins st -> coins st < price -> result = (st, false))
  /\ (skinId ∉ ownedSkins st -> price <= coins st ->
      coins (fst result) = coins st - price
      /\ ownedSkins (fst result) = ownedSkins st ++ [skinId])
  /\ purchaseSkin skinId price (fst result) = result.
Proof.
  intros result. unfold result, purchaseSkin.
  destruct (includes (ownedSkins st) skinId) eqn:E.
  - pose proof (proj1 (includes_true _ _) E) as Hin. cbn [fst snd].
    rewrite E. repeat split; try tauto; intros; contradiction.
  - pose proof (proj1 (includes_false _ _) E) as Hout.
    destruct (price >? coins st) eqn:E2; cbn [fst snd].
    + apply Rgtb_true in E2. rewrite E, (proj2 (Rgtb_true _ _) E2).
      repeat split; try discriminate; try tauto; intros; try contradiction; lra.
    + apply Rgtb_false in E2. cbn [ownedSkins coins].
      assert (Hin : skinId ∈ ownedSkins st ++ [skinId])
        by (apply elem_of_app; right; left).
      rewrite (proj2 (includes_true _ _) Hin).
      repeat split; try tauto; intros; try contradiction; lra.
Qed.

Lemma purchaseSkin_outcome_witness :
  coins (fst (purchaseSkin sunset 350 richState)) = 400 - 350
  /\ purchaseSkin neon 500 richState = (richState, false).
Proof.
  destruct (purchaseSkin_outcome sunset 350 richState) as (_ & _ & _ & Hbuy & _).
  destruct (purchaseSkin_outcome neon 500 richState) as (_ & _ & Hpoor & _).
  assert (Hs : sunset ∉ ownedSkins richState)
    by (cbn; intros H; apply list_elem_of_singleton in H; discriminate).
  assert (Hn : neon ∉ ownedSkins richState)
    by (cbn; intros H; apply list_elem_of_singleton in H; discriminate).
  split.
  - apply Hbuy; [ exact Hs | cbn; lra ].
  - apply Hpoor; [ exact Hn | cbn; lra ].
Defined.

(** Progress is lost by a reset only.  None of [addCoins], [unlockLevel],
    [recordWin], [purchaseSkin], [selectSkin] and [setLastPlayedLevel] lowers
    the highest unlocked level or the number of wins or removes a skin from
    the owned ones; of these only a purchase can lower the coins, and a win
    adds one to the wins and at least nothing to the coins.  The seventh
    callback, [resetProgress], returns the default state whatever the state:
    from a well-formed state it raises none of the coins, the level and the
    wins and keeps no skin but owned ones, and it does lower each counter that
    was positive. *)
Theorem store_progress_monotone (st : GameState) (amount levelIndex
    rewardCoins nextLevelIndex price : R) (skinId : SkinId) :
  let keeps (st' : GameState) :=
    highestUnlockedLevel st <= highestUnlockedLevel st'
    /\ totalWins st <= totalWins st'
    /\ ownedSkins st ⊆ ownedSkins st' in
  (keeps (addCoins amount st) /\ coins st <= coins (addCoins amount st))
  /\ (keeps (unlockLevel levelIndex st)
      /\ levelIndex <= highestUnlockedLevel (unlockLevel levelIndex st))
  /\ (keeps (recordWin rewardCoins nextLevelIndex st)
      /\ coins st <= coins (recordWin rewardCoins nextLevelIndex st)
      /\ totalWins (recordWin rewardCoins nextLevelIndex st) = totalWins st + 1
      /\ nextLevelIndex
         <= highestUnlockedLevel (recordWin rewardCoins nextLevelIndex st))
  /\ keeps (fst (purchaseSkin skinId price st))
  /\ (keeps (selectSkin skinId st) /\ coins (selectSkin skinId st) = coins st)
  /\ (keeps (setLastPlayedLevel levelIndex st)
      /\ coins (setLastPlayedLevel levelIndex st) = coins st)
  /\ (coins (resetProgress st) = 0
      /\ highestUnlockedLevel (resetProgress st) = 0
      /\ totalWins (resetProgress st) = 0
      /\ lastPlayedLevel (resetProgress st) = 0
      /\ ownedSkins (resetProgress st) = [DEFAULT_SKIN_ID]
      /\ selectedSkin (resetProgress st) = DEFAULT_SKIN_ID)
  /\ (wellFormed st ->
      coins (resetProgress st) <= coins st
      /\ highestUnlockedLevel (resetProgress st) <= highestUnlockedLevel st
      /\ totalWins (resetProgress st) <= totalWins st
      /\ ownedSkins (resetProgress st) ⊆ ownedSkins st)
  /\ (0 < highestUnlockedLevel st ->
      highestUnlockedLevel (resetProgress st) < highestUnlockedLevel st)
  /\ (0 < totalWins st -> totalWins (resetProgress st) < totalWins st)
  /\ (forall s, s ∈ ownedSkins st -> s <> DEFAULT_SKIN_ID ->
        s ∉ ownedSkins (resetProgress st)).
Proof.
  intros keeps. unfold keeps.
  assert (Hrefl : highestUnlockedLevel st <= highestUnlockedLevel st
                  /\ totalWins st <= totalWins st /\ ownedSkins st ⊆ ownedSkins st)
    by (split; [ lra | split; [ lra | reflexivity ] ]).
  split; [ | split; [ | split; [ | split; [ | split; [ | split ] ] ] ] ].
  - unfold addCoins. destruct (amount <=? 0) eqn:E; [ split; [ exact Hrefl | lra ] | ].
    apply Rleb_false in E. pose proof (floor_nonneg amount E). cbn.
    split; [ exact Hrefl | lra ].
  - unfold unlockLevel. destruct (levelIndex <=? highestUnlockedLevel st) eqn:E.
    + split; [ exact Hrefl | ].
      unfold Rleb in E. rewrite negb_true_iff in E. apply Rltb_false in E. exact E.
    + apply Rleb_false in E. cbn. split; [ | lra ].
      split; [ lra | split; [ lra | reflexivity ] ].
  - unfold recordWin. cbn.
    pose proof (Rmax_l 0 (floor rewardCoins)).
    pose proof (Rmax_l (highestUnlockedLevel st) nextLevelIndex).
    pose proof (Rmax_r (highestUnlockedLevel st) nextLevelIndex).
    repeat split; try lra; reflexivity.
  - unfold purchaseSkin.
    destruct (includes (ownedSkins st) skinId); [ exact Hrefl | ].
    destruct (price >? coins st); [ exact Hrefl | ]. cbn.
    split; [ lra | split; [ lra | ] ].
    intros s Hs. apply elem_of_app. left. exact Hs.
  - unfold selectSkin.
    destruct (negb _ || _); cbn; (split; [ exact Hrefl | reflexivity ]).
  - unfold setLastPlayedLevel. cbn. split; [ exact Hrefl | reflexivity ].
  - unfold resetProgress, defaultState. cbn [coins highestUnlockedLevel totalWins
      lastPlayedLevel ownedSkins selectedSkin].
    split; [ repeat split | ].
    split; [ | split; [ intros H; exact H | split; [ intros H; exact H | ] ] ].
    + intros (Hc & Hl & Hw & _ & Hdef & _).
      split; [ exact Hc | split; [ exact Hl | split; [ exact Hw | ] ] ].
      intros s Hs. apply list_elem_of_singleton in Hs. subst s. exact Hdef.
    + intros s _ Hne Hs. apply list_elem_of_singleton in Hs. contradiction.
Qed.

Lemma veteranState_wellFormed : wellFormed veteranState.
Proof.
  unfold wellFormed, veteranState; cbn. repeat split; try lra.
  - left.
  - right. left.
  - apply NoDup_cons. split; [ | apply NoDup_singleton ].
    intros H. apply list_elem_of_singleton in H. discriminate.
Qed.

Lemma store_progress_monotone_witness :
  highestUnlockedLevel (resetProgress veteranState)
  < highestUnlockedLevel veteranState
  /\ totalWins (resetProgress veteranState) < totalWins veteranState
  /\ ownedSkins (resetProgress veteranState) ⊆ ownedSkins veteranState
  /\ sunset ∉ ownedSkins (resetProgress veteranState).
Proof.
  destruct (store_progress_monotone veteranState 0 0 0 0 0 classic)
    as (_ & _ & _ & _ & _ & _ & _ & Hwf & Hlevel & Hwins & Hskin).
  split; [ | split; [ | split ] ].
  - apply Hlevel. cbn. lra.
  - apply Hwins. cbn. lra.
  - apply Hwf. exact veteranState_wellFormed.
  - apply Hskin; [ cbn; right; left | discriminate ].
Defined.

(** * Properties of the particles *)

(** The particles.  A spawn without new particles changes nothing; otherwise
    it keeps the newest 120 of the old particles followed by the new ones:
    the list is what is left of them after dropping from the front, and has
    [min 120 (old + new)] entries, so that a list of at most 120 particles
    stays one.  An update for an empty rendered list changes nothing;
    otherwise it keeps, in their order, exactly the particles whose life minus
    [dt] is still positive, each with the same id and colour, moved by
    [velocity * dt], at 0.9 times the velocity and with [dt] less to live; it
    never adds a particle. *)
Theorem particles_bounded (dt : R) (particles prev newParticles : list Particle) :
  let aged (p : Particle) : Particle :=
    {| pt_id := pt_id p;
       pt_position := {| x := x (pt_position p) + x (pt_velocity p) * dt;
                         y := y (pt_position p) + y (pt_velocity p) * dt |};
       pt_velocity := {| x := x (pt_velocity p) * 0.9;
                         y := y (pt_velocity p) * 0.9 |};
       life := life p - dt;
       pt_color := pt_color p |} in
  spawnCollisionEffects [] prev = prev
  /\ (exists dropped,
        prev ++ newParticles = dropped ++ spawnCollisionEffects newParticles prev)
  /\ (newParticles <> [] ->
      List.length (spawnCollisionEffects newParticles prev)
      = Nat.min 120 (List.length prev + List.length newParticles))
  /\ ((List.length prev <= 120)%nat ->
      (List.length (spawnCollisionEffects newParticles prev) <= 120)%nat)
  /\ updateParticles [] dt prev = prev
  /\ (particles <> [] ->
      updateParticles particles dt prev
      = map aged (List.filter (fun p => life p - dt >? 0) prev))
  /\ updateParticles prev dt prev
     = map aged (List.filter (fun p => life p - dt >? 0) prev)
  /\ (forall p, In p prev -> 0 < life p - dt ->
        In (aged p) (updateParticles prev dt prev))
  /\ (forall q, In q (updateParticles prev dt prev) ->
        0 < life q /\ exists p, In p prev /\ 0 < life p - dt /\ q = aged p)
  /\ (List.length (updateParticles particles dt prev) <= List.length prev)%nat.
Proof.
  intros aged.
  assert (Hage : ageParticles dt prev
                 = map aged (List.filter (fun p => life p - dt >? 0) prev)).
  { unfold ageParticles. induction prev as [ | p rest IH ]; [ reflexivity | ].
    cbn [map List.filter life]. rewrite IH.
    destruct (life p - dt >? 0); reflexivity. }
  assert (Hself : updateParticles prev dt prev
                  = map aged (List.filter (fun p => life p - dt >? 0) prev)).
  { unfold updateParticles. destruct prev; [ reflexivity | exact Hage ]. }
  split; [ reflexivity | ].
  split.
  { unfold spawnCollisionEffects, appendParticles.
    destruct newParticles as [ | n rest ].
    - exists []. rewrite app_nil_r. reflexivity.
    - cbv zeta. exists (take (List.length (prev ++ n :: rest) - 120) (prev ++ n :: rest)).
      rewrite take_drop. reflexivity. }
  split.
  { intros Hne. unfold spawnCollisionEffects, appendParticles.
    destruct newParticles as [ | n rest ]; [ contradiction | ].
    cbv zeta. rewrite length_drop, length_app. lia. }
  split.
  { intros Hle. unfold spawnCollisionEffects, appendParticles.
    destruct newParticles as [ | n rest ]; [ exact Hle | ].
    cbv zeta. rewrite length_drop. lia. }
  split; [ reflexivity | ].
  split.
  { intros Hne. unfold updateParticles.
    destruct particles; [ contradiction | exact Hage ]. }
  split; [ exact Hself | ].
  split.
  { intros p Hin Hl. rewrite Hself. apply in_map. apply filter_In.
    split; [ exact Hin | apply Rgtb_true; exact Hl ]. }
  split.
  { intros q Hq. rewrite Hself in Hq.
    apply in_map_iff in Hq as (p & <- & Hp).
    apply filter_In in Hp as [Hin Hl]. apply Rgtb_true in Hl.
    split; [ exact Hl | ]. exists p. repeat split; assumption. }
  unfold updateParticles. destruct particles; [ lia | ].
  rewrite Hage, length_map. apply List.filter_length_le.
Qed.

Lemma particles_bounded_witness :
  List.length (spawnCollisionEffects [spark] [spark]) = 2%nat
  /\ (List.length (spawnCollisionEffects [spark] [spark]) <= 120)%nat
  /\ updateParticles [spark] 0.1 [spark]
     = [ {| pt_id := 1;
            pt_position := {| x := 10 + 100 * 0.1; y := 20 + 0 * 0.1 |};
            pt_velocity := {| x := 100 * 0.9; y := 0 * 0.9 |};
            life := 0.5 - 0.1;
            pt_color := "#FFFFFF" |} ]
  /\ In {| pt_id := 1;
           pt_position := {| x := 10 + 100 * 0.1; y := 20 + 0 * 0.1 |};
           pt_velocity := {| x := 100 * 0.9; y := 0 * 0.9 |};
           life := 0.5 - 0.1;
           pt_color := "#FFFFFF" |}
        (updateParticles [spark] 0.1 [spark]).
Proof.
  destruct (particles_bounded 0.1 [spark] [spark] [spark])
    as (_ & _ & Hlen & Hbound & _ & Hupd & _ & Hkept & _).
  split; [ | split; [ | split ] ].
  - rewrite Hlen by discriminate. reflexivity.
  - apply Hbound. cbn. lia.
  - rewrite Hupd by discriminate.
    cbn [List.filter spark life]. cmp_eval. reflexivity.
  - apply (Hkept spark); [ left; reflexivity | cbn; lra ].
Defined.
